(** * Crokinole arm controller: phase state machine, trajectory generator,
      safety monitor

    Shallow embedding of the two controller variants of the repository,
    [src/panda_interface/controller.cpp] (module [Interface]) and
    [src/panda_starter_code/controller.cpp] (module [Starter]).

    Numbers.  A C++ [double] is modelled as a real number of the Standard
    Library ([R]): comparisons, [sqrt], [sin], [cos] and [atan] are the
    mathematical ones, and rounding, infinities and NaN are outside the
    model.  The tick counter is an [unsigned long long]; it is a [Z] whose
    increment wraps modulo 2^64.

    External collaborators.  The Sai2 dynamics library is a black box: the
    torques it synthesises and the Cartesian quantities it derives from the
    joint state arrive as per-tick inputs.  The Redis store is a record of
    the keys the loop reads, together with the log of the writes the loop
    performs.  [std::stod] is a parameter of the loop. *)

From Stdlib Require Import Reals Lra Lia ZArith List String Ascii Bool.
Import ListNotations.

Open Scope R_scope.

(** ** Doubles and their comparisons *)

Abbreviation double := R.

Definition lt_d (x y : double) : bool := if Rlt_dec x y then true else false.
Definition gt_d (x y : double) : bool := lt_d y x.
Definition le_d (x y : double) : bool := if Rle_dec x y then true else false.
Definition ge_d (x y : double) : bool := le_d y x.

(** ** Eigen vectors and matrices *)

(** [VectorXd]: a vector whose size is known at run time. *)
Definition VectorXd : Type := list double.

(** [Vector3d] and [Matrix3d] (row major, as the comma initialiser fills
    them). *)
Record Vector3d : Type := mkVector3d { v_x : double; v_y : double; v_z : double }.

Record Vector4d : Type :=
  mkVector4d { c_0 : double; c_1 : double; c_2 : double; c_3 : double }.

Record Matrix3d : Type := mkMatrix3d {
  m00 : double; m01 : double; m02 : double;
  m10 : double; m11 : double; m12 : double;
  m20 : double; m21 : double; m22 : double }.

(** Implicit conversion of a fixed-size vector to [VectorXd] at a call. *)
Definition toVectorXd (v : Vector3d) : VectorXd := [v_x v; v_y v; v_z v].

(** [a - b], coefficient by coefficient; Eigen asserts that both sizes are
    equal. *)
Fixpoint vminus (a b : VectorXd) : VectorXd :=
  match a, b with
  | x :: a', y :: b' => (x - y) :: vminus a' b'
  | _, _ => []
  end.

Definition vplus (a b : VectorXd) : VectorXd :=
  map (fun p => fst p + snd p) (combine a b).

Definition squaredNorm (v : VectorXd) : double :=
  fold_right (fun c acc => c * c + acc) 0 v.

(** [v.norm()]: the Euclidean norm. *)
Definition norm (v : VectorXd) : double := sqrt (squaredNorm v).

(** [VectorXd::Zero(n)] and [c * VectorXd::Ones(n)]. *)
Definition Zero (n : nat) : VectorXd := repeat 0 n.
Definition Ones (c : double) (n : nat) : VectorXd := repeat c n.

(** ** The weighted error of the goal-reached predicate

    Both variants compute the same scalar and differ in [epsilon]. *)
Definition error_norm (x x_desired xdot xddot omega alpha : VectorXd) : double :=
  100 * norm xdot + 10 * norm (vminus x x_desired) +
  1000 * norm xddot + 1000 * norm omega + 1000 * norm alpha.

(** ** Safety monitor *)

(** The four soft limits a joint is checked against. *)
Inductive Limit : Type :=
| MAX_JOINT_POSITION
| MIN_JOINT_POSITION
| MAX_JOINT_VELOCITY
| MAX_JOINT_TORQUE.

Definition joint_position_max : list double := [2.7; 1.6; 2.7; -0.2; 2.7; 3.6; 2.7].
Definition joint_position_min : list double := [-2.7; -1.6; -2.7; -3.0; -2.7; 0.2; -2.7].
Definition joint_velocity_limits : list double := [2.0; 2.0; 2.0; 2.0; 2.5; 2.5; 2.5].
Definition joint_torques_limits : list double := [85; 85; 85; 85; 10; 10; 10].

(** [v[i]]; an index past the end is undefined behaviour in the source. *)
Definition at_ (v : list double) (i : nat) : double := nth i v 0.

(** The limits joint [i] violates, in the order the loop body tests them. *)
Definition violated (q dq tau : VectorXd) (i : nat) : list Limit :=
  (if gt_d (at_ q i) (at_ joint_position_max i) then [MAX_JOINT_POSITION] else []) ++
  (if lt_d (at_ q i) (at_ joint_position_min i) then [MIN_JOINT_POSITION] else []) ++
  (if gt_d (Rabs (at_ dq i)) (at_ joint_velocity_limits i) then [MAX_JOINT_VELOCITY] else []) ++
  (if gt_d (Rabs (at_ tau i)) (at_ joint_torques_limits i) then [MAX_JOINT_TORQUE] else []).

(** Joint [i] is beyond the limit [l], strictly. *)
Definition exceeds (q dq tau : VectorXd) (i : nat) (l : Limit) : Prop :=
  match l with
  | MAX_JOINT_POSITION => at_ q i > at_ joint_position_max i
  | MIN_JOINT_POSITION => at_ q i < at_ joint_position_min i
  | MAX_JOINT_VELOCITY => Rabs (at_ dq i) > at_ joint_velocity_limits i
  | MAX_JOINT_TORQUE => Rabs (at_ tau i) > at_ joint_torques_limits i
  end.

(** A snapshot value that lies inside every limit of joint [i]. *)
Definition within_limits (q dq tau : VectorXd) (i : nat) : Prop :=
  at_ joint_position_min i <= at_ q i <= at_ joint_position_max i /\
  Rabs (at_ dq i) <= at_ joint_velocity_limits i /\
  Rabs (at_ tau i) <= at_ joint_torques_limits i.

(** [inRange]: true if [t] lies between the lower (included) and the upper
    (excluded) limit. *)
Definition inRange (t lower upper : double) : bool :=
  lt_d t upper && ge_d t lower.

(** [M_PI]. *)
Definition M_PI : double := PI.

(** [atan2 y x] of the C library, on real arguments. *)
Definition atan2 (y x : double) : double :=
  if lt_d 0 x then atan (y / x)
  else if lt_d x 0 then
         (if le_d 0 y then atan (y / x) + PI else atan (y / x) - PI)
  else if lt_d 0 y then PI / 2
  else if lt_d y 0 then - (PI / 2)
  else 0.

Definition v3_plus (a b : Vector3d) : Vector3d :=
  mkVector3d (v_x a + v_x b) (v_y a + v_y b) (v_z a + v_z b).
Definition v3_minus (a b : Vector3d) : Vector3d :=
  mkVector3d (v_x a - v_x b) (v_y a - v_y b) (v_z a - v_z b).
Definition v3_scale (a : Vector3d) (k : double) : Vector3d :=
  mkVector3d (v_x a * k) (v_y a * k) (v_z a * k).
Definition v3_div (a : Vector3d) (k : double) : Vector3d :=
  mkVector3d (v_x a / k) (v_y a / k) (v_z a / k).

Definition dot4 (a b : Vector4d) : double :=
  c_0 a * c_0 b + c_1 a * c_1 b + c_2 a * c_2 b + c_3 a * c_3 b.

(** Product of two 3x3 matrices. *)
Definition m3_mul (a b : Matrix3d) : Matrix3d :=
  mkMatrix3d
    (m00 a * m00 b + m01 a * m10 b + m02 a * m20 b)
    (m00 a * m01 b + m01 a * m11 b + m02 a * m21 b)
    (m00 a * m02 b + m01 a * m12 b + m02 a * m22 b)
    (m10 a * m00 b + m11 a * m10 b + m12 a * m20 b)
    (m10 a * m01 b + m11 a * m11 b + m12 a * m21 b)
    (m10 a * m02 b + m11 a * m12 b + m12 a * m22 b)
    (m20 a * m00 b + m21 a * m10 b + m22 a * m20 b)
    (m20 a * m01 b + m21 a * m11 b + m22 a * m21 b)
    (m20 a * m02 b + m21 a * m12 b + m22 a * m22 b).

(** The matrix written out as [hit_rot] in the source; it is also
    [AngleAxisd(angle, Vector3d::UnitZ()).toRotationMatrix()]. *)
Definition rotZ (angle : double) : Matrix3d :=
  mkMatrix3d (cos angle) (- sin angle) 0
             (sin angle) (cos angle) 0
             0 0 1.

(** [WAIT_MODE] and [EXECUTE_MODE]. *)
Inductive Mode : Type := WAIT_MODE | EXECUTE_MODE.

(** [unsigned long long]: the increment wraps. *)
Definition ULLONG_MODULUS : Z := (2 ^ 64)%Z.
Definition incr_ull (c : Z) : Z := ((c + 1) mod ULLONG_MODULUS)%Z.

(** The robot has seven joints ([robot->dof()] for the Panda model). *)
Definition dof : nat := 7%nat.

(** [dt] of the loop: the tick counter is turned into seconds with it. *)
Definition dt : double := 0.001.

(** Statements in sequence: [s |> f |> g] runs [f], then [g]. *)
Notation "s |> f" := (f s) (at level 55, left associativity, only parsing).

(** [v.setZero()]: the size is kept. *)
Definition setZero (v : VectorXd) : VectorXd := map (fun _ => 0) v.

(** [std::string]: [find] of a one-character pattern (a [size_t], [npos]
    when absent), its conversion to [int], and [substr], which clamps the
    count to what is left of the string. *)
Definition npos : Z := (2 ^ 64 - 1)%Z.
Definition find (s pattern : string) : Z :=
  match index 0 pattern s with
  | Some i => Z.of_nat i
  | None => npos
  end.
Definition to_int (z : Z) : Z := ((z + 2 ^ 31) mod 2 ^ 32 - 2 ^ 31)%Z.
Definition to_size_t (z : Z) : Z := (z mod 2 ^ 64)%Z.
Definition substr (s : string) (pos count : Z) : string :=
  substring (Z.to_nat pos)
            (Z.to_nat (Z.min count (Z.of_nat (String.length s) - pos))) s.

(** ** The interface variant: [src/panda_interface/controller.cpp] *)

Module Interface.

(** A line of the diagnostic output: the limit, and the joint number
    [i + 1] printed after it. *)
Record Violation : Type := mkViolation { v_limit : Limit; v_joint : nat }.

(** [safetyChecks]: soft limit check as per the driver; the loop over
    [i = 0 .. dof - 1] prints, and changes nothing. *)
Definition safetyChecks (q dq tau : VectorXd) (dof : nat) : list Violation :=
  flat_map (fun i => map (fun l => mkViolation l (i + 1)) (violated q dq tau i))
           (seq 0 dof).

Definition epsilon : double := 3.

Definition robotReachedGoal (x x_desired xdot xddot omega alpha : VectorXd) : bool :=
  if lt_d (error_norm x x_desired xdot xddot omega alpha) epsilon
  then true else false.

(** The values of [state]; [END_SHOT] is declared and never assigned. *)
Inductive State : Type :=
| JOINT_CONTROLLER
| POSORI_CONTROLLER
| JOINT_CONTROLLER_SHOT
| END_SHOT.

(** The mutable globals of the file. *)
Record Globals : Type := mkGlobals {
  mode : Mode;
  state : State;
  controller_counter : Z;
  t_0 : double; t_1 : double; t_2 : double; t_3 : double; t_4 : double;
  theta_mid : double;
  cue_start_pos : Vector4d;
  centershot : bool }.

Definition ee_length : double := 17.70 * 0.0254.

(** *** Trajectory generator *)

Definition r : double := 20.125 / 2 * 0.0254.
Definition x_offset : double := 0.7385.
Definition y_offset : double := 0.1070 + 0.035.
Definition z_offset : double := 0.3120.
Definition xh : Vector3d := mkVector3d 0.2859 0.2787 0.4300.
Definition xc : Vector3d :=
  mkVector3d (r * sin (- M_PI / 4) + x_offset)
             (r * cos (- M_PI / 4) + y_offset)
             z_offset.

(** [xcd = (T * cue_start_pos).head(3)], with the rows of [T]. *)
Definition xcd (cue : Vector4d) : Vector3d :=
  mkVector3d (dot4 (mkVector4d 0 1 0 x_offset) cue)
             (dot4 (mkVector4d (-1) 0 0 y_offset) cue)
             (dot4 (mkVector4d 0 0 1 z_offset) cue).

(** The second piece: the arc from the cue coin to the drop-off angle. *)
Definition arc (g : Globals) (t : double) : Vector3d :=
  let x0 := v_x xc in
  let y0 := v_y xc in
  let xf := v_x (xcd (cue_start_pos g)) in
  let yf := v_y (xcd (cue_start_pos g)) in
  let t0 := atan2 (x0 - x_offset) (y0 - y_offset) in
  let tf := atan2 (xf - x_offset) (yf - y_offset) in
  let old_range := t_2 g - t_1 g in
  let new_range := tf - t0 in
  let new_t := (((t - t_1 g) * new_range) / old_range) + t0 in
  mkVector3d (r * sin new_t + x_offset) (r * cos new_t + y_offset) (v_z xc).

Definition calculatePointInTrajectory (g : Globals) (t : double) : Vector3d :=
  if inRange t (t_0 g) (t_1 g) then
    v3_plus xh (v3_div (v3_scale (v3_minus xc xh) (t - t_0 g)) (t_1 g - t_0 g))
  else if inRange t (t_1 g) (t_2 g) then arc g t
  else if inRange t (t_2 g) (t_3 g) then xcd (cue_start_pos g)
  else if inRange t (t_3 g) (t_4 g) then xcd (cue_start_pos g)
  else xh.

Definition home_orientation : Matrix3d :=
  mkMatrix3d 0.7360145 0.6763110 0.0297644
             (-0.0413102) 0.0009846 0.9991459
             0.6757041 (-0.7366155) 0.0286632.

Definition calculateRotationInTrajectory (g : Globals) (t psi : double) : Matrix3d :=
  if inRange t (t_0 g) (t_1 g) then
    m3_mul (rotZ (- M_PI / 4 * (t - t_0 g) / (t_1 g - t_0 g))) home_orientation
  else if inRange t (t_1 g) (t_2 g) then
    m3_mul (rotZ (- M_PI / 4)) home_orientation
  else if inRange t (t_2 g) (t_3 g) then
    m3_mul (rotZ (- M_PI / 2 + psi)) home_orientation
  else if inRange t (t_3 g) (t_4 g) then
    m3_mul (rotZ (- M_PI / 2 + psi)) home_orientation
  else home_orientation.


(** *** The state of the loop *)

(** Locals of [main] that live across iterations.  [hit_velocity],
    [swing_angle], [a], [w] and [command_time] are declared without an
    initialiser. *)
Record Locals : Type := mkLocals {
  psi : double;
  hit_velocity : double;
  swing_angle : double;
  total_time : double;
  shot_angular_velocity : double;
  a : double;
  w : double;
  command_time : double;
  command_torques : VectorXd;
  joint_task_torques : VectorXd;
  posori_task_torques : VectorXd }.

(** The fields of the two Sai2 tasks that the loop assigns.  The joint
    target [_desired_position] is left to the library, whose
    [reInitializeTask] rewrites it. *)
Record JointTask : Type := mkJointTask {
  jt_kp : double;
  jt_kv : double;
  jt_use_velocity_saturation_flag : bool;
  jt_saturation_velocity : VectorXd }.

Record PosOriTask : Type := mkPosOriTask {
  po_kp_pos : double;
  po_kv_pos : double;
  po_kp_ori : double;
  po_kv_ori : double;
  po_desired_position : Vector3d;
  po_desired_orientation : Matrix3d }.

(** The store: the value under [MODE_CHANGE_KEY], [SHOT_POS_KEY] and
    [SHOT_ANGLE_KEY], and every value the loop wrote under
    [JOINT_TORQUES_COMMANDED_KEY], most recent first. *)
Record Redis : Type := mkRedis {
  modechange : string;
  shotpos : string;
  shotangle : string;
  fgc : list VectorXd }.

Record World : Type := mkWorld {
  globals : Globals;
  locals : Locals;
  joint_task : JointTask;
  posori_task : PosOriTask;
  redis : Redis;
  reports : list Violation }.

(** What one iteration takes from outside: the writes of other clients
    of the store since the previous iteration, the sensed joint state,
    and what the Sai2 library computes from it. *)
Record TickInput : Type := mkTickInput {
  ext_modechange : option string;
  ext_shotpos : option string;
  ext_shotangle : option string;
  in_q : VectorXd;
  in_dq : VectorXd;
  in_x : Vector3d;
  in_xdot : Vector3d;
  in_xddot : Vector3d;
  in_omega : Vector3d;
  in_alpha : Vector3d;
  in_joint_task_torques : VectorXd;
  in_posori_task_torques : VectorXd }.

(** Field updates. *)
Definition set_mode (v : Mode) (g : Globals) : Globals :=
  mkGlobals v (state g) (controller_counter g) (t_0 g) (t_1 g) (t_2 g) (t_3 g)
            (t_4 g) (theta_mid g) (cue_start_pos g) (centershot g).
Definition set_state (v : State) (g : Globals) : Globals :=
  mkGlobals (mode g) v (controller_counter g) (t_0 g) (t_1 g) (t_2 g) (t_3 g)
            (t_4 g) (theta_mid g) (cue_start_pos g) (centershot g).
Definition set_controller_counter (v : Z) (g : Globals) : Globals :=
  mkGlobals (mode g) (state g) v (t_0 g) (t_1 g) (t_2 g) (t_3 g)
            (t_4 g) (theta_mid g) (cue_start_pos g) (centershot g).
Definition set_theta_mid (v : double) (g : Globals) : Globals :=
  mkGlobals (mode g) (state g) (controller_counter g) (t_0 g) (t_1 g) (t_2 g)
            (t_3 g) (t_4 g) v (cue_start_pos g) (centershot g).
Definition set_cue_start_pos (v : Vector4d) (g : Globals) : Globals :=
  mkGlobals (mode g) (state g) (controller_counter g) (t_0 g) (t_1 g) (t_2 g)
            (t_3 g) (t_4 g) (theta_mid g) v (centershot g).
Definition set_centershot (v : bool) (g : Globals) : Globals :=
  mkGlobals (mode g) (state g) (controller_counter g) (t_0 g) (t_1 g) (t_2 g)
            (t_3 g) (t_4 g) (theta_mid g) (cue_start_pos g) v.

Definition set_psi (v : double) (l : Locals) : Locals :=
  mkLocals v (hit_velocity l) (swing_angle l) (total_time l)
           (shot_angular_velocity l) (a l) (w l) (command_time l)
           (command_torques l) (joint_task_torques l) (posori_task_torques l).
Definition set_swing_angle (v : double) (l : Locals) : Locals :=
  mkLocals (psi l) (hit_velocity l) v (total_time l)
           (shot_angular_velocity l) (a l) (w l) (command_time l)
           (command_torques l) (joint_task_torques l) (posori_task_torques l).
Definition set_shot_angular_velocity (v : double) (l : Locals) : Locals :=
  mkLocals (psi l) (hit_velocity l) (swing_angle l) (total_time l)
           v (a l) (w l) (command_time l)
           (command_torques l) (joint_task_torques l) (posori_task_torques l).
Definition set_a (v : double) (l : Locals) : Locals :=
  mkLocals (psi l) (hit_velocity l) (swing_angle l) (total_time l)
           (shot_angular_velocity l) v (w l) (command_time l)
           (command_torques l) (joint_task_torques l) (posori_task_torques l).
Definition set_w (v : double) (l : Locals) : Locals :=
  mkLocals (psi l) (hit_velocity l) (swing_angle l) (total_time l)
           (shot_angular_velocity l) (a l) v (command_time l)
           (command_torques l) (joint_task_torques l) (posori_task_torques l).
Definition set_command_time (v : double) (l : Locals) : Locals :=
  mkLocals (psi l) (hit_velocity l) (swing_angle l) (total_time l)
           (shot_angular_velocity l) (a l) (w l) v
           (command_torques l) (joint_task_torques l) (posori_task_torques l).
Definition set_command_torques (v : VectorXd) (l : Locals) : Locals :=
  mkLocals (psi l) (hit_velocity l) (swing_angle l) (total_time l)
           (shot_angular_velocity l) (a l) (w l) (command_time l)
           v (joint_task_torques l) (posori_task_torques l).
Definition set_joint_task_torques (v : VectorXd) (l : Locals) : Locals :=
  mkLocals (psi l) (hit_velocity l) (swing_angle l) (total_time l)
           (shot_angular_velocity l) (a l) (w l) (command_time l)
           (command_torques l) v (posori_task_torques l).
Definition set_posori_task_torques (v : VectorXd) (l : Locals) : Locals :=
  mkLocals (psi l) (hit_velocity l) (swing_angle l) (total_time l)
           (shot_angular_velocity l) (a l) (w l) (command_time l)
           (command_torques l) (joint_task_torques l) v.

Definition set_jt_kp (v : double) (j : JointTask) : JointTask :=
  mkJointTask v (jt_kv j) (jt_use_velocity_saturation_flag j)
              (jt_saturation_velocity j).
Definition set_jt_kv (v : double) (j : JointTask) : JointTask :=
  mkJointTask (jt_kp j) v (jt_use_velocity_saturation_flag j)
              (jt_saturation_velocity j).
Definition set_jt_use_velocity_saturation_flag (v : bool) (j : JointTask) : JointTask :=
  mkJointTask (jt_kp j) (jt_kv j) v (jt_saturation_velocity j).
Definition set_jt_saturation_velocity (v : VectorXd) (j : JointTask) : JointTask :=
  mkJointTask (jt_kp j) (jt_kv j) (jt_use_velocity_saturation_flag j) v.

(** The four pose gains are always assigned together. *)
Definition set_po_gains (kp_pos kv_pos kp_ori kv_ori : double) (p : PosOriTask)
  : PosOriTask :=
  mkPosOriTask kp_pos kv_pos kp_ori kv_ori
               (po_desired_position p) (po_desired_orientation p).
Definition set_po_desired_position (v : Vector3d) (p : PosOriTask) : PosOriTask :=
  mkPosOriTask (po_kp_pos p) (po_kv_pos p) (po_kp_ori p) (po_kv_ori p)
               v (po_desired_orientation p).
Definition set_po_desired_orientation (v : Matrix3d) (p : PosOriTask) : PosOriTask :=
  mkPosOriTask (po_kp_pos p) (po_kv_pos p) (po_kp_ori p) (po_kv_ori p)
               (po_desired_position p) v.

Definition on_globals (f : Globals -> Globals) (s : World) : World :=
  mkWorld (f (globals s)) (locals s) (joint_task s) (posori_task s) (redis s)
          (reports s).
Definition on_locals (f : Locals -> Locals) (s : World) : World :=
  mkWorld (globals s) (f (locals s)) (joint_task s) (posori_task s) (redis s)
          (reports s).
Definition on_joint_task (f : JointTask -> JointTask) (s : World) : World :=
  mkWorld (globals s) (locals s) (f (joint_task s)) (posori_task s) (redis s)
          (reports s).
Definition on_posori_task (f : PosOriTask -> PosOriTask) (s : World) : World :=
  mkWorld (globals s) (locals s) (joint_task s) (f (posori_task s)) (redis s)
          (reports s).
Definition on_redis (f : Redis -> Redis) (s : World) : World :=
  mkWorld (globals s) (locals s) (joint_task s) (posori_task s) (f (redis s))
          (reports s).

Definition set_modechange (v : string) (rd : Redis) : Redis :=
  mkRedis v (shotpos rd) (shotangle rd) (fgc rd).
Definition set_shotpos (v : string) (rd : Redis) : Redis :=
  mkRedis (modechange rd) v (shotangle rd) (fgc rd).
Definition set_shotangle (v : string) (rd : Redis) : Redis :=
  mkRedis (modechange rd) (shotpos rd) v (fgc rd).
(** [redis_client.setEigenMatrixJSON(JOINT_TORQUES_COMMANDED_KEY, v)]. *)
Definition set_fgc (v : VectorXd) (rd : Redis) : Redis :=
  mkRedis (modechange rd) (shotpos rd) (shotangle rd) (v :: fgc rd).

Definition report (vs : list Violation) (s : World) : World :=
  mkWorld (globals s) (locals s) (joint_task s) (posori_task s) (redis s)
          (reports s ++ vs).

(** Other clients of the store write between two iterations. *)
Definition external_writes (inp : TickInput) (rd : Redis) : Redis :=
  let rd := match ext_modechange inp with Some v => set_modechange v rd | None => rd end in
  let rd := match ext_shotpos inp with Some v => set_shotpos v rd | None => rd end in
  match ext_shotangle inp with Some v => set_shotangle v rd | None => rd end.

(** *** The loop body *)

Definition q_init_desired : VectorXd :=
  [0.004; -0.44; 0.315; -1.63; 1.53; 2.15; -0.33].

(** [double t = controller_counter * dt]. *)
Definition seconds (g : Globals) : double := IZR (controller_counter g) * dt.

(** The test that ends [JOINT_CONTROLLER]. *)
Definition reached_joint_goal (inp : TickInput) : bool :=
  lt_d (norm (vminus (in_q inp) q_init_desired)) 0.15.

(** [state == JOINT_CONTROLLER]. *)
Definition joint_controller (inp : TickInput) (s : World) : World :=
  let s := s |> on_joint_task (set_jt_kp 250.0) in
  let s := s |> on_locals (set_joint_task_torques (in_joint_task_torques inp)) in
  let s := s |> on_locals (set_command_torques (joint_task_torques (locals s))) in
  if reached_joint_goal inp then
    let t := 0 in
    let s := s |> on_globals (set_controller_counter 0) in
    let s := s |> on_posori_task
                    (set_po_desired_position
                       (calculatePointInTrajectory (globals s) t)) in
    let s := s |> on_posori_task
                    (set_po_desired_orientation
                       (calculateRotationInTrajectory (globals s) t (psi (locals s)))) in
    let s := s |> on_joint_task (set_jt_kp 300.0)
               |> on_joint_task (set_jt_kv 25.0) in
    let s := s |> on_posori_task (set_po_gains 400.0 25.0 400.0 25.0) in
    s |> on_globals (set_state POSORI_CONTROLLER)
  else s.

(** The test that ends the cycle in [POSORI_CONTROLLER]. *)
Definition reached_final_goal (inp : TickInput) (t : double) (s : World) : bool :=
  robotReachedGoal (toVectorXd (in_x inp))
                   (toVectorXd (calculatePointInTrajectory (globals s) 100))
                   (toVectorXd (in_xdot inp)) (toVectorXd (in_xddot inp))
                   (toVectorXd (in_omega inp)) (toVectorXd (in_alpha inp))
  && gt_d t (t_4 (globals s)).

(** [state == POSORI_CONTROLLER]. *)
Definition posori_controller (inp : TickInput) (t : double) (s : World) : World :=
  let s :=
    if reached_final_goal inp t s then
      s |> on_globals (set_mode WAIT_MODE)
        |> on_redis (set_modechange "wait")
        |> on_globals (set_state JOINT_CONTROLLER)
    else s in
  let s :=
    if gt_d t (t_3 (globals s))
       && lt_d t (t_3 (globals s) + total_time (locals s)) then
      s |> on_globals (set_state JOINT_CONTROLLER_SHOT)
        |> on_globals (set_theta_mid (at_ (in_q inp) (dof - 1)))
    else s in
  let s := s |> on_joint_task (set_jt_use_velocity_saturation_flag true) in
  let s := s |> on_posori_task
                  (set_po_desired_position
                     (calculatePointInTrajectory (globals s) t)) in
  let s := s |> on_posori_task
                  (set_po_desired_orientation
                     (calculateRotationInTrajectory (globals s) t (psi (locals s)))) in
  let s := s |> on_locals (set_posori_task_torques (in_posori_task_torques inp)) in
  let s := s |> on_locals (set_joint_task_torques (in_joint_task_torques inp)) in
  s |> on_locals (set_command_torques
                    (vplus (posori_task_torques (locals s))
                           (joint_task_torques (locals s)))).

(** [state == JOINT_CONTROLLER_SHOT]. *)
Definition joint_controller_shot (inp : TickInput) (t : double) (s : World) : World :=
  let s := s |> on_joint_task (set_jt_kp 400.0) in
  let s :=
    if gt_d t (t_3 (globals s)) && lt_d t (t_4 (globals s)) then
      s |> on_locals (set_command_time 0.0)
    else if le_d (t - t_4 (globals s)) (total_time (locals s)) then
      let s := s |> on_joint_task (set_jt_use_velocity_saturation_flag true) in
      let s :=
        if centershot (globals s) then
          s |> on_joint_task
                 (set_jt_saturation_velocity
                    [M_PI / 3; M_PI / 3; M_PI / 3; M_PI / 3; M_PI / 2; M_PI / 2; 2.33])
        else
          s |> on_joint_task
                 (set_jt_saturation_velocity
                    [M_PI / 3; M_PI / 3; M_PI / 3; M_PI / 3; M_PI / 2; M_PI / 2; 3.0]) in
      s |> on_locals (set_command_time (command_time (locals s) + 1))
    else s in
  let s := s |> on_joint_task (set_jt_kp 250.0) in
  let s := s |> on_locals (set_joint_task_torques (in_joint_task_torques inp)) in
  let s := s |> on_locals (set_command_torques (joint_task_torques (locals s))) in
  if gt_d t (t_4 (globals s) + total_time (locals s)) then
    let s := s |> on_joint_task (set_jt_use_velocity_saturation_flag true) in
    let s := s |> on_globals (set_centershot false) in
    let s := s |> on_posori_task
                    (set_po_desired_position
                       (calculatePointInTrajectory (globals s) t)) in
    let s := s |> on_posori_task
                    (set_po_desired_orientation
                       (calculateRotationInTrajectory (globals s) t (psi (locals s)))) in
    let s := s |> on_joint_task (set_jt_kp 200.0)
               |> on_joint_task (set_jt_kv 20.0) in
    let s := s |> on_posori_task (set_po_gains 200.0 20.0 200.0 20.0) in
    let s := s |> on_joint_task (set_jt_saturation_velocity (Ones (M_PI / 4) dof)) in
    s |> on_globals (set_state POSORI_CONTROLLER)
  else s.

(** [mode == EXECUTE_MODE]. *)
Definition execute_mode (inp : TickInput) (s : World) : World :=
  let t := seconds (globals s) in
  let s :=
    match state (globals s) with
    | JOINT_CONTROLLER => joint_controller inp s
    | POSORI_CONTROLLER => posori_controller inp t s
    | JOINT_CONTROLLER_SHOT => joint_controller_shot inp t s
    | END_SHOT => s
    end in
  let s := s |> report (safetyChecks (in_q inp) (in_dq inp)
                                     (command_torques (locals s)) dof) in
  s |> on_globals (set_controller_counter (incr_ull (controller_counter (globals s)))).

Section Loop.

(** [std::stod]: the number read from the front of the string, [None]
    when it throws. *)
Variable stod : string -> option double.

(** [mode == WAIT_MODE].  An exception of [stod] is not caught: the
    process ends, and the iteration has no next state. *)
Definition wait_mode (inp : TickInput) (s : World) : option World :=
  let s := s |> on_locals (set_joint_task_torques (in_joint_task_torques inp)) in
  let s := s |> on_locals (set_command_torques (joint_task_torques (locals s))) in
  if String.eqb (modechange (redis s)) "execute" then
    let s := s |> on_globals (set_mode EXECUTE_MODE) in
    let shot_pos := shotpos (redis s) in
    let shot_ang := shotangle (redis s) in
    let delimiter := to_int (find shot_pos ",") in
    match stod (substr shot_pos 0 (to_size_t delimiter)),
          stod (substr shot_pos (to_size_t (delimiter + 1))
                       (Z.of_nat (String.length shot_pos))) with
    | Some px, Some py =>
      let s := s |> on_globals
                      (set_cue_start_pos
                         (mkVector4d (0.001 * px) (0.001 * py) 0 1)) in
      match stod shot_ang with
      | Some angle =>
        let s := s |> on_locals (set_psi angle) in
        let s :=
          if le_d (psi (locals s)) 1.571 && ge_d (psi (locals s)) 1.569
          then s |> on_globals (set_centershot true)
          else s in
        let s := s |> on_locals (set_swing_angle (120 * M_PI / 180.0)) in
        let s := s |> on_locals
                        (set_shot_angular_velocity
                           (hit_velocity (locals s) / ee_length)) in
        let s := s |> on_locals (set_a (swing_angle (locals s) / 2.0)) in
        let s := s |> on_locals
                        (set_w (shot_angular_velocity (locals s) / a (locals s))) in
        Some s
      | None => None
      end
    | _, _ => None
    end
  else Some s.

(** One iteration of [while (runloop)]. *)
Definition step (inp : TickInput) (s : World) : option World :=
  let s := s |> on_redis (external_writes inp) in
  match
    match mode (globals s) with
    | WAIT_MODE => wait_mode inp s
    | EXECUTE_MODE => Some (execute_mode inp s)
    end
  with
  | Some s => Some (s |> on_redis (set_fgc (command_torques (locals s))))
  | None => None
  end.

(** The iterations run until [runloop] is found false at the top of the
    loop: one per input. *)
Fixpoint loop (inputs : list TickInput) (s : World) : option World :=
  match inputs with
  | [] => Some s
  | inp :: rest =>
    match step inp s with
    | Some s' => loop rest s'
    | None => None
    end
  end.

(** The worlds found at the top of each iteration, and the last one. *)
Fixpoint trace (inputs : list TickInput) (s : World) : list World :=
  match inputs with
  | [] => [s]
  | inp :: rest =>
    s :: match step inp s with
         | Some s' => trace rest s'
         | None => []
         end
  end.

End Loop.

(** After the loop. *)
Definition shutdown (s : World) : World :=
  let s := s |> on_locals (set_command_torques (setZero (command_torques (locals s)))) in
  s |> on_redis (set_fgc (command_torques (locals s))).

(** What [main] leaves undetermined before the loop: the locals without
    initialiser, and the pose the library gives a new pose task. *)
Record Indeterminate : Type := mkIndeterminate {
  u_hit_velocity : double;
  u_swing_angle : double;
  u_a : double;
  u_w : double;
  u_command_time : double;
  u_desired_position : Vector3d;
  u_desired_orientation : Matrix3d }.

Definition init (u : Indeterminate) (store : Redis) : World :=
  mkWorld
    (mkGlobals WAIT_MODE JOINT_CONTROLLER 0 0 4 8 12 13 (-1.03 + 0.2)
               (mkVector4d 0 0 0 0) false)
    (mkLocals (90 * M_PI / 180.0) (u_hit_velocity u) (u_swing_angle u) 1.3 0
              (u_a u) (u_w u) (u_command_time u)
              (Zero dof) (Zero dof) (Zero dof))
    (mkJointTask 150.0 20.0 true (Ones (M_PI / 3) dof))
    (mkPosOriTask 400.0 25.0 400.0 25.0
                  (u_desired_position u) (u_desired_orientation u))
    store
    [].

Definition main (stod : string -> option double) (u : Indeterminate)
           (store : Redis) (inputs : list TickInput) : option World :=
  option_map shutdown (loop stod inputs (init u store)).

(** The mode and the phase variable together. *)
Definition phase (s : World) : Mode * State :=
  (mode (globals s), state (globals s)).

(** *** The swing of the shot

    [flick_time], [sinusoidal_trajectory] and [sinusoidal_velocity] are
    declared and defined in the file; [main] does not call them. *)

(** [flick_time]: the time it takes to swing. *)
Definition flick_time (swing_angle hit_velocity ee_length : double) : double :=
  let angle_range := swing_angle in
  angle_range * ee_length / hit_velocity.

Definition sinusoidal_trajectory (angular_velocity t theta_mid swing_angle : double)
  : double :=
  let a := swing_angle / 2.0 in
  let w := angular_velocity / a in
  - a * sin (w * t - M_PI / 2.0) + theta_mid.

Definition sinusoidal_velocity (angular_velocity t theta_mid swing_angle : double)
  : double :=
  let a := swing_angle / 2.0 in
  let w := angular_velocity / a in
  - a * w * cos (w * t - M_PI / 2.0).

End Interface.

(** ** The starter variant: [src/panda_starter_code/controller.cpp] *)

Module Starter.

(** The starter variant prints the limit only, one line per violation. *)
Definition safetyChecks (q dq tau : VectorXd) (dof : nat) : list Limit :=
  flat_map (fun i => violated q dq tau i) (seq 0 dof).

Definition epsilon : double := 0.001.

Definition robotReachedGoal (x x_desired xdot xddot omega alpha : VectorXd) : bool :=
  if lt_d (error_norm x x_desired xdot xddot omega alpha) epsilon
  then true else false.

Inductive State : Type :=
| JOINT_CONTROLLER
| POSORI_CONTROLLER
| JOINT_CONTROLLER_SHOT.

Record Globals : Type := mkGlobals {
  mode : Mode;
  state : State;
  controller_counter : Z;
  t_0 : double; t_1 : double; t_2 : double; t_3 : double; t_4 : double }.

Definition ee_length : double := 4.5 * 0.0254.

(** *** Trajectory generator *)

Definition r : double := 20.125 / 2 * 0.0254.
Definition x_offset : double := 0.7.
Definition y_offset : double := 0.
Definition xh : Vector3d := mkVector3d 0.32 0.35 0.7.
Definition xc : Vector3d :=
  mkVector3d (r * sin (- M_PI / 4) + x_offset) (r * cos (- M_PI / 4) + y_offset) 0.5.
Definition xcd : Vector3d :=
  mkVector3d (r * sin (-3 * M_PI / 4) + x_offset)
             (r * cos (-3 * M_PI / 4) + y_offset) 0.5.

Definition arc (g : Globals) (t : double) : Vector3d :=
  let x0 := v_x xc in
  let y0 := v_y xc in
  let xf := v_x xcd in
  let yf := v_y xcd in
  let t0 := atan2 (x0 - x_offset) (y0 - y_offset) in
  let tf := atan2 (xf - x_offset) (yf - y_offset) in
  let old_range := t_2 g - t_1 g in
  let new_range := tf - t0 in
  let new_t := (((t - t_1 g) * new_range) / old_range) + t0 in
  mkVector3d (r * sin new_t + x_offset) (r * cos new_t + y_offset) (v_z xc).

Definition calculatePointInTrajectory (g : Globals) (t : double) : Vector3d :=
  if inRange t (t_0 g) (t_1 g) then
    v3_plus xh (v3_div (v3_scale (v3_minus xc xh) (t - 0)) 5)
  else if inRange t (t_1 g) (t_2 g) then arc g t
  else if inRange t (t_2 g) (t_3 g) then xcd
  else if inRange t (t_3 g) (t_4 g) then xcd
  else xh.

Definition home_orientation : Matrix3d :=
  mkMatrix3d 1 0 0
             0 0 (-1)
             0 1 0.

Definition calculateRotationInTrajectory (g : Globals) (t : double) : Matrix3d :=
  if inRange t (t_0 g) (t_1 g) then home_orientation
  else if inRange t (t_1 g) (t_2 g) then
    m3_mul (rotZ (- M_PI / 2)) home_orientation
  else if inRange t (t_2 g) (t_3 g) then
    let psi := 135 * M_PI / 180.0 in
    m3_mul (rotZ (- M_PI / 2 + psi)) home_orientation
  else if inRange t (t_3 g) (t_4 g) then
    let psi := 135 * M_PI / 180.0 in
    m3_mul (rotZ (- M_PI / 2 + psi)) home_orientation
  else home_orientation.

(** [flick_time]: the time the swing takes. *)
Definition flick_time (start_angle end_angle hit_velocity ee_length : double) : double :=
  let angle_range := Rabs (end_angle - start_angle) in
  angle_range * ee_length / hit_velocity.

(** *** The state of the loop *)

Record Locals : Type := mkLocals {
  hit_velocity : double;
  start_angle : double;
  end_angle : double;
  total_time : double;
  command_torques : VectorXd;
  joint_task_torques : VectorXd;
  posori_task_torques : VectorXd }.

Record JointTask : Type := mkJointTask { jt_kp : double; jt_kv : double }.

Record PosOriTask : Type := mkPosOriTask {
  po_kp_pos : double;
  po_kv_pos : double;
  po_kp_ori : double;
  po_kv_ori : double;
  po_desired_position : Vector3d;
  po_desired_orientation : Matrix3d }.

(** The store: the value under [MODE_CHANGE_KEY], and every value the
    loop wrote under [JOINT_TORQUES_COMMANDED_KEY], most recent first. *)
Record Redis : Type := mkRedis {
  modechange : string;
  fgc : list VectorXd }.

Record World : Type := mkWorld {
  globals : Globals;
  locals : Locals;
  joint_task : JointTask;
  posori_task : PosOriTask;
  redis : Redis;
  reports : list Limit }.

Record TickInput : Type := mkTickInput {
  ext_modechange : option string;
  in_q : VectorXd;
  in_dq : VectorXd;
  in_x : Vector3d;
  in_xdot : Vector3d;
  in_xddot : Vector3d;
  in_omega : Vector3d;
  in_alpha : Vector3d;
  in_joint_task_torques : VectorXd;
  in_posori_task_torques : VectorXd }.

Definition set_mode (v : Mode) (g : Globals) : Globals :=
  mkGlobals v (state g) (controller_counter g) (t_0 g) (t_1 g) (t_2 g) (t_3 g) (t_4 g).
Definition set_state (v : State) (g : Globals) : Globals :=
  mkGlobals (mode g) v (controller_counter g) (t_0 g) (t_1 g) (t_2 g) (t_3 g) (t_4 g).
Definition set_controller_counter (v : Z) (g : Globals) : Globals :=
  mkGlobals (mode g) (state g) v (t_0 g) (t_1 g) (t_2 g) (t_3 g) (t_4 g).

Definition set_command_torques (v : VectorXd) (l : Locals) : Locals :=
  mkLocals (hit_velocity l) (start_angle l) (end_angle l) (total_time l)
           v (joint_task_torques l) (posori_task_torques l).
Definition set_joint_task_torques (v : VectorXd) (l : Locals) : Locals :=
  mkLocals (hit_velocity l) (start_angle l) (end_angle l) (total_time l)
           (command_torques l) v (posori_task_torques l).
Definition set_posori_task_torques (v : VectorXd) (l : Locals) : Locals :=
  mkLocals (hit_velocity l) (start_angle l) (end_angle l) (total_time l)
           (command_torques l) (joint_task_torques l) v.

Definition set_jt_kp (v : double) (j : JointTask) : JointTask :=
  mkJointTask v (jt_kv j).

Definition set_po_desired_position (v : Vector3d) (p : PosOriTask) : PosOriTask :=
  mkPosOriTask (po_kp_pos p) (po_kv_pos p) (po_kp_ori p) (po_kv_ori p)
               v (po_desired_orientation p).
Definition set_po_desired_orientation (v : Matrix3d) (p : PosOriTask) : PosOriTask :=
  mkPosOriTask (po_kp_pos p) (po_kv_pos p) (po_kp_ori p) (po_kv_ori p)
               (po_desired_position p) v.

Definition set_modechange (v : string) (rd : Redis) : Redis :=
  mkRedis v (fgc rd).
Definition set_fgc (v : VectorXd) (rd : Redis) : Redis :=
  mkRedis (modechange rd) (v :: fgc rd).

Definition on_globals (f : Globals -> Globals) (s : World) : World :=
  mkWorld (f (globals s)) (locals s) (joint_task s) (posori_task s) (redis s)
          (reports s).
Definition on_locals (f : Locals -> Locals) (s : World) : World :=
  mkWorld (globals s) (f (locals s)) (joint_task s) (posori_task s) (redis s)
          (reports s).
Definition on_joint_task (f : JointTask -> JointTask) (s : World) : World :=
  mkWorld (globals s) (locals s) (f (joint_task s)) (posori_task s) (redis s)
          (reports s).
Definition on_posori_task (f : PosOriTask -> PosOriTask) (s : World) : World :=
  mkWorld (globals s) (locals s) (joint_task s) (f (posori_task s)) (redis s)
          (reports s).
Definition on_redis (f : Redis -> Redis) (s : World) : World :=
  mkWorld (globals s) (locals s) (joint_task s) (posori_task s) (f (redis s))
          (reports s).
Definition report (vs : list Limit) (s : World) : World :=
  mkWorld (globals s) (locals s) (joint_task s) (posori_task s) (redis s)
          (reports s ++ vs).

Definition external_writes (inp : TickInput) (rd : Redis) : Redis :=
  match ext_modechange inp with Some v => set_modechange v rd | None => rd end.

(** *** The loop body *)

(** [q_init_desired], in radians. *)
Definition q_init_desired : VectorXd :=
  map (fun d => d * (M_PI / 180.0)) [-30.0; -15.0; -15.0; -105.0; 0.0; 90.0; 45.0].

(** [double t = controller_counter * dt]. *)
Definition seconds (g : Globals) : double := IZR (controller_counter g) * dt.

(** The test that ends [JOINT_CONTROLLER]. *)
Definition reached_joint_goal (inp : TickInput) : bool :=
  lt_d (norm (vminus (in_q inp) q_init_desired)) 0.15.

(** [state == JOINT_CONTROLLER]. *)
Definition joint_controller (inp : TickInput) (t : double) (s : World) : World :=
  let s := s |> on_joint_task (set_jt_kp 250.0) in
  let s := s |> on_locals (set_joint_task_torques (in_joint_task_torques inp)) in
  let s := s |> on_locals (set_command_torques (joint_task_torques (locals s))) in
  if reached_joint_goal inp then
    let s := s |> on_posori_task
                    (set_po_desired_position
                       (calculatePointInTrajectory (globals s) t)) in
    let s := s |> on_posori_task
                    (set_po_desired_orientation
                       (calculateRotationInTrajectory (globals s) t)) in
    let s := s |> on_joint_task (set_jt_kp 0) in
    let s := s |> on_globals (set_state POSORI_CONTROLLER) in
    s |> on_globals (set_controller_counter 0)
  else s.

(** The test that ends the cycle in [POSORI_CONTROLLER]. *)
Definition reached_final_goal (inp : TickInput) (t : double) (s : World) : bool :=
  robotReachedGoal (toVectorXd (in_x inp))
                   (toVectorXd (calculatePointInTrajectory (globals s) 100))
                   (toVectorXd (in_xdot inp)) (toVectorXd (in_xddot inp))
                   (toVectorXd (in_omega inp)) (toVectorXd (in_alpha inp))
  && gt_d t (t_4 (globals s)).

(** [state == POSORI_CONTROLLER]. *)
Definition posori_controller (inp : TickInput) (t : double) (s : World) : World :=
  let s :=
    if reached_final_goal inp t s then
      s |> on_globals (set_mode WAIT_MODE)
        |> on_redis (set_modechange "wait")
        |> on_globals (set_state JOINT_CONTROLLER)
    else s in
  let s :=
    if gt_d t (t_3 (globals s))
       && lt_d t (t_3 (globals s) + total_time (locals s)) then
      s |> on_globals (set_state JOINT_CONTROLLER_SHOT)
        |> on_globals (set_controller_counter 0)
    else s in
  let s := s |> on_posori_task
                  (set_po_desired_position
                     (calculatePointInTrajectory (globals s) t)) in
  let s := s |> on_posori_task
                  (set_po_desired_orientation
                     (calculateRotationInTrajectory (globals s) t)) in
  let s := s |> on_locals (set_posori_task_torques (in_posori_task_torques inp)) in
  let s := s |> on_locals (set_joint_task_torques (in_joint_task_torques inp)) in
  s |> on_locals (set_command_torques
                    (vplus (posori_task_torques (locals s))
                           (joint_task_torques (locals s)))).

(** [state == JOINT_CONTROLLER_SHOT]. *)
Definition joint_controller_shot (inp : TickInput) (t : double) (s : World) : World :=
  let s := s |> on_joint_task (set_jt_kp 250.0) in
  let s := s |> on_locals (set_joint_task_torques (in_joint_task_torques inp)) in
  let s := s |> on_locals (set_command_torques (joint_task_torques (locals s))) in
  if gt_d t (t_3 (globals s) + total_time (locals s)) then
    let s := s |> on_posori_task
                    (set_po_desired_position
                       (calculatePointInTrajectory (globals s) t)) in
    let s := s |> on_posori_task
                    (set_po_desired_orientation
                       (calculateRotationInTrajectory (globals s) t)) in
    let s := s |> on_joint_task (set_jt_kp 0) in
    s |> on_globals (set_state POSORI_CONTROLLER)
  else s.

(** [mode == EXECUTE_MODE]: the torques are sent inside the branch. *)
Definition execute_mode (inp : TickInput) (s : World) : World :=
  let t := seconds (globals s) in
  let s :=
    match state (globals s) with
    | JOINT_CONTROLLER => joint_controller inp t s
    | POSORI_CONTROLLER => posori_controller inp t s
    | JOINT_CONTROLLER_SHOT => joint_controller_shot inp t s
    end in
  let s := s |> report (safetyChecks (in_q inp) (in_dq inp)
                                     (command_torques (locals s)) dof) in
  let s := s |> on_redis (set_fgc (command_torques (locals s))) in
  s |> on_globals (set_controller_counter (incr_ull (controller_counter (globals s)))).

(** [mode == WAIT_MODE]: the joint torques are not recomputed, and
    nothing is sent. *)
Definition wait_mode (inp : TickInput) (s : World) : World :=
  let s := s |> on_locals (set_command_torques (joint_task_torques (locals s))) in
  if String.eqb (modechange (redis s)) "execute" then
    s |> on_globals (set_mode EXECUTE_MODE)
  else s.

(** One iteration of [while (runloop)]. *)
Definition step (inp : TickInput) (s : World) : World :=
  let s := s |> on_redis (external_writes inp) in
  match mode (globals s) with
  | WAIT_MODE => wait_mode inp s
  | EXECUTE_MODE => execute_mode inp s
  end.

Fixpoint loop (inputs : list TickInput) (s : World) : World :=
  match inputs with
  | [] => s
  | inp :: rest => loop rest (step inp s)
  end.

(** The worlds found at the top of each iteration, and the last one. *)
Fixpoint trace (inputs : list TickInput) (s : World) : list World :=
  match inputs with
  | [] => [s]
  | inp :: rest => s :: trace rest (step inp s)
  end.

(** After the loop: the torques are zeroed, and not sent. *)
Definition shutdown (s : World) : World :=
  s |> on_locals (set_command_torques (setZero (command_torques (locals s)))).

(** What [main] takes before the loop: the two numbers read from the
    terminal, and the pose the library gives a new pose task. *)
Record Setup : Type := mkSetup {
  u_hit_velocity : double;
  u_start_angle_deg : double;
  u_desired_position : Vector3d;
  u_desired_orientation : Matrix3d }.

Definition init (u : Setup) (store : Redis) : World :=
  let start_angle := u_start_angle_deg u * M_PI / 180.0 in
  let end_angle := start_angle + 180.0 in
  mkWorld
    (mkGlobals WAIT_MODE JOINT_CONTROLLER 0 0 5 10 15 20)
    (mkLocals (u_hit_velocity u) start_angle end_angle
              (flick_time start_angle end_angle (u_hit_velocity u) ee_length)
              (Zero dof) (Zero dof) (Zero dof))
    (mkJointTask 250.0 15.0)
    (mkPosOriTask 200.0 20.0 200.0 20.0
                  (u_desired_position u) (u_desired_orientation u))
    store
    [].

Definition main (u : Setup) (store : Redis) (inputs : list TickInput) : World :=
  shutdown (loop inputs (init u store)).

Definition phase (s : World) : Mode * State :=
  (mode (globals s), state (globals s)).

(** [flick]: the angle of the swing at time [t]; inputs and output in
    radians.  Its call in [main] is commented out. *)
Definition flick (t total_time start_angle end_angle : double) : double :=
  let angle_range := Rabs (end_angle - start_angle) in
  angle_range * t / total_time + start_angle.

End Starter.

(** ** Vocabulary of the properties *)

(** The phase windows are in order. *)
Definition window_ordered (g : Interface.Globals) : Prop :=
  Interface.t_0 g <= Interface.t_1 g /\ Interface.t_1 g <= Interface.t_2 g /\
  Interface.t_2 g <= Interface.t_3 g /\ Interface.t_3 g <= Interface.t_4 g.

(** The globals as the source initialises them. *)
Definition Interface_globals0 : Interface.Globals :=
  Interface.mkGlobals WAIT_MODE Interface.JOINT_CONTROLLER 0 0 4 8 12 13
                      (-1.03 + 0.2) (mkVector4d 0 0 0 0) false.

(** The boundaries and the shot duration have the values the source gives
    them; no iteration changes them. *)
Definition Interface_calibrated (s : Interface.World) : Prop :=
  Interface.t_0 (Interface.globals s) = 0 /\
  Interface.t_1 (Interface.globals s) = 4 /\
  Interface.t_2 (Interface.globals s) = 8 /\
  Interface.t_3 (Interface.globals s) = 12 /\
  Interface.t_4 (Interface.globals s) = 13 /\
  Interface.total_time (Interface.locals s) = 1.3.

(** The goal-reached predicate against the home position, which is the
    last point of the trajectory. *)
Definition Interface_settled_at_home (inp : Interface.TickInput) : bool :=
  Interface.robotReachedGoal
    (toVectorXd (Interface.in_x inp)) (toVectorXd Interface.xh)
    (toVectorXd (Interface.in_xdot inp)) (toVectorXd (Interface.in_xddot inp))
    (toVectorXd (Interface.in_omega inp)) (toVectorXd (Interface.in_alpha inp)).

(** The loop is in mode [m] and state [st] with the tick counter at [c]. *)
Definition Interface_at (m : Mode) (st : Interface.State) (c : Z)
           (s : Interface.World) : Prop :=
  Interface_calibrated s /\
  Interface.mode (Interface.globals s) = m /\
  Interface.state (Interface.globals s) = st /\
  Interface.controller_counter (Interface.globals s) = c.

(** Two worlds with the same boundaries. *)
Definition Interface_same_window (s s' : Interface.World) : Prop :=
  Interface.t_0 (Interface.globals s') = Interface.t_0 (Interface.globals s) /\
  Interface.t_1 (Interface.globals s') = Interface.t_1 (Interface.globals s) /\
  Interface.t_2 (Interface.globals s') = Interface.t_2 (Interface.globals s) /\
  Interface.t_3 (Interface.globals s') = Interface.t_3 (Interface.globals s) /\
  Interface.t_4 (Interface.globals s') = Interface.t_4 (Interface.globals s).

(** The same vocabulary for the starter variant; its shot duration [T] is
    computed from what the operator types. *)
Definition Starter_window_ordered (g : Starter.Globals) : Prop :=
  Starter.t_0 g <= Starter.t_1 g /\ Starter.t_1 g <= Starter.t_2 g /\
  Starter.t_2 g <= Starter.t_3 g /\ Starter.t_3 g <= Starter.t_4 g.

Definition Starter_calibrated (T : double) (s : Starter.World) : Prop :=
  Starter.t_0 (Starter.globals s) = 0 /\
  Starter.t_1 (Starter.globals s) = 5 /\
  Starter.t_2 (Starter.globals s) = 10 /\
  Starter.t_3 (Starter.globals s) = 15 /\
  Starter.t_4 (Starter.globals s) = 20 /\
  Starter.total_time (Starter.locals s) = T.

Definition Starter_settled_at_home (inp : Starter.TickInput) : bool :=
  Starter.robotReachedGoal
    (toVectorXd (Starter.in_x inp)) (toVectorXd Starter.xh)
    (toVectorXd (Starter.in_xdot inp)) (toVectorXd (Starter.in_xddot inp))
    (toVectorXd (Starter.in_omega inp)) (toVectorXd (Starter.in_alpha inp)).

Definition Starter_at (T : double) (m : Mode) (st : Starter.State) (c : Z)
           (s : Starter.World) : Prop :=
  Starter_calibrated T s /\
  Starter.mode (Starter.globals s) = m /\
  Starter.state (Starter.globals s) = st /\
  Starter.controller_counter (Starter.globals s) = c.

Definition Starter_same_window (s s' : Starter.World) : Prop :=
  Starter.t_0 (Starter.globals s') = Starter.t_0 (Starter.globals s) /\
  Starter.t_1 (Starter.globals s') = Starter.t_1 (Starter.globals s) /\
  Starter.t_2 (Starter.globals s') = Starter.t_2 (Starter.globals s) /\
  Starter.t_3 (Starter.globals s') = Starter.t_3 (Starter.globals s) /\
  Starter.t_4 (Starter.globals s') = Starter.t_4 (Starter.globals s).

(** The starter loop never stops by itself: its iteration and its loop as
    functions that always answer. *)
Definition Starter_some_step (inp : Starter.TickInput) (s : Starter.World)
  : option Starter.World := Some (Starter.step inp s).
Definition Starter_some_loop (l : list Starter.TickInput) (s : Starter.World)
  : option Starter.World := Some (Starter.loop l s).

(** ** Sample runs *)

Definition zero3 : Vector3d := mkVector3d 0 0 0.

(** The store as the shot planner leaves it to start a shot. *)
Definition Interface_store0 : Interface.Redis :=
  Interface.mkRedis "execute" "100,50" "1.5708" [].

Definition Interface_u0 : Interface.Indeterminate :=
  Interface.mkIndeterminate 0 0 0 0 0 Interface.xh Interface.home_orientation.

(** An iteration in which nobody writes to the store, the joints are at the
    ready posture and the end effector rests at home. *)
Definition Interface_quiet : Interface.TickInput :=
  Interface.mkTickInput None None None Interface.q_init_desired (Zero dof)
                        Interface.xh zero3 zero3 zero3 zero3 (Zero dof) (Zero dof).

(** The first world of an EXECUTE cycle. *)
Definition Interface_cycle_start : Interface.World :=
  Interface.on_globals (Interface.set_mode EXECUTE_MODE)
                       (Interface.init Interface_u0 Interface_store0).

(** A [stod] that always throws: enough where the loop never calls it. *)
Definition stod_throws (_ : string) : option double := None.

(** The starter variant with a hit velocity that makes the shot last five
    seconds. *)
Definition Starter_u0 : Starter.Setup :=
  Starter.mkSetup (180 * Starter.ee_length / 5) 0 Starter.xh Starter.home_orientation.

Definition Starter_quiet : Starter.TickInput :=
  Starter.mkTickInput None Starter.q_init_desired (Zero dof)
                      Starter.xh zero3 zero3 zero3 zero3 (Zero dof) (Zero dof).

Definition Starter_cycle_start : Starter.World :=
  Starter.on_globals (Starter.set_mode EXECUTE_MODE)
                     (Starter.init Starter_u0 (Starter.mkRedis "execute" [])).

(** The activation token an iteration reads: the value under
    [MODE_CHANGE_KEY] once the other clients have written. *)
Definition Interface_token (inp : Interface.TickInput) (s : Interface.World) : string :=
  Interface.modechange (Interface.external_writes inp (Interface.redis s)).

Definition Starter_token (inp : Starter.TickInput) (s : Starter.World) : string :=
  Starter.modechange (Starter.external_writes inp (Starter.redis s)).

(** The three numbers of the shot can be read from the store: no call of
    [stod] throws. *)
Definition Interface_shot_well_formed (stod : string -> option double)
           (inp : Interface.TickInput) (s : Interface.World) : Prop :=
  let rd := Interface.external_writes inp (Interface.redis s) in
  let shot_pos := Interface.shotpos rd in
  let delimiter := to_int (find shot_pos ",") in
  stod (substr shot_pos 0 (to_size_t delimiter)) <> None /\
  stod (substr shot_pos (to_size_t (delimiter + 1))
               (Z.of_nat (String.length shot_pos))) <> None /\
  stod (Interface.shotangle rd) <> None.

(** The shot parameters an activation captures or derives. *)
Definition Interface_shot_parameters (s : Interface.World)
  : Vector4d * bool * (double * double * double * double * double) :=
  (Interface.cue_start_pos (Interface.globals s),
   Interface.centershot (Interface.globals s),
   (Interface.psi (Interface.locals s),
    Interface.swing_angle (Interface.locals s),
    Interface.shot_angular_velocity (Interface.locals s),
    Interface.a (Interface.locals s),
    Interface.w (Interface.locals s))).

(** The values of [std::stod] on the three strings of the sample shot. *)
Definition stod_sample (s : string) : option double :=
  if String.eqb s "100" then Some 100
  else if String.eqb s "50" then Some 50
  else if String.eqb s "1.5708" then Some 1.5708
  else None.

(** The same iteration, with another write to the activation token. *)
Definition Interface_with_token (v : option string) (inp : Interface.TickInput)
  : Interface.TickInput :=
  Interface.mkTickInput v (Interface.ext_shotpos inp) (Interface.ext_shotangle inp)
                        (Interface.in_q inp) (Interface.in_dq inp)
                        (Interface.in_x inp) (Interface.in_xdot inp)
                        (Interface.in_xddot inp) (Interface.in_omega inp)
                        (Interface.in_alpha inp)
                        (Interface.in_joint_task_torques inp)
                        (Interface.in_posori_task_torques inp).

(** Everything of a world but the activation token in the store. *)
Definition Interface_but_token (s : Interface.World) :=
  (Interface.globals s, Interface.locals s, Interface.joint_task s,
   Interface.posori_task s, Interface.reports s,
   (Interface.shotpos (Interface.redis s), Interface.shotangle (Interface.redis s),
    Interface.fgc (Interface.redis s))).

(** An iteration in which the arm is stretched out and the end effector is at
    the origin: neither goal is reached. *)
Definition Interface_busy : Interface.TickInput :=
  Interface.mkTickInput None None None (Zero dof) (Zero dof)
                        zero3 zero3 zero3 zero3 zero3 (Zero dof) (Zero dof).

(** The start of [main] with the value [hv] in the local [hit_velocity],
    which has no initialiser. *)
Definition Interface_u_hit (hv : double) : Interface.Indeterminate :=
  Interface.mkIndeterminate hv 0 0 0 0 Interface.xh Interface.home_orientation.

(** An iteration of the starter variant off the joint goal, for which the
    library computes a joint torque of 1 N m on every joint. *)
Definition Starter_push : Starter.TickInput :=
  Starter.mkTickInput None (Zero dof) (Zero dof)
                      zero3 zero3 zero3 zero3 zero3 (Ones 1 dof) (Zero dof).

(** ** Continuity of the desired pose *)

(** Distances between two positions and between two orientations: the
    largest difference of a coefficient. *)
Definition v3_dist (p q : Vector3d) : double :=
  Rmax (Rabs (v_x p - v_x q)) (Rmax (Rabs (v_y p - v_y q)) (Rabs (v_z p - v_z q))).

Definition m3_dist (p q : Matrix3d) : double :=
  Rmax (Rabs (m00 p - m00 q))
  (Rmax (Rabs (m01 p - m01 q))
  (Rmax (Rabs (m02 p - m02 q))
  (Rmax (Rabs (m10 p - m10 q))
  (Rmax (Rabs (m11 p - m11 q))
  (Rmax (Rabs (m12 p - m12 q))
  (Rmax (Rabs (m20 p - m20 q))
  (Rmax (Rabs (m21 p - m21 q)) (Rabs (m22 p - m22 q))))))))).

(** [f t] tends to [L] as [t] tends to [b] from below. *)
Definition left_limit {A : Type} (dist : A -> A -> double) (f : double -> A)
           (b : double) (L : A) : Prop :=
  forall eps : double,
    eps > 0 ->
    exists delta : double,
      delta > 0 /\ forall t : double, b - delta < t < b -> dist (f t) L < eps.

(** The boundaries as the source initialises them. *)
Definition Interface_window_initial (g : Interface.Globals) : Prop :=
  Interface.t_0 g = 0 /\ Interface.t_1 g = 4 /\ Interface.t_2 g = 8 /\
  Interface.t_3 g = 12 /\ Interface.t_4 g = 13.

(** A drop-off position as the activation writes it, lying on the circle of
    the board. *)
Definition on_board_circle (cue : Vector4d) : Prop :=
  c_0 cue * c_0 cue + c_1 cue * c_1 cue = Interface.r * Interface.r /\
  c_2 cue = 0 /\ c_3 cue = 1.

(** The globals of the source with the drop-off position [cue]. *)
Definition Interface_globals_with_cue (cue : Vector4d) : Interface.Globals :=
  Interface.set_cue_start_pos cue Interface_globals0.

(** A drop-off position 100 mm from the centre of the board (the shot
    position "-100,0"), and one on the circle of the board. *)
Definition Interface_globals_inside : Interface.Globals :=
  Interface_globals_with_cue (mkVector4d (-0.1) 0 0 1).

Definition Interface_globals_on_circle : Interface.Globals :=
  Interface_globals_with_cue (mkVector4d (- Interface.r) 0 0 1).

(** What holds of every world of a run of the interface variant: the
    counter is a 64-bit number, the loop waits in JOINT_CONTROLLER only, and
    each of the other states has its range of tick counts. *)
Definition Interface_run_invariant (s : Interface.World) : Prop :=
  Interface_calibrated s /\
  (0 <= Interface.controller_counter (Interface.globals s) < ULLONG_MODULUS)%Z /\
  match Interface.state (Interface.globals s) with
  | Interface.JOINT_CONTROLLER => True
  | Interface.POSORI_CONTROLLER =>
    Interface.mode (Interface.globals s) = EXECUTE_MODE /\
    ((Interface.controller_counter (Interface.globals s) <= 12001)%Z \/
     (14302 <= Interface.controller_counter (Interface.globals s))%Z)
  | Interface.JOINT_CONTROLLER_SHOT =>
    Interface.mode (Interface.globals s) = EXECUTE_MODE /\
    (12002 <= Interface.controller_counter (Interface.globals s) <= 14301)%Z
  | Interface.END_SHOT => False
  end.

(** The shot duration the starter variant computes at start-up. *)
Definition Starter_shot_duration (u : Starter.Setup) : double :=
  Starter.total_time (Starter.locals (Starter.init u (Starter.mkRedis "" []))).

(** The same for the starter variant, whose shot lasts [T]. *)
Definition Starter_run_invariant (T : double) (s : Starter.World) : Prop :=
  Starter_calibrated T s /\
  (0 <= Starter.controller_counter (Starter.globals s) < ULLONG_MODULUS)%Z /\
  match Starter.state (Starter.globals s) with
  | Starter.JOINT_CONTROLLER => True
  | Starter.POSORI_CONTROLLER =>
    Starter.mode (Starter.globals s) = EXECUTE_MODE /\
    ((Starter.controller_counter (Starter.globals s) <= 15001)%Z \/
     IZR (Starter.controller_counter (Starter.globals s)) * dt > 15 + T)
  | Starter.JOINT_CONTROLLER_SHOT =>
    Starter.mode (Starter.globals s) = EXECUTE_MODE
  end.

(** ** Rotation matrices *)

Definition m3_transpose (a : Matrix3d) : Matrix3d :=
  mkMatrix3d (m00 a) (m10 a) (m20 a)
             (m01 a) (m11 a) (m21 a)
             (m02 a) (m12 a) (m22 a).

Definition m3_identity : Matrix3d := mkMatrix3d 1 0 0 0 1 0 0 0 1.

Definition m3_det (a : Matrix3d) : double :=
  m00 a * (m11 a * m22 a - m12 a * m21 a)
  - m01 a * (m10 a * m22 a - m12 a * m20 a)
  + m02 a * (m10 a * m21 a - m11 a * m20 a).

(** The point lies on the circle of the board, whose centre is at
    ([cx], [cy]) and whose radius is [rad], at the height [z]. *)
Definition on_circle (cx cy rad z : double) (p : Vector3d) : Prop :=
  (v_x p - cx) * (v_x p - cx) + (v_y p - cy) * (v_y p - cy) = rad * rad /\
  v_z p = z.

(** ** The strings of the shot *)

(** The string has no comma. *)
Definition no_comma (p : string) : Prop := index 0 "," p = None.

(** The store with the activation token and a shot written as [pos] and
    [ang]. *)
Definition Interface_store_shot (pos ang : string) : Interface.Redis :=
  Interface.mkRedis "execute" pos ang [].

(** ** What an iteration sends *)

(** The torque an iteration in EXECUTE commands, from what the library
    computes in that iteration: the joint task alone, or the sum of both
    tasks in [POSORI_CONTROLLER]. *)
Definition Interface_commanded (inp : Interface.TickInput) (s : Interface.World)
  : VectorXd :=
  match Interface.state (Interface.globals s) with
  | Interface.JOINT_CONTROLLER => Interface.in_joint_task_torques inp
  | Interface.POSORI_CONTROLLER =>
    vplus (Interface.in_posori_task_torques inp) (Interface.in_joint_task_torques inp)
  | Interface.JOINT_CONTROLLER_SHOT => Interface.in_joint_task_torques inp
  | Interface.END_SHOT => Interface.command_torques (Interface.locals s)
  end.

Definition Starter_commanded (inp : Starter.TickInput) (s : Starter.World)
  : VectorXd :=
  match Starter.state (Starter.globals s) with
  | Starter.JOINT_CONTROLLER => Starter.in_joint_task_torques inp
  | Starter.POSORI_CONTROLLER =>
    vplus (Starter.in_posori_task_torques inp) (Starter.in_joint_task_torques inp)
  | Starter.JOINT_CONTROLLER_SHOT => Starter.in_joint_task_torques inp
  end.

(** No other client writes the activation token before these iterations. *)
Definition Interface_token_untouched (inputs : list Interface.TickInput) : Prop :=
  Forall (fun inp => Interface.ext_modechange inp = None) inputs.

Definition Starter_token_untouched (inputs : list Starter.TickInput) : Prop :=
  Forall (fun inp => Starter.ext_modechange inp = None) inputs.

(** An iteration for which the library computes a joint torque of 100 N m on
    every joint, above every torque limit. *)
Definition Interface_overload : Interface.TickInput :=
  Interface.mkTickInput None None None (Zero dof) (Zero dof)
                        zero3 zero3 zero3 zero3 zero3 (Ones 100 dof) (Zero dof).

(** ** Invariants of a run *)

(** The test the activation makes on the strike angle: a centre shot. *)
Definition is_centershot (psi : double) : Prop := 1.569 <= psi <= 1.571.

(** What holds of the centre-shot flag in every world of a run: it is
    down while the loop waits, and in the return. *)
Definition Interface_centershot_invariant (s : Interface.World) : Prop :=
  Interface_run_invariant s /\
  (Interface.mode (Interface.globals s) = WAIT_MODE ->
   Interface.centershot (Interface.globals s) = false) /\
  (Interface.state (Interface.globals s) = Interface.POSORI_CONTROLLER ->
   (14302 <= Interface.controller_counter (Interface.globals s))%Z ->
   Interface.centershot (Interface.globals s) = false).

(** What holds of every world of a run of the starter variant whose shot
    duration is at most one tick: the shot state is never entered. *)
Definition Starter_no_shot_invariant (T : double) (s : Starter.World) : Prop :=
  Starter_calibrated T s /\
  Starter.state (Starter.globals s) <> Starter.JOINT_CONTROLLER_SHOT.

(** The starter variant started with the hit velocity [hv] and the start
    angle [deg] typed at the terminal. *)
Definition Starter_setup (hv deg : double) : Starter.Setup :=
  Starter.mkSetup hv deg Starter.xh Starter.home_orientation.

(** The boundaries as the starter variant initialises them. *)
Definition Starter_window_initial (g : Starter.Globals) : Prop :=
  Starter.t_0 g = 0 /\ Starter.t_1 g = 5 /\ Starter.t_2 g = 10 /\
  Starter.t_3 g = 15 /\ Starter.t_4 g = 20.

(** The globals of the starter variant as the source initialises them. *)
Definition Starter_globals0 : Starter.Globals :=
  Starter.mkGlobals WAIT_MODE Starter.JOINT_CONTROLLER 0 0 5 10 15 20.

(** ** The locals the loop only writes *)

(** A world with the locals [hit_velocity], [swing_angle],
    [shot_angular_velocity], [a], [w] and [command_time] blanked. *)
Definition Interface_forget_swing (s : Interface.World) : Interface.World :=
  Interface.on_locals
    (fun l =>
       Interface.mkLocals (Interface.psi l) 0 0 (Interface.total_time l) 0 0 0 0
                          (Interface.command_torques l)
                          (Interface.joint_task_torques l)
                          (Interface.posori_task_torques l))
    s.

(** * Properties *)

(** ** Comparisons *)

Lemma lt_d_true (x y : double) : lt_d x y = true <-> x < y.
Proof. unfold lt_d; destruct (Rlt_dec x y); split; intros; auto; discriminate. Qed.

Lemma lt_d_false (x y : double) : lt_d x y = false <-> y <= x.
Proof.
  unfold lt_d; destruct (Rlt_dec x y); split; intros; auto; try discriminate; lra.
Qed.

Lemma gt_d_true (x y : double) : gt_d x y = true <-> x > y.
Proof. unfold gt_d; rewrite lt_d_true; reflexivity. Qed.

Lemma gt_d_false (x y : double) : gt_d x y = false <-> x <= y.
Proof. unfold gt_d; rewrite lt_d_false; reflexivity. Qed.

Lemma le_d_true (x y : double) : le_d x y = true <-> x <= y.
Proof. unfold le_d; destruct (Rle_dec x y); split; intros; auto; discriminate. Qed.

Lemma le_d_false (x y : double) : le_d x y = false <-> y < x.
Proof.
  unfold le_d; destruct (Rle_dec x y); split; intros; auto; try discriminate; lra.
Qed.

Lemma ge_d_true (x y : double) : ge_d x y = true <-> x >= y.
Proof. unfold ge_d; rewrite le_d_true; split; lra. Qed.

Lemma ge_d_false (x y : double) : ge_d x y = false <-> x < y.
Proof. unfold ge_d; rewrite le_d_false; reflexivity. Qed.

(** Turns the boolean comparisons among the hypotheses into inequalities. *)
Ltac cmp_prop :=
  repeat match goal with
         | H : lt_d _ _ = true |- _ => apply lt_d_true in H
         | H : lt_d _ _ = false |- _ => apply lt_d_false in H
         | H : gt_d _ _ = true |- _ => apply gt_d_true in H
         | H : gt_d _ _ = false |- _ => apply gt_d_false in H
         | H : le_d _ _ = true |- _ => apply le_d_true in H
         | H : le_d _ _ = false |- _ => apply le_d_false in H
         | H : ge_d _ _ = true |- _ => apply ge_d_true in H
         | H : ge_d _ _ = false |- _ => apply ge_d_false in H
         end.

(** Splits on every comparison the goal tests. *)
Ltac cmp_cases :=
  repeat match goal with
         | |- context [lt_d ?x ?y] => destruct (lt_d x y) eqn:?
         | |- context [gt_d ?x ?y] => destruct (gt_d x y) eqn:?
         | |- context [le_d ?x ?y] => destruct (le_d x y) eqn:?
         | |- context [ge_d ?x ?y] => destruct (ge_d x y) eqn:?
         end;
  cmp_prop.

Lemma inRange_true (t lower upper : double) :
  inRange t lower upper = true <-> lower <= t < upper.
Proof.
  unfold inRange; rewrite andb_true_iff, lt_d_true, ge_d_true; split; lra.
Qed.

Lemma inRange_false (t lower upper : double) :
  inRange t lower upper = false <-> t < lower \/ upper <= t.
Proof.
  unfold inRange; rewrite andb_false_iff, lt_d_false, ge_d_false; split; lra.
Qed.

Lemma inRange_below (t lower upper : double) :
  t < lower -> inRange t lower upper = false.
Proof. intros; apply inRange_false; lra. Qed.

Lemma inRange_above (t lower upper : double) :
  upper <= t -> inRange t lower upper = false.
Proof. intros; apply inRange_false; lra. Qed.

(** ** Goal-reached predicate *)

Lemma norm_Zero3 : norm [0; 0; 0] = 0.
Proof.
  unfold norm, squaredNorm; simpl.
  replace (0 * 0 + (0 * 0 + (0 * 0 + 0))) with 0 by ring.
  apply sqrt_0.
Qed.

(** C2.  In both variants [robotReachedGoal] answers true exactly when
    100*|xdot| + 10*|x - x_desired| + 1000*|xddot| + 1000*|omega| +
    1000*|alpha| is strictly below the variant's epsilon, which is 3 in the
    interface variant and 0.001 in the starter variant: a factor of 3000. *)
Theorem robotReachedGoal_iff_error_below_epsilon :
  forall x x_desired xdot xddot omega alpha : VectorXd,
    List.length x = List.length x_desired ->
    (Interface.robotReachedGoal x x_desired xdot xddot omega alpha = true <->
     100 * norm xdot + 10 * norm (vminus x x_desired) + 1000 * norm xddot +
     1000 * norm omega + 1000 * norm alpha < Interface.epsilon) /\
    (Starter.robotReachedGoal x x_desired xdot xddot omega alpha = true <->
     100 * norm xdot + 10 * norm (vminus x x_desired) + 1000 * norm xddot +
     1000 * norm omega + 1000 * norm alpha < Starter.epsilon) /\
    Interface.epsilon = 3 /\
    Starter.epsilon = 0.001 /\
    Interface.epsilon = 3000 * Starter.epsilon.
Proof.
  intros x x_desired xdot xddot omega alpha _.
  unfold Interface.robotReachedGoal, Starter.robotReachedGoal, error_norm.
  repeat split; try (unfold Interface.epsilon, Starter.epsilon; lra).
  - destruct (lt_d _ _) eqn:E; [cmp_prop; auto | discriminate].
  - intros H; apply lt_d_true in H; rewrite H; reflexivity.
  - destruct (lt_d _ _) eqn:E; [cmp_prop; auto | discriminate].
  - intros H; apply lt_d_true in H; rewrite H; reflexivity.
Qed.

(** A robot at rest on its target is at the goal for both variants. *)
Lemma robotReachedGoal_at_rest :
  Interface.robotReachedGoal [0; 0; 0] [0; 0; 0] [0; 0; 0] [0; 0; 0] [0; 0; 0] [0; 0; 0] = true /\
  Starter.robotReachedGoal [0; 0; 0] [0; 0; 0] [0; 0; 0] [0; 0; 0] [0; 0; 0] [0; 0; 0] = true.
Proof.
  pose proof (robotReachedGoal_iff_error_below_epsilon
                [0; 0; 0] [0; 0; 0] [0; 0; 0] [0; 0; 0] [0; 0; 0] [0; 0; 0] eq_refl)
    as [HI [HS _]].
  assert (Hm : vminus [0; 0; 0] [0; 0; 0] = [0; 0; 0])
    by (simpl; repeat f_equal; ring).
  rewrite Hm, norm_Zero3 in HI, HS.
  split; [apply HI | apply HS];
    unfold Interface.epsilon, Starter.epsilon; lra.
Defined.

(** ** Safety monitor *)

Lemma in_violated (q dq tau : VectorXd) (i : nat) (l : Limit) :
  In l (violated q dq tau i) <-> exceeds q dq tau i l.
Proof.
  unfold violated.
  rewrite !in_app_iff.
  cmp_cases; destruct l; simpl; intuition (try discriminate; try lra).
Qed.

Lemma violated_within_limits (q dq tau : VectorXd) (i : nat) :
  within_limits q dq tau i -> violated q dq tau i = [].
Proof.
  intros [[Hmin Hmax] [Hdq Htau]].
  unfold violated; cmp_cases; simpl; try reflexivity; lra.
Qed.

Lemma violated_max_position_only (q dq tau : VectorXd) (i : nat) :
  at_ q i > at_ joint_position_max i ->
  at_ joint_position_min i <= at_ q i ->
  Rabs (at_ dq i) <= at_ joint_velocity_limits i ->
  Rabs (at_ tau i) <= at_ joint_torques_limits i ->
  violated q dq tau i = [MAX_JOINT_POSITION].
Proof.
  intros Hmax Hmin Hdq Htau.
  unfold violated; cmp_cases; simpl; try reflexivity; lra.
Qed.

(** Every joint has its lower position limit below the upper one. *)
Lemma position_limits_ordered (i : nat) :
  (i < 7)%nat -> at_ joint_position_min i < at_ joint_position_max i.
Proof.
  intros Hi.
  do 7 (destruct i as [|i];
        [unfold at_, joint_position_min, joint_position_max; simpl; lra|]).
  lia.
Qed.

(** A loop that reports at one index only. *)
Lemma flat_map_single {A : Type} (f : nat -> list A) (x : A) (j : nat) :
  forall n a,
    (a <= j < a + n)%nat ->
    f j = [x] ->
    (forall i, (a <= i < a + n)%nat -> i <> j -> f i = []) ->
    flat_map f (seq a n) = [x].
Proof.
  induction n as [|n IH]; intros a0 Hj Hfj Hnil; [lia|].
  simpl.
  destruct (Nat.eq_dec a0 j) as [->|Hne].
  - rewrite Hfj. simpl. f_equal.
    clear IH Hfj Hj.
    assert (Hall : forall i, In i (seq (S j) n) -> f i = []).
    { intros i Hi. apply in_seq in Hi. apply Hnil; lia. }
    induction (seq (S j) n) as [|b l IHl]; [reflexivity|].
    simpl. rewrite (Hall b) by (left; reflexivity).
    apply IHl. intros i Hi. apply Hall. right; exact Hi.
  - rewrite (Hnil a0) by lia. simpl.
    apply IH; [lia | exact Hfj | intros i Hi Hij; apply Hnil; lia].
Qed.

Lemma Starter_safetyChecks_limits (q dq tau : VectorXd) (n : nat) :
  Starter.safetyChecks q dq tau n =
  map Interface.v_limit (Interface.safetyChecks q dq tau n).
Proof.
  unfold Starter.safetyChecks, Interface.safetyChecks.
  induction (seq 0 n) as [|i l IH]; [reflexivity|].
  simpl. rewrite map_app, map_map, IH. simpl. rewrite map_id. reflexivity.
Qed.

Lemma in_Interface_safetyChecks (q dq tau : VectorXd) (n i : nat) (l : Limit) :
  In (Interface.mkViolation l (i + 1)) (Interface.safetyChecks q dq tau n) <->
  (i < n)%nat /\ exceeds q dq tau i l.
Proof.
  unfold Interface.safetyChecks.
  rewrite in_flat_map. split.
  - intros [k [Hk Hin]].
    apply in_seq in Hk. apply in_map_iff in Hin.
    destruct Hin as [l' [Heq Hl']].
    injection Heq as Hl Hj.
    assert (k = i) by lia. subst k l'.
    split; [lia | apply in_violated; exact Hl'].
  - intros [Hi He].
    exists i. split; [apply in_seq; lia|].
    apply in_map_iff. exists l. split; [reflexivity | apply in_violated; exact He].
Qed.

(** C8.  [safetyChecks] reports joint [i] for a limit exactly when the
    value strictly exceeds the maximum position, is strictly below the
    minimum position, or has an absolute value strictly above the velocity
    or torque limit; a joint within its limits, boundary values included, is
    not reported; the starter variant prints the same reports without the
    joint number.  When one joint position is 0.01 rad above its maximum
    and everything else is within limits, the report is that joint's
    maximum-position violation and nothing else. *)
Theorem safetyChecks_reports_strict_violations :
  forall (q dq tau : VectorXd) (n : nat),
    (n <= 7)%nat ->
    List.length q = n -> List.length dq = n -> List.length tau = n ->
    (forall i l,
        In (Interface.mkViolation l (i + 1)) (Interface.safetyChecks q dq tau n) <->
        (i < n)%nat /\ exceeds q dq tau i l) /\
    Starter.safetyChecks q dq tau n =
    map Interface.v_limit (Interface.safetyChecks q dq tau n) /\
    (forall i l,
        within_limits q dq tau i ->
        ~ In (Interface.mkViolation l (i + 1)) (Interface.safetyChecks q dq tau n)) /\
    (forall j,
        (j < n)%nat ->
        at_ q j = at_ joint_position_max j + 0.01 ->
        (forall i, (i < n)%nat -> i <> j ->
                   at_ joint_position_min i <= at_ q i <= at_ joint_position_max i) ->
        (forall i, (i < n)%nat ->
                   Rabs (at_ dq i) <= at_ joint_velocity_limits i /\
                   Rabs (at_ tau i) <= at_ joint_torques_limits i) ->
        Interface.safetyChecks q dq tau n =
        [Interface.mkViolation MAX_JOINT_POSITION (j + 1)] /\
        Starter.safetyChecks q dq tau n = [MAX_JOINT_POSITION]).
Proof.
  intros q dq tau n Hn _ _ _.
  split; [intros i l; apply in_Interface_safetyChecks|].
  split; [apply Starter_safetyChecks_limits|].
  split.
  - intros i l Hw Hin.
    apply in_Interface_safetyChecks in Hin. destruct Hin as [_ He].
    apply in_violated in He.
    rewrite (violated_within_limits _ _ _ _ Hw) in He. exact He.
  - intros j Hj Hq Hpos Hrest.
    assert (HI : Interface.safetyChecks q dq tau n =
                 [Interface.mkViolation MAX_JOINT_POSITION (j + 1)]).
    { unfold Interface.safetyChecks.
      apply flat_map_single with (j := j); [lia | |].
      - pose proof (position_limits_ordered j ltac:(lia)) as Hord.
        destruct (Hrest j Hj) as [Hdq Htau].
        rewrite (violated_max_position_only q dq tau j); [reflexivity | | | |]; lra.
      - intros i Hi Hij.
        destruct (Hrest i ltac:(lia)) as [Hdq Htau].
        rewrite violated_within_limits; [reflexivity|].
        split; [apply Hpos; [lia | exact Hij] | split; assumption]. }
    split; [exact HI|].
    rewrite Starter_safetyChecks_limits, HI. reflexivity.
Qed.

(** The snapshot of the scenario: joint 2 is 0.01 rad above its maximum of
    1.6 rad, the robot is otherwise still and unloaded. *)
Lemma safetyChecks_joint2_above_max :
  Interface.safetyChecks [0; 1.61; 0; -1; 0; 1; 0] (Zero 7) (Zero 7) 7 =
  [Interface.mkViolation MAX_JOINT_POSITION 2] /\
  Starter.safetyChecks [0; 1.61; 0; -1; 0; 1; 0] (Zero 7) (Zero 7) 7 =
  [MAX_JOINT_POSITION].
Proof.
  pose proof (safetyChecks_reports_strict_violations
                [0; 1.61; 0; -1; 0; 1; 0] (Zero 7) (Zero 7) 7%nat
                (le_n 7) eq_refl eq_refl eq_refl) as [_ [_ [_ H]]].
  apply (H 1%nat).
  - lia.
  - unfold at_, joint_position_max; simpl; lra.
  - intros i Hi Hij.
    do 7 (destruct i as [|i];
          [unfold at_, joint_position_min, joint_position_max; simpl;
           try lra; try (exfalso; apply Hij; reflexivity)|]).
    lia.
  - intros i Hi.
    do 7 (destruct i as [|i];
          [unfold at_, joint_velocity_limits, joint_torques_limits, Zero; simpl;
           rewrite Rabs_R0; lra|]).
    lia.
Defined.

(** ** Trajectory generator outside the windows *)

Lemma Interface_point_outside_windows (g : Interface.Globals) (t : double) :
  window_ordered g ->
  t < Interface.t_0 g \/ t >= Interface.t_4 g ->
  Interface.calculatePointInTrajectory g t = Interface.xh.
Proof.
  intros (H01 & H12 & H23 & H34) Ht.
  unfold Interface.calculatePointInTrajectory.
  destruct Ht as [Ht | Ht].
  - rewrite !inRange_below by lra. reflexivity.
  - rewrite !inRange_above by lra. reflexivity.
Qed.

Lemma Interface_rotation_outside_windows (g : Interface.Globals) (t psi : double) :
  window_ordered g ->
  t < Interface.t_0 g \/ t >= Interface.t_4 g ->
  Interface.calculateRotationInTrajectory g t psi = Interface.home_orientation.
Proof.
  intros (H01 & H12 & H23 & H34) Ht.
  unfold Interface.calculateRotationInTrajectory.
  destruct Ht as [Ht | Ht].
  - rewrite !inRange_below by lra. reflexivity.
  - rewrite !inRange_above by lra. reflexivity.
Qed.

(** C9.  For a time before [t_0] or from [t_4] on, and for every strike
    angle, the desired position is the home position [xh] and the desired
    orientation is the home orientation. *)
Theorem trajectory_outside_windows_is_home :
  forall (g : Interface.Globals) (t psi : double),
    window_ordered g ->
    t < Interface.t_0 g \/ t >= Interface.t_4 g ->
    Interface.calculatePointInTrajectory g t = Interface.xh /\
    Interface.calculateRotationInTrajectory g t psi = Interface.home_orientation.
Proof.
  intros g t psi Hw Ht. split.
  - apply Interface_point_outside_windows; assumption.
  - apply Interface_rotation_outside_windows; assumption.
Qed.

(** With the windows of the source: one second before the start, and at
    [t = 100], the time the loop asks the final goal for. *)
Lemma trajectory_at_minus_1_and_100 :
  (Interface.calculatePointInTrajectory Interface_globals0 (-1) = Interface.xh /\
   Interface.calculateRotationInTrajectory Interface_globals0 (-1) (PI / 2) =
   Interface.home_orientation) /\
  (Interface.calculatePointInTrajectory Interface_globals0 100 = Interface.xh /\
   Interface.calculateRotationInTrajectory Interface_globals0 100 (PI / 2) =
   Interface.home_orientation).
Proof.
  assert (Hw : window_ordered Interface_globals0)
    by (unfold window_ordered, Interface_globals0; simpl; lra).
  split.
  - apply (trajectory_outside_windows_is_home Interface_globals0 (-1) (PI / 2) Hw).
    left; simpl; lra.
  - apply (trajectory_outside_windows_is_home Interface_globals0 100 (PI / 2) Hw).
    right; simpl; lra.
Defined.

(** ** The Mode Supervisor *)

Section InterfaceWait.

Variable stod : string -> option double.
Variable inp : Interface.TickInput.
Variable s : Interface.World.
Hypothesis Hwait : Interface.mode (Interface.globals s) = WAIT_MODE.

Lemma Interface_wait_idle :
  String.eqb (Interface_token inp s) "execute" = false ->
  exists s',
    Interface.step stod inp s = Some s' /\
    Interface.globals s' = Interface.globals s /\
    Interface_shot_parameters s' = Interface_shot_parameters s.
Proof.
  intros Htok. unfold Interface_token in Htok.
  unfold Interface.step, Interface.wait_mode. cbn. rewrite Hwait. cbn.
  rewrite Htok. eexists. split; [reflexivity|].
  cbn. split; reflexivity.
Qed.

Lemma Interface_wait_activate (s' : Interface.World) :
  String.eqb (Interface_token inp s) "execute" = true ->
  Interface.step stod inp s = Some s' ->
  Interface.phase s' = (EXECUTE_MODE, Interface.state (Interface.globals s)) /\
  Interface_same_window s s' /\
  Interface.total_time (Interface.locals s') = Interface.total_time (Interface.locals s) /\
  Interface.hit_velocity (Interface.locals s') = Interface.hit_velocity (Interface.locals s) /\
  Interface.swing_angle (Interface.locals s') = 120 * M_PI / 180.0 /\
  Interface.shot_angular_velocity (Interface.locals s') =
  Interface.hit_velocity (Interface.locals s) / Interface.ee_length /\
  Interface.a (Interface.locals s') = Interface.swing_angle (Interface.locals s') / 2.0 /\
  Interface.w (Interface.locals s') =
  Interface.shot_angular_velocity (Interface.locals s') / Interface.a (Interface.locals s').
Proof.
  intros Htok. unfold Interface_token in Htok.
  unfold Interface.step, Interface.wait_mode. cbn. rewrite Hwait. cbn.
  rewrite Htok.
  destruct (stod _) as [px|]; [|discriminate].
  destruct (stod _) as [py|]; [|discriminate].
  destruct (stod _) as [angle|]; [|discriminate].
  cbn. intros H. injection H as <-.
  unfold Interface_same_window, Interface.phase.
  destruct (le_d angle 1.571 && ge_d angle 1.569); cbn; repeat split; reflexivity.
Qed.

Lemma Interface_wait_activate_total :
  String.eqb (Interface_token inp s) "execute" = true ->
  Interface_shot_well_formed stod inp s ->
  exists s', Interface.step stod inp s = Some s'.
Proof.
  intros Htok (H1 & H2 & H3). unfold Interface_token in Htok.
  unfold Interface.step, Interface.wait_mode. cbn. rewrite Hwait. cbn.
  rewrite Htok. cbn in H1, H2, H3.
  destruct (stod _) as [px|]; [|contradiction].
  destruct (stod _) as [py|]; [|contradiction].
  destruct (stod _) as [angle|]; [|contradiction].
  eexists. reflexivity.
Qed.

End InterfaceWait.

Lemma Starter_wait_step (inp : Starter.TickInput) (s : Starter.World) :
  Starter.mode (Starter.globals s) = WAIT_MODE ->
  Starter.globals (Starter.step inp s) =
  if String.eqb (Starter_token inp s) "execute"
  then Starter.set_mode EXECUTE_MODE (Starter.globals s)
  else Starter.globals s.
Proof.
  intros Hwait. unfold Starter_token.
  unfold Starter.step, Starter.wait_mode. cbn. rewrite Hwait. cbn.
  destruct (String.eqb _ _); reflexivity.
Qed.

(** C5.  While the mode is WAIT, a token other than "execute" leaves the
    mode at WAIT and the shot parameters as they were; the token "execute"
    (with shot strings that [stod] reads) takes the mode to EXECUTE; and an
    iteration that ends has taken the mode to EXECUTE exactly when the token
    it read is "execute".  The starter variant reads no shot parameter and
    goes to EXECUTE exactly on "execute".  The tokens "Execute",
    "executing", the empty string and "wait" are not "execute". *)
Theorem wait_to_execute_only_on_execute_token :
  (forall (stod : string -> option double) (inp : Interface.TickInput)
          (s : Interface.World),
      Interface.mode (Interface.globals s) = WAIT_MODE ->
      (Interface_token inp s <> "execute"%string ->
       exists s',
         Interface.step stod inp s = Some s' /\
         Interface.mode (Interface.globals s') = WAIT_MODE /\
         Interface_shot_parameters s' = Interface_shot_parameters s) /\
      (Interface_token inp s = "execute"%string ->
       Interface_shot_well_formed stod inp s ->
       exists s',
         Interface.step stod inp s = Some s' /\
         Interface.mode (Interface.globals s') = EXECUTE_MODE) /\
      (forall s',
          Interface.step stod inp s = Some s' ->
          (Interface.mode (Interface.globals s') = EXECUTE_MODE <->
           Interface_token inp s = "execute"%string))) /\
  (forall (inp : Starter.TickInput) (s : Starter.World),
      Starter.mode (Starter.globals s) = WAIT_MODE ->
      (Starter.mode (Starter.globals (Starter.step inp s)) = EXECUTE_MODE <->
       Starter_token inp s = "execute"%string)) /\
  (forall v, In v ["Execute"; "executing"; ""; "wait"]%string -> v <> "execute"%string).
Proof.
  split; [|split].
  - intros stod inp s Hwait. split; [|split].
    + intros Hne. apply String.eqb_neq in Hne.
      destruct (Interface_wait_idle stod inp s Hwait Hne) as (s' & Hstep & Hg & Hp).
      exists s'. split; [exact Hstep|]. split; [rewrite Hg; exact Hwait | exact Hp].
    + intros Heq Hwf. apply String.eqb_eq in Heq.
      destruct (Interface_wait_activate_total stod inp s Hwait Heq Hwf) as (s' & Hstep).
      exists s'. split; [exact Hstep|].
      destruct (Interface_wait_activate stod inp s Hwait s' Heq Hstep) as (Hph & _).
      unfold Interface.phase in Hph. injection Hph as Hm _. exact Hm.
    + intros s' Hstep.
      destruct (String.eqb (Interface_token inp s) "execute") eqn:Htok.
      * destruct (Interface_wait_activate stod inp s Hwait s' Htok Hstep) as (Hph & _).
        unfold Interface.phase in Hph. injection Hph as Hm _.
        apply String.eqb_eq in Htok. split; intros _; assumption.
      * destruct (Interface_wait_idle stod inp s Hwait Htok) as (s1 & Hstep1 & Hg & _).
        rewrite Hstep in Hstep1. injection Hstep1 as <-.
        apply String.eqb_neq in Htok. rewrite Hg, Hwait.
        split; [discriminate | intros H; contradiction].
  - intros inp s Hwait. rewrite (Starter_wait_step inp s Hwait).
    destruct (String.eqb (Starter_token inp s) "execute") eqn:Htok.
    + apply String.eqb_eq in Htok. split; intros _; [exact Htok | reflexivity].
    + apply String.eqb_neq in Htok. rewrite Hwait.
      split; [discriminate | intros H; contradiction].
  - intros v Hin. simpl in Hin.
    destruct Hin as [<- | [<- | [<- | [<- | []]]]]; discriminate.
Qed.

Lemma Interface_sample_shot_well_formed (u : Interface.Indeterminate) :
  Interface_shot_well_formed stod_sample Interface_quiet
                             (Interface.init u Interface_store0).
Proof.
  unfold Interface_shot_well_formed.
  cbn [Interface.external_writes Interface.redis Interface.init Interface_quiet
       Interface.ext_modechange Interface.ext_shotpos Interface.ext_shotangle
       Interface_store0 Interface.shotpos Interface.shotangle].
  cbv zeta.
  replace (substr "100,50" 0 (to_size_t (to_int (find "100,50" ","))))
    with "100"%string by (vm_compute; reflexivity).
  replace (substr "100,50" (to_size_t (to_int (find "100,50" ",") + 1))
                  (Z.of_nat (String.length "100,50")))
    with "50"%string by (vm_compute; reflexivity).
  unfold stod_sample. simpl. repeat split; discriminate.
Qed.

(** The token "Execute" leaves the loop waiting; the token "execute" with
    the sample shot starts the cycle. *)
Lemma activation_token_samples :
  (exists s',
      Interface.step stod_sample
                     (Interface_with_token (Some "Execute"%string) Interface_quiet)
                     (Interface.init Interface_u0 Interface_store0) = Some s' /\
      Interface.mode (Interface.globals s') = WAIT_MODE /\
      Interface_shot_parameters s' =
      Interface_shot_parameters (Interface.init Interface_u0 Interface_store0)) /\
  (exists s',
      Interface.step stod_sample Interface_quiet
                     (Interface.init Interface_u0 Interface_store0) = Some s' /\
      Interface.mode (Interface.globals s') = EXECUTE_MODE).
Proof.
  split.
  - apply (proj1 wait_to_execute_only_on_execute_token stod_sample
                 (Interface_with_token (Some "Execute"%string) Interface_quiet)
                 (Interface.init Interface_u0 Interface_store0) eq_refl).
    discriminate.
  - apply (proj1 wait_to_execute_only_on_execute_token stod_sample Interface_quiet
                 (Interface.init Interface_u0 Interface_store0) eq_refl).
    + reflexivity.
    + exact (Interface_sample_shot_well_formed Interface_u0).
Defined.

(** ** The loop body of the interface variant, seen from the phase variable *)

Arguments lt_d : simpl never.
Arguments gt_d : simpl never.
Arguments le_d : simpl never.
Arguments ge_d : simpl never.
Arguments incr_ull : simpl never.
Arguments Interface.calculatePointInTrajectory : simpl never.
Arguments Interface.calculateRotationInTrajectory : simpl never.
Arguments Interface.robotReachedGoal : simpl never.
Arguments Interface.safetyChecks : simpl never.
Arguments Interface.reached_joint_goal : simpl never.

Lemma Interface_step_execute_control (stod : string -> option double)
      (inp : Interface.TickInput) (s : Interface.World) :
  Interface.mode (Interface.globals s) = EXECUTE_MODE ->
  exists s',
    Interface.step stod inp s = Some s' /\
    Interface_same_window s s' /\
    Interface.total_time (Interface.locals s') = Interface.total_time (Interface.locals s) /\
    let t := Interface.seconds (Interface.globals s) in
    let c := Interface.controller_counter (Interface.globals s) in
    let final := Interface.reached_final_goal inp t s in
    let shoot := gt_d t (Interface.t_3 (Interface.globals s)) &&
                 lt_d t (Interface.t_3 (Interface.globals s) +
                         Interface.total_time (Interface.locals s)) in
    let done := gt_d t (Interface.t_4 (Interface.globals s) +
                        Interface.total_time (Interface.locals s)) in
    Interface.phase s' =
    match Interface.state (Interface.globals s) with
    | Interface.JOINT_CONTROLLER =>
      (EXECUTE_MODE,
       if Interface.reached_joint_goal inp
       then Interface.POSORI_CONTROLLER else Interface.JOINT_CONTROLLER)
    | Interface.POSORI_CONTROLLER =>
      (if final then WAIT_MODE else EXECUTE_MODE,
       if shoot then Interface.JOINT_CONTROLLER_SHOT
       else if final then Interface.JOINT_CONTROLLER
            else Interface.POSORI_CONTROLLER)
    | Interface.JOINT_CONTROLLER_SHOT =>
      (EXECUTE_MODE,
       if done then Interface.POSORI_CONTROLLER else Interface.JOINT_CONTROLLER_SHOT)
    | Interface.END_SHOT => (EXECUTE_MODE, Interface.END_SHOT)
    end /\
    Interface.controller_counter (Interface.globals s') =
    match Interface.state (Interface.globals s) with
    | Interface.JOINT_CONTROLLER =>
      incr_ull (if Interface.reached_joint_goal inp then 0 else c)
    | _ => incr_ull c
    end.
Proof.
  intros Hmode.
  eexists. split.
  - unfold Interface.step. cbn. rewrite Hmode. reflexivity.
  - unfold Interface_same_window, Interface.phase, Interface.execute_mode.
    cbn.
    destruct (Interface.state (Interface.globals s)) eqn:Hst.
    + unfold Interface.joint_controller.
      destruct (Interface.reached_joint_goal inp); cbn; rewrite ?Hmode, ?Hst;
        repeat split; reflexivity.
    + unfold Interface.posori_controller, Interface.reached_final_goal. cbn.
      destruct (Interface.robotReachedGoal _ _ _ _ _ _ && gt_d _ _); cbn;
        destruct (gt_d _ _ && lt_d _ _); cbn; rewrite ?Hmode, ?Hst;
          repeat split; reflexivity.
    + unfold Interface.joint_controller_shot. cbn.
      destruct (gt_d _ _ && lt_d _ _); cbn.
      * destruct (gt_d _ _); cbn; rewrite ?Hmode, ?Hst; repeat split; reflexivity.
      * destruct (le_d _ _); cbn.
        -- destruct (Interface.centershot _); cbn;
             destruct (gt_d _ _); cbn; rewrite ?Hmode, ?Hst; repeat split; reflexivity.
        -- destruct (gt_d _ _); cbn; rewrite ?Hmode, ?Hst; repeat split; reflexivity.
    + cbn. rewrite ?Hmode, ?Hst. repeat split; reflexivity.
Qed.

Lemma Interface_calibrated_window_ordered (s : Interface.World) :
  Interface_calibrated s -> window_ordered (Interface.globals s).
Proof.
  intros (H0 & H1 & H2 & H3 & H4 & _).
  unfold window_ordered. rewrite H0, H1, H2, H3, H4. lra.
Qed.

Lemma Interface_calibrated_preserved (s s' : Interface.World) :
  Interface_calibrated s ->
  Interface_same_window s s' ->
  Interface.total_time (Interface.locals s') = Interface.total_time (Interface.locals s) ->
  Interface_calibrated s'.
Proof.
  intros (H0 & H1 & H2 & H3 & H4 & HT) (E0 & E1 & E2 & E3 & E4) ET.
  unfold Interface_calibrated.
  rewrite E0, E1, E2, E3, E4, ET. repeat split; assumption.
Qed.

Lemma Interface_final_goal_calibrated (inp : Interface.TickInput) (t : double)
      (s : Interface.World) :
  Interface_calibrated s ->
  Interface.reached_final_goal inp t s =
  Interface_settled_at_home inp && gt_d t 13.
Proof.
  intros Hcal.
  pose proof (Interface_calibrated_window_ordered s Hcal) as Hw.
  destruct Hcal as (H0 & H1 & H2 & H3 & H4 & HT).
  unfold Interface.reached_final_goal, Interface_settled_at_home.
  rewrite Interface_point_outside_windows by (try assumption; right; rewrite H4; lra).
  rewrite H4. reflexivity.
Qed.

Lemma incr_ull_small (c : Z) :
  (0 <= c)%Z -> (c + 1 < ULLONG_MODULUS)%Z -> incr_ull c = (c + 1)%Z.
Proof. intros H0 H1. unfold incr_ull. apply Z.mod_small. lia. Qed.

(** What one iteration does in [EXECUTE_MODE], phase by phase. *)
Section InterfaceSteps.

Variable stod : string -> option double.
Variable inp : Interface.TickInput.
Variable s : Interface.World.

Ltac iteration Hat :=
  let Hcal := fresh "Hcal" in
  let Hm := fresh "Hm" in
  let Hst := fresh "Hst" in
  let Hcnt := fresh "Hcnt" in
  destruct Hat as (Hcal & Hm & Hst & Hcnt);
  destruct (Interface_step_execute_control stod inp s Hm)
    as (s' & Hstep & Hwin & HT & Hph & Hc);
  cbv zeta in Hph, Hc;
  rewrite Hst in Hph, Hc;
  rewrite ?(Interface_final_goal_calibrated inp _ s Hcal) in Hph;
  pose proof (Interface_calibrated_preserved s s' Hcal Hwin HT) as Hcal';
  try unfold Interface.seconds, dt in Hph;
  rewrite ?Hcnt in Hph; rewrite ?Hcnt in Hc;
  destruct Hcal as (_ & _ & _ & H3 & H4 & HT0);
  rewrite ?H3, ?H4, ?HT0 in Hph;
  exists s'; split; [exact Hstep|].

Ltac conclude Hph :=
  unfold Interface.phase in Hph; injection Hph as Hm' Hst';
  unfold Interface_at; split; [assumption | repeat split; assumption].

Lemma Interface_approach_stay (c : Z) :
  Interface_at EXECUTE_MODE Interface.JOINT_CONTROLLER c s ->
  Interface.reached_joint_goal inp = false ->
  exists s', Interface.step stod inp s = Some s' /\
             Interface_at EXECUTE_MODE Interface.JOINT_CONTROLLER (incr_ull c) s'.
Proof.
  intros Hat Hj. iteration Hat.
  rewrite Hj in Hph, Hc. conclude Hph.
Qed.

Lemma Interface_approach_exit (c : Z) :
  Interface_at EXECUTE_MODE Interface.JOINT_CONTROLLER c s ->
  Interface.reached_joint_goal inp = true ->
  exists s', Interface.step stod inp s = Some s' /\
             Interface_at EXECUTE_MODE Interface.POSORI_CONTROLLER 1 s'.
Proof.
  intros Hat Hj. iteration Hat.
  rewrite Hj in Hph, Hc. conclude Hph.
Qed.

Lemma Interface_track_stay (c : Z) :
  Interface_at EXECUTE_MODE Interface.POSORI_CONTROLLER c s ->
  (0 <= c <= 12000)%Z ->
  exists s', Interface.step stod inp s = Some s' /\
             Interface_at EXECUTE_MODE Interface.POSORI_CONTROLLER (c + 1) s'.
Proof.
  intros Hat Hc0. iteration Hat.
  pose proof (IZR_le c 12000 ltac:(lia)) as Hle.
  replace (gt_d (IZR c * 0.001) 13) with false in Hph
    by (symmetry; apply gt_d_false; lra).
  replace (gt_d (IZR c * 0.001) 12) with false in Hph
    by (symmetry; apply gt_d_false; lra).
  rewrite andb_false_r in Hph. cbn in Hph.
  rewrite incr_ull_small in Hc by (unfold ULLONG_MODULUS; lia).
  conclude Hph.
Qed.

Lemma Interface_track_exit :
  Interface_at EXECUTE_MODE Interface.POSORI_CONTROLLER 12001 s ->
  exists s', Interface.step stod inp s = Some s' /\
             Interface_at EXECUTE_MODE Interface.JOINT_CONTROLLER_SHOT 12002 s'.
Proof.
  intros Hat. iteration Hat.
  replace (gt_d (12001 * 0.001) 13) with false in Hph
    by (symmetry; apply gt_d_false; lra).
  replace (gt_d (12001 * 0.001) 12) with true in Hph
    by (symmetry; apply gt_d_true; lra).
  replace (lt_d (12001 * 0.001) (12 + 1.3)) with true in Hph
    by (symmetry; apply lt_d_true; lra).
  rewrite andb_false_r in Hph. cbn in Hph.
  rewrite incr_ull_small in Hc by (unfold ULLONG_MODULUS; lia).
  conclude Hph.
Qed.

Lemma Interface_shot_stay (c : Z) :
  Interface_at EXECUTE_MODE Interface.JOINT_CONTROLLER_SHOT c s ->
  (0 <= c <= 14300)%Z ->
  exists s', Interface.step stod inp s = Some s' /\
             Interface_at EXECUTE_MODE Interface.JOINT_CONTROLLER_SHOT (c + 1) s'.
Proof.
  intros Hat Hc0. iteration Hat.
  pose proof (IZR_le c 14300 ltac:(lia)) as Hle.
  replace (gt_d (IZR c * 0.001) (13 + 1.3)) with false in Hph
    by (symmetry; apply gt_d_false; lra).
  rewrite incr_ull_small in Hc by (unfold ULLONG_MODULUS; lia).
  conclude Hph.
Qed.

Lemma Interface_shot_exit (c : Z) :
  Interface_at EXECUTE_MODE Interface.JOINT_CONTROLLER_SHOT c s ->
  (14301 <= c)%Z -> (c + 1 < ULLONG_MODULUS)%Z ->
  exists s', Interface.step stod inp s = Some s' /\
             Interface_at EXECUTE_MODE Interface.POSORI_CONTROLLER (c + 1) s'.
Proof.
  intros Hat Hc0 Hc1. iteration Hat.
  pose proof (IZR_le 14301 c ltac:(lia)) as Hle.
  replace (gt_d (IZR c * 0.001) (13 + 1.3)) with true in Hph
    by (symmetry; apply gt_d_true; lra).
  rewrite incr_ull_small in Hc by lia.
  conclude Hph.
Qed.

Lemma Interface_return_stay (c : Z) :
  Interface_at EXECUTE_MODE Interface.POSORI_CONTROLLER c s ->
  (14302 <= c)%Z -> (c + 1 < ULLONG_MODULUS)%Z ->
  Interface_settled_at_home inp = false ->
  exists s', Interface.step stod inp s = Some s' /\
             Interface_at EXECUTE_MODE Interface.POSORI_CONTROLLER (c + 1) s'.
Proof.
  intros Hat Hc0 Hc1 Hg. iteration Hat.
  pose proof (IZR_le 14302 c ltac:(lia)) as Hle.
  rewrite Hg in Hph.
  replace (lt_d (IZR c * 0.001) (12 + 1.3)) with false in Hph
    by (symmetry; apply lt_d_false; lra).
  rewrite andb_false_r in Hph. cbn in Hph.
  rewrite incr_ull_small in Hc by lia.
  conclude Hph.
Qed.

Lemma Interface_return_exit (c : Z) :
  Interface_at EXECUTE_MODE Interface.POSORI_CONTROLLER c s ->
  (14302 <= c)%Z ->
  Interface_settled_at_home inp = true ->
  exists s', Interface.step stod inp s = Some s' /\
             Interface_at WAIT_MODE Interface.JOINT_CONTROLLER (incr_ull c) s'.
Proof.
  intros Hat Hc0 Hg. iteration Hat.
  pose proof (IZR_le 14302 c ltac:(lia)) as Hle.
  rewrite Hg in Hph.
  replace (gt_d (IZR c * 0.001) 13) with true in Hph
    by (symmetry; apply gt_d_true; lra).
  replace (lt_d (IZR c * 0.001) (12 + 1.3)) with false in Hph
    by (symmetry; apply lt_d_false; lra).
  rewrite andb_false_r in Hph. cbn in Hph.
  conclude Hph.
Qed.

End InterfaceSteps.

(** ** A stretch of iterations spent in one phase *)

Section Stages.

Variables (W I P : Type).
Variable step : I -> W -> option W.
Variable loop : list I -> W -> option W.
Variable trace : list I -> W -> list W.
Variable phase : W -> P.

Hypothesis loop_nil : forall s, loop [] s = Some s.
Hypothesis loop_cons :
  forall inp l s,
    loop (inp :: l) s =
    match step inp s with Some s' => loop l s' | None => None end.

Hypothesis trace_cons :
  forall inp l s,
    trace (inp :: l) s =
    s :: match step inp s with Some s' => trace l s' | None => [] end.

(** If every iteration of the stretch [l] starts in phase [ph] and keeps
    the invariant of its index, the trace starts with as many [ph] as [l]
    is long and goes on from a world with the last invariant. *)
Lemma stage (ph : P) :
  forall (l : list I) (Inv : nat -> W -> Prop) (G : nat -> I -> Prop),
    (forall k inp s,
        (k < List.length l)%nat -> Inv k s -> G k inp ->
        phase s = ph /\ exists s', step inp s = Some s' /\ Inv (S k) s') ->
    (forall k inp, nth_error l k = Some inp -> G k inp) ->
    forall s,
      Inv 0%nat s ->
      exists s',
        loop l s = Some s' /\
        Inv (List.length l) s' /\
        forall rest,
          map phase (trace (l ++ rest) s) =
          repeat ph (List.length l) ++ map phase (trace rest s').
Proof.
  induction l as [|inp l IH]; intros Inv G Hstep HG s H0.
  - exists s. split; [apply loop_nil|].
    split; [exact H0 | intros rest; reflexivity].
  - destruct (Hstep 0%nat inp s) as (Hph & s1 & Hs1 & H1);
      [simpl; lia | exact H0 | apply HG; reflexivity |].
    destruct (IH (fun k => Inv (S k)) (fun k => G (S k))) with (s := s1)
      as (s' & Hloop & Hs' & Htr).
    + intros k inp' s2 Hk Hinv HGk. apply Hstep; [simpl; lia | assumption..].
    + intros k inp' Hnth. apply HG. exact Hnth.
    + exact H1.
    + exists s'. split; [rewrite loop_cons, Hs1; exact Hloop|].
      split; [exact Hs'|].
      intros rest. simpl. rewrite trace_cons, Hs1. simpl.
      rewrite Hph, Htr. reflexivity.
Qed.

Lemma loop_app (l1 l2 : list I) (s s1 : W) :
  loop l1 s = Some s1 -> loop (l1 ++ l2) s = loop l2 s1.
Proof.
  revert s. induction l1 as [|inp l1 IH]; intros s H.
  - rewrite loop_nil in H. injection H as ->. reflexivity.
  - simpl. rewrite loop_cons in *.
    destruct (step inp s) as [s0|]; [apply IH; exact H | discriminate].
Qed.

End Stages.

Lemma nth_error_app_last {A : Type} (l : list A) (x y : A) (k : nat) :
  nth_error (l ++ [x]) k = Some y ->
  ((k < List.length l)%nat /\ nth_error l k = Some y) \/
  (k = List.length l /\ y = x).
Proof.
  intros H.
  destruct (Nat.lt_ge_cases k (List.length l)) as [Hlt | Hge].
  - left. split; [exact Hlt|]. rewrite nth_error_app1 in H by exact Hlt. exact H.
  - right. rewrite nth_error_app2 in H by exact Hge.
    destruct (k - List.length l)%nat as [|d] eqn:Hd.
    + simpl in H. injection H as ->. split; [lia | reflexivity].
    + simpl in H. destruct d; discriminate.
Qed.

Lemma Forall_nth_error {A : Type} (Q : A -> Prop) (l : list A) (k : nat) (x : A) :
  Forall Q l -> nth_error l k = Some x -> Q x.
Proof.
  intros HF Hn. rewrite Forall_forall in HF. apply HF.
  apply nth_error_In with (n := k). exact Hn.
Qed.

(** ** The EXECUTE cycle of the interface variant *)

Section InterfaceCycle.

Variable stod : string -> option double.

Local Abbreviation E_JOINT := (EXECUTE_MODE, Interface.JOINT_CONTROLLER).
Local Abbreviation E_POSORI := (EXECUTE_MODE, Interface.POSORI_CONTROLLER).
Local Abbreviation E_SHOT := (EXECUTE_MODE, Interface.JOINT_CONTROLLER_SHOT).

Ltac unfold_loop H := exact H.

Lemma Interface_at_phase m st c s :
  Interface_at m st c s -> Interface.phase s = (m, st).
Proof. intros (_ & Hm & Hst & _). unfold Interface.phase. rewrite Hm, Hst. reflexivity. Qed.

(** APPROACH: the joint goal is missed on [pre] and met on [i1]. *)
Lemma Interface_approach_stage (pre : list Interface.TickInput)
      (i1 : Interface.TickInput) (s : Interface.World) (c : Z) :
  Interface_at EXECUTE_MODE Interface.JOINT_CONTROLLER c s ->
  Forall (fun inp => Interface.reached_joint_goal inp = false) pre ->
  Interface.reached_joint_goal i1 = true ->
  exists s',
    Interface.loop stod (pre ++ [i1]) s = Some s' /\
    Interface_at EXECUTE_MODE Interface.POSORI_CONTROLLER 1 s' /\
    forall rest,
      map Interface.phase (Interface.trace stod ((pre ++ [i1]) ++ rest) s) =
      repeat E_JOINT (S (List.length pre)) ++
      map Interface.phase (Interface.trace stod rest s').
Proof.
  intros Hat Hpre Hi1.
  destruct (stage _ _ _ (Interface.step stod) (Interface.loop stod)
                  (Interface.trace stod) Interface.phase
                  (fun _ => eq_refl) (fun _ _ _ => eq_refl) (fun _ _ _ => eq_refl) E_JOINT (pre ++ [i1])
                  (fun k s =>
                     ((k <= List.length pre)%nat /\
                      exists c, Interface_at EXECUTE_MODE Interface.JOINT_CONTROLLER c s) \/
                     (k = S (List.length pre) /\
                      Interface_at EXECUTE_MODE Interface.POSORI_CONTROLLER 1 s))
                  (fun k inp =>
                     ((k < List.length pre)%nat /\
                      Interface.reached_joint_goal inp = false) \/
                     (k = List.length pre /\
                      Interface.reached_joint_goal inp = true)))
    with (s := s) as (s' & Hloop & Hs' & Htr).
  - intros k inp s0 Hk [[Hle [c0 Hat0]] | [Heq _]] HG;
      [| rewrite length_app in Hk; simpl in Hk; lia].
    split; [apply (Interface_at_phase _ _ _ _ Hat0)|].
    destruct HG as [[Hlt Hg] | [Heq Hg]].
    + destruct (Interface_approach_stay stod inp s0 c0 Hat0 Hg) as (s1 & Hs1 & Hat1).
      exists s1. split; [exact Hs1|]. left. split; [lia | eexists; exact Hat1].
    + destruct (Interface_approach_exit stod inp s0 c0 Hat0 Hg) as (s1 & Hs1 & Hat1).
      exists s1. split; [exact Hs1|]. right. split; [lia | exact Hat1].
  - intros k inp Hnth.
    apply nth_error_app_last in Hnth.
    destruct Hnth as [[Hlt Hn] | [Heq ->]].
    + left. split; [exact Hlt|].
      apply (Forall_nth_error _ _ _ _ Hpre Hn).
    + right. split; assumption.
  - left. split; [lia | exists c; exact Hat].
  - rewrite length_app in Hs', Htr. simpl in Hs', Htr.
    replace (List.length pre + 1)%nat with (S (List.length pre)) in Hs', Htr by lia.
    destruct Hs' as [[Hle _] | [_ Hat']]; [lia|].
    exists s'. split; [unfold_loop Hloop | split; [exact Hat' | exact Htr]].
Qed.

(** TRACK: 12001 iterations, whatever the inputs. *)
Lemma Interface_track_stage (track : list Interface.TickInput) (s : Interface.World) :
  Interface_at EXECUTE_MODE Interface.POSORI_CONTROLLER 1 s ->
  List.length track = Z.to_nat 12001 ->
  exists s',
    Interface.loop stod track s = Some s' /\
    Interface_at EXECUTE_MODE Interface.JOINT_CONTROLLER_SHOT 12002 s' /\
    forall rest,
      map Interface.phase (Interface.trace stod (track ++ rest) s) =
      repeat E_POSORI (Z.to_nat 12001) ++
      map Interface.phase (Interface.trace stod rest s').
Proof.
  intros Hat Hlen.
  destruct (stage _ _ _ (Interface.step stod) (Interface.loop stod)
                  (Interface.trace stod) Interface.phase
                  (fun _ => eq_refl) (fun _ _ _ => eq_refl) (fun _ _ _ => eq_refl) E_POSORI track
                  (fun k s =>
                     ((k < Z.to_nat 12001)%nat /\
                      Interface_at EXECUTE_MODE Interface.POSORI_CONTROLLER
                                   (1 + Z.of_nat k) s) \/
                     (k = Z.to_nat 12001 /\
                      Interface_at EXECUTE_MODE Interface.JOINT_CONTROLLER_SHOT 12002 s))
                  (fun _ _ => True))
    with (s := s) as (s' & Hloop & Hs' & Htr).
  - intros k inp s0 Hk [[Hlt Hat0] | [Heq _]] _; [| lia].
    split; [apply (Interface_at_phase _ _ _ _ Hat0)|].
    destruct (Nat.eq_dec k (Z.to_nat 12000)) as [Hk0 | Hk0].
    + replace (1 + Z.of_nat k)%Z with 12001%Z in Hat0 by lia.
      destruct (Interface_track_exit stod inp s0 Hat0) as (s1 & Hs1 & Hat1).
      exists s1. split; [exact Hs1|]. right. split; [lia | exact Hat1].
    + destruct (Interface_track_stay stod inp s0 _ Hat0 ltac:(lia)) as (s1 & Hs1 & Hat1).
      exists s1. split; [exact Hs1|]. left. split; [lia|].
      replace (1 + Z.of_nat (S k))%Z with (1 + Z.of_nat k + 1)%Z by lia. exact Hat1.
  - intros; exact I.
  - left. split; [lia | exact Hat].
  - rewrite Hlen in Hs', Htr.
    destruct Hs' as [[Hlt _] | [_ Hat']]; [lia|].
    exists s'. split; [unfold_loop Hloop | split; [exact Hat' | exact Htr]].
Qed.

(** SHOT: 2300 iterations, whatever the inputs. *)
Lemma Interface_shot_stage (shot : list Interface.TickInput) (s : Interface.World) :
  Interface_at EXECUTE_MODE Interface.JOINT_CONTROLLER_SHOT 12002 s ->
  List.length shot = Z.to_nat 2300 ->
  exists s',
    Interface.loop stod shot s = Some s' /\
    Interface_at EXECUTE_MODE Interface.POSORI_CONTROLLER 14302 s' /\
    forall rest,
      map Interface.phase (Interface.trace stod (shot ++ rest) s) =
      repeat E_SHOT (Z.to_nat 2300) ++
      map Interface.phase (Interface.trace stod rest s').
Proof.
  intros Hat Hlen.
  destruct (stage _ _ _ (Interface.step stod) (Interface.loop stod)
                  (Interface.trace stod) Interface.phase
                  (fun _ => eq_refl) (fun _ _ _ => eq_refl) (fun _ _ _ => eq_refl) E_SHOT shot
                  (fun k s =>
                     ((k < Z.to_nat 2300)%nat /\
                      Interface_at EXECUTE_MODE Interface.JOINT_CONTROLLER_SHOT
                                   (12002 + Z.of_nat k) s) \/
                     (k = Z.to_nat 2300 /\
                      Interface_at EXECUTE_MODE Interface.POSORI_CONTROLLER 14302 s))
                  (fun _ _ => True))
    with (s := s) as (s' & Hloop & Hs' & Htr).
  - intros k inp s0 Hk [[Hlt Hat0] | [Heq _]] _; [| lia].
    split; [apply (Interface_at_phase _ _ _ _ Hat0)|].
    destruct (Nat.eq_dec k (Z.to_nat 2299)) as [Hk0 | Hk0].
    + destruct (Interface_shot_exit stod inp s0 _ Hat0) as (s1 & Hs1 & Hat1);
        [lia | unfold ULLONG_MODULUS; lia |].
      exists s1. split; [exact Hs1|]. right. split; [lia|].
      replace 14302%Z with (12002 + Z.of_nat k + 1)%Z by lia. exact Hat1.
    + destruct (Interface_shot_stay stod inp s0 _ Hat0 ltac:(lia)) as (s1 & Hs1 & Hat1).
      exists s1. split; [exact Hs1|]. left. split; [lia|].
      replace (12002 + Z.of_nat (S k))%Z with (12002 + Z.of_nat k + 1)%Z by lia.
      exact Hat1.
  - intros; exact I.
  - left. split; [lia | exact Hat].
  - rewrite Hlen in Hs', Htr.
    destruct Hs' as [[Hlt _] | [_ Hat']]; [lia|].
    exists s'. split; [unfold_loop Hloop | split; [exact Hat' | exact Htr]].
Qed.

(** RETURN: the robot is not settled on [ret] and is settled on [i4];
    the tick counter does not wrap meanwhile. *)
Lemma Interface_return_stage (ret : list Interface.TickInput)
      (i4 : Interface.TickInput) (s : Interface.World) :
  Interface_at EXECUTE_MODE Interface.POSORI_CONTROLLER 14302 s ->
  Forall (fun inp => Interface_settled_at_home inp = false) ret ->
  Interface_settled_at_home i4 = true ->
  (14302 + Z.of_nat (List.length ret) < ULLONG_MODULUS)%Z ->
  exists s',
    Interface.loop stod (ret ++ [i4]) s = Some s' /\
    Interface.phase s' = (WAIT_MODE, Interface.JOINT_CONTROLLER) /\
    Interface_calibrated s' /\
    forall rest,
      map Interface.phase (Interface.trace stod ((ret ++ [i4]) ++ rest) s) =
      repeat E_POSORI (S (List.length ret)) ++
      map Interface.phase (Interface.trace stod rest s').
Proof.
  intros Hat Hret Hi4 Hwrap.
  destruct (stage _ _ _ (Interface.step stod) (Interface.loop stod)
                  (Interface.trace stod) Interface.phase
                  (fun _ => eq_refl) (fun _ _ _ => eq_refl) (fun _ _ _ => eq_refl) E_POSORI (ret ++ [i4])
                  (fun k s =>
                     ((k <= List.length ret)%nat /\
                      Interface_at EXECUTE_MODE Interface.POSORI_CONTROLLER
                                   (14302 + Z.of_nat k) s) \/
                     (k = S (List.length ret) /\
                      exists c, Interface_at WAIT_MODE Interface.JOINT_CONTROLLER c s))
                  (fun k inp =>
                     ((k < List.length ret)%nat /\
                      Interface_settled_at_home inp = false) \/
                     (k = List.length ret /\
                      Interface_settled_at_home inp = true)))
    with (s := s) as (s' & Hloop & Hs' & Htr).
  - intros k inp s0 Hk [[Hle Hat0] | [Heq _]] HG;
      [| rewrite length_app in Hk; simpl in Hk; lia].
    split; [apply (Interface_at_phase _ _ _ _ Hat0)|].
    destruct HG as [[Hlt Hg] | [Heq Hg]].
    + destruct (Interface_return_stay stod inp s0 _ Hat0) as (s1 & Hs1 & Hat1);
        [lia | lia | exact Hg |].
      exists s1. split; [exact Hs1|]. left. split; [lia|].
      replace (14302 + Z.of_nat (S k))%Z with (14302 + Z.of_nat k + 1)%Z by lia.
      exact Hat1.
    + destruct (Interface_return_exit stod inp s0 _ Hat0) as (s1 & Hs1 & Hat1);
        [lia | exact Hg |].
      exists s1. split; [exact Hs1|]. right. split; [lia | eexists; exact Hat1].
  - intros k inp Hnth.
    apply nth_error_app_last in Hnth.
    destruct Hnth as [[Hlt Hn] | [Heq ->]].
    + left. split; [exact Hlt|].
      apply (Forall_nth_error _ _ _ _ Hret Hn).
    + right. split; assumption.
  - left. split; [lia | exact Hat].
  - rewrite length_app in Hs', Htr. simpl in Hs', Htr.
    replace (List.length ret + 1)%nat with (S (List.length ret)) in Hs', Htr by lia.
    destruct Hs' as [[Hle _] | [_ [c Hat']]]; [lia|].
    exists s'. split; [unfold_loop Hloop|].
    split; [apply (Interface_at_phase _ _ _ _ Hat')|].
    split; [apply Hat' | exact Htr].
Qed.

(** The whole cycle. *)
Lemma Interface_execute_cycle (s : Interface.World)
      (pre : list Interface.TickInput) (i1 : Interface.TickInput)
      (mid ret : list Interface.TickInput) (i4 : Interface.TickInput) :
  Interface_calibrated s ->
  Interface.phase s = (EXECUTE_MODE, Interface.JOINT_CONTROLLER) ->
  Forall (fun inp => Interface.reached_joint_goal inp = false) pre ->
  Interface.reached_joint_goal i1 = true ->
  List.length mid = Z.to_nat 14301 ->
  Forall (fun inp => Interface_settled_at_home inp = false) ret ->
  Interface_settled_at_home i4 = true ->
  (14302 + Z.of_nat (List.length ret) < ULLONG_MODULUS)%Z ->
  map Interface.phase
      (Interface.trace stod (pre ++ [i1] ++ mid ++ ret ++ [i4]) s) =
  repeat (EXECUTE_MODE, Interface.JOINT_CONTROLLER) (S (List.length pre)) ++
  repeat (EXECUTE_MODE, Interface.POSORI_CONTROLLER) (Z.to_nat 12001) ++
  repeat (EXECUTE_MODE, Interface.JOINT_CONTROLLER_SHOT) (Z.to_nat 2300) ++
  repeat (EXECUTE_MODE, Interface.POSORI_CONTROLLER) (S (List.length ret)) ++
  [(WAIT_MODE, Interface.JOINT_CONTROLLER)].
Proof.
  intros Hcal Hph Hpre Hi1 Hmid Hret Hi4 Hwrap.
  unfold Interface.phase in Hph. injection Hph as Hm Hst.
  assert (Hat : Interface_at EXECUTE_MODE Interface.JOINT_CONTROLLER
                             (Interface.controller_counter (Interface.globals s)) s)
    by (unfold Interface_at; auto).
  destruct (Interface_approach_stage pre i1 s _ Hat Hpre Hi1) as (s1 & Hl1 & Hat1 & Htr1).
  destruct (Interface_track_stage (firstn (Z.to_nat 12001) mid) s1 Hat1)
    as (s2 & Hl2 & Hat2 & Htr2); [rewrite length_firstn; lia|].
  destruct (Interface_shot_stage (skipn (Z.to_nat 12001) mid) s2 Hat2)
    as (s3 & Hl3 & Hat3 & Htr3); [rewrite length_skipn; lia|].
  destruct (Interface_return_stage ret i4 s3 Hat3 Hret Hi4 Hwrap)
    as (s4 & Hl4 & Hph4 & _ & Htr4).
  replace (pre ++ [i1] ++ mid ++ ret ++ [i4])
    with ((pre ++ [i1]) ++
          firstn (Z.to_nat 12001) mid ++
          skipn (Z.to_nat 12001) mid ++ (ret ++ [i4]) ++ []).
  - rewrite Htr1, Htr2, Htr3, Htr4. simpl. rewrite Hph4. reflexivity.
  - rewrite app_nil_r, <- !app_assoc.
    rewrite (app_assoc (firstn _ mid)), firstn_skipn. reflexivity.
Qed.

End InterfaceCycle.

(** ** The loop body of the starter variant, seen from the phase variable *)

Arguments Starter.calculatePointInTrajectory : simpl never.
Arguments Starter.calculateRotationInTrajectory : simpl never.
Arguments Starter.robotReachedGoal : simpl never.
Arguments Starter.safetyChecks : simpl never.
Arguments Starter.reached_joint_goal : simpl never.

Lemma Starter_point_outside_windows (g : Starter.Globals) (t : double) :
  Starter_window_ordered g ->
  t < Starter.t_0 g \/ t >= Starter.t_4 g ->
  Starter.calculatePointInTrajectory g t = Starter.xh.
Proof.
  intros (H01 & H12 & H23 & H34) Ht.
  unfold Starter.calculatePointInTrajectory.
  destruct Ht as [Ht | Ht].
  - rewrite !inRange_below by lra. reflexivity.
  - rewrite !inRange_above by lra. reflexivity.
Qed.

Lemma Starter_step_execute_control (inp : Starter.TickInput) (s : Starter.World) :
  Starter.mode (Starter.globals s) = EXECUTE_MODE ->
  let s' := Starter.step inp s in
  Starter_same_window s s' /\
  Starter.total_time (Starter.locals s') = Starter.total_time (Starter.locals s) /\
  let t := Starter.seconds (Starter.globals s) in
  let c := Starter.controller_counter (Starter.globals s) in
  let final := Starter.reached_final_goal inp t s in
  let shoot := gt_d t (Starter.t_3 (Starter.globals s)) &&
               lt_d t (Starter.t_3 (Starter.globals s) +
                       Starter.total_time (Starter.locals s)) in
  let done := gt_d t (Starter.t_3 (Starter.globals s) +
                      Starter.total_time (Starter.locals s)) in
  Starter.phase s' =
  match Starter.state (Starter.globals s) with
  | Starter.JOINT_CONTROLLER =>
    (EXECUTE_MODE,
     if Starter.reached_joint_goal inp
     then Starter.POSORI_CONTROLLER else Starter.JOINT_CONTROLLER)
  | Starter.POSORI_CONTROLLER =>
    (if final then WAIT_MODE else EXECUTE_MODE,
     if shoot then Starter.JOINT_CONTROLLER_SHOT
     else if final then Starter.JOINT_CONTROLLER
          else Starter.POSORI_CONTROLLER)
  | Starter.JOINT_CONTROLLER_SHOT =>
    (EXECUTE_MODE,
     if done then Starter.POSORI_CONTROLLER else Starter.JOINT_CONTROLLER_SHOT)
  end /\
  Starter.controller_counter (Starter.globals s') =
  match Starter.state (Starter.globals s) with
  | Starter.JOINT_CONTROLLER =>
    incr_ull (if Starter.reached_joint_goal inp then 0 else c)
  | Starter.POSORI_CONTROLLER => incr_ull (if shoot then 0 else c)
  | Starter.JOINT_CONTROLLER_SHOT => incr_ull c
  end.
Proof.
  intros Hmode.
  unfold Starter.step. cbn. rewrite Hmode.
  unfold Starter_same_window, Starter.phase, Starter.execute_mode.
  cbn.
  destruct (Starter.state (Starter.globals s)) eqn:Hst.
  - unfold Starter.joint_controller.
    destruct (Starter.reached_joint_goal inp); cbn; rewrite ?Hmode, ?Hst;
      repeat split; reflexivity.
  - unfold Starter.posori_controller, Starter.reached_final_goal. cbn.
    destruct (Starter.robotReachedGoal _ _ _ _ _ _ && gt_d _ _); cbn;
      destruct (gt_d _ _ && lt_d _ _); cbn; rewrite ?Hmode, ?Hst;
        repeat split; reflexivity.
  - unfold Starter.joint_controller_shot. cbn.
    destruct (gt_d _ _); cbn; rewrite ?Hmode, ?Hst; repeat split; reflexivity.
Qed.

Lemma Starter_calibrated_window_ordered (T : double) (s : Starter.World) :
  Starter_calibrated T s -> Starter_window_ordered (Starter.globals s).
Proof.
  intros (H0 & H1 & H2 & H3 & H4 & _).
  unfold Starter_window_ordered. rewrite H0, H1, H2, H3, H4. lra.
Qed.

Lemma Starter_calibrated_preserved (T : double) (s s' : Starter.World) :
  Starter_calibrated T s ->
  Starter_same_window s s' ->
  Starter.total_time (Starter.locals s') = Starter.total_time (Starter.locals s) ->
  Starter_calibrated T s'.
Proof.
  intros (H0 & H1 & H2 & H3 & H4 & HT) (E0 & E1 & E2 & E3 & E4) ET.
  unfold Starter_calibrated.
  rewrite E0, E1, E2, E3, E4, ET. repeat split; assumption.
Qed.

Lemma Starter_final_goal_calibrated (T : double) (inp : Starter.TickInput)
      (t : double) (s : Starter.World) :
  Starter_calibrated T s ->
  Starter.reached_final_goal inp t s =
  Starter_settled_at_home inp && gt_d t 20.
Proof.
  intros Hcal.
  pose proof (Starter_calibrated_window_ordered T s Hcal) as Hw.
  destruct Hcal as (H0 & H1 & H2 & H3 & H4 & HT).
  unfold Starter.reached_final_goal, Starter_settled_at_home.
  rewrite Starter_point_outside_windows by (try assumption; right; rewrite H4; lra).
  rewrite H4. reflexivity.
Qed.

Section StarterSteps.

Variable T : double.
Variable inp : Starter.TickInput.
Variable s : Starter.World.

Ltac iteration Hat :=
  let Hcal := fresh "Hcal" in
  let Hm := fresh "Hm" in
  let Hst := fresh "Hst" in
  let Hcnt := fresh "Hcnt" in
  destruct Hat as (Hcal & Hm & Hst & Hcnt);
  destruct (Starter_step_execute_control inp s Hm) as (Hwin & HT & Hph & Hc);
  cbv zeta in Hph, Hc;
  rewrite Hst in Hph, Hc;
  rewrite ?(Starter_final_goal_calibrated T inp _ s Hcal) in Hph;
  pose proof (Starter_calibrated_preserved T s _ Hcal Hwin HT) as Hcal';
  try unfold Starter.seconds, dt in Hph;
  try unfold Starter.seconds, dt in Hc;
  rewrite ?Hcnt in Hph; rewrite ?Hcnt in Hc;
  destruct Hcal as (_ & _ & _ & H3 & H4 & HT0);
  rewrite ?H3, ?H4, ?HT0 in Hph; rewrite ?H3, ?H4, ?HT0 in Hc.

Ltac conclude Hph :=
  unfold Starter.phase in Hph; injection Hph as Hm' Hst';
  unfold Starter_at; split; [assumption | repeat split; assumption].

Lemma Starter_approach_stay (c : Z) :
  Starter_at T EXECUTE_MODE Starter.JOINT_CONTROLLER c s ->
  Starter.reached_joint_goal inp = false ->
  Starter_at T EXECUTE_MODE Starter.JOINT_CONTROLLER (incr_ull c) (Starter.step inp s).
Proof.
  intros Hat Hj. iteration Hat.
  rewrite Hj in Hph, Hc. conclude Hph.
Qed.

Lemma Starter_approach_exit (c : Z) :
  Starter_at T EXECUTE_MODE Starter.JOINT_CONTROLLER c s ->
  Starter.reached_joint_goal inp = true ->
  Starter_at T EXECUTE_MODE Starter.POSORI_CONTROLLER 1 (Starter.step inp s).
Proof.
  intros Hat Hj. iteration Hat.
  rewrite Hj in Hph, Hc. conclude Hph.
Qed.

Lemma Starter_track_stay (c : Z) :
  Starter_at T EXECUTE_MODE Starter.POSORI_CONTROLLER c s ->
  (0 <= c <= 15000)%Z ->
  Starter_at T EXECUTE_MODE Starter.POSORI_CONTROLLER (c + 1) (Starter.step inp s).
Proof.
  intros Hat Hc0. iteration Hat.
  pose proof (IZR_le c 15000 ltac:(lia)) as Hle.
  replace (gt_d (IZR c * 0.001) 20) with false in Hph
    by (symmetry; apply gt_d_false; lra).
  replace (gt_d (IZR c * 0.001) 15) with false in Hph, Hc
    by (symmetry; apply gt_d_false; lra).
  rewrite andb_false_r in Hph. cbn in Hph, Hc.
  rewrite incr_ull_small in Hc by (unfold ULLONG_MODULUS; lia).
  conclude Hph.
Qed.

Lemma Starter_track_exit :
  Starter_at T EXECUTE_MODE Starter.POSORI_CONTROLLER 15001 s ->
  T > 0.001 ->
  Starter_at T EXECUTE_MODE Starter.JOINT_CONTROLLER_SHOT 1 (Starter.step inp s).
Proof.
  intros Hat HT1. iteration Hat.
  replace (gt_d (15001 * 0.001) 20) with false in Hph
    by (symmetry; apply gt_d_false; lra).
  replace (gt_d (15001 * 0.001) 15) with true in Hph, Hc
    by (symmetry; apply gt_d_true; lra).
  replace (lt_d (15001 * 0.001) (15 + T)) with true in Hph, Hc
    by (symmetry; apply lt_d_true; lra).
  rewrite andb_false_r in Hph. cbn in Hph, Hc.
  conclude Hph.
Qed.

Lemma Starter_shot_stay (c : Z) :
  Starter_at T EXECUTE_MODE Starter.JOINT_CONTROLLER_SHOT c s ->
  (0 <= c)%Z -> (c + 1 < ULLONG_MODULUS)%Z ->
  IZR c * dt <= 15 + T ->
  Starter_at T EXECUTE_MODE Starter.JOINT_CONTROLLER_SHOT (c + 1) (Starter.step inp s).
Proof.
  intros Hat Hc0 Hc1 Ht. unfold dt in Ht. iteration Hat.
  replace (gt_d (IZR c * 0.001) (15 + T)) with false in Hph
    by (symmetry; apply gt_d_false; lra).
  rewrite incr_ull_small in Hc by lia.
  conclude Hph.
Qed.

Lemma Starter_shot_exit (c : Z) :
  Starter_at T EXECUTE_MODE Starter.JOINT_CONTROLLER_SHOT c s ->
  (0 <= c)%Z -> (c + 1 < ULLONG_MODULUS)%Z ->
  IZR c * dt > 15 + T ->
  Starter_at T EXECUTE_MODE Starter.POSORI_CONTROLLER (c + 1) (Starter.step inp s).
Proof.
  intros Hat Hc0 Hc1 Ht. unfold dt in Ht. iteration Hat.
  replace (gt_d (IZR c * 0.001) (15 + T)) with true in Hph
    by (symmetry; apply gt_d_true; lra).
  rewrite incr_ull_small in Hc by lia.
  conclude Hph.
Qed.

Lemma Starter_return_stay (c : Z) :
  Starter_at T EXECUTE_MODE Starter.POSORI_CONTROLLER c s ->
  (0 <= c)%Z -> (c + 1 < ULLONG_MODULUS)%Z ->
  IZR c * dt > 15 + T ->
  Starter_settled_at_home inp && gt_d (IZR c * dt) 20 = false ->
  Starter_at T EXECUTE_MODE Starter.POSORI_CONTROLLER (c + 1) (Starter.step inp s).
Proof.
  intros Hat Hc0 Hc1 Ht Hg. unfold dt in Ht, Hg. iteration Hat.
  rewrite Hg in Hph.
  replace (lt_d (IZR c * 0.001) (15 + T)) with false in Hph, Hc
    by (symmetry; apply lt_d_false; lra).
  rewrite andb_false_r in Hph, Hc. cbn in Hph, Hc.
  rewrite incr_ull_small in Hc by lia.
  conclude Hph.
Qed.

Lemma Starter_return_exit (c : Z) :
  Starter_at T EXECUTE_MODE Starter.POSORI_CONTROLLER c s ->
  IZR c * dt > 15 + T ->
  Starter_settled_at_home inp = true ->
  IZR c * dt > 20 ->
  Starter_at T WAIT_MODE Starter.JOINT_CONTROLLER (incr_ull c) (Starter.step inp s).
Proof.
  intros Hat Ht Hg Ht4. unfold dt in Ht, Ht4. iteration Hat.
  rewrite Hg in Hph.
  replace (gt_d (IZR c * 0.001) 20) with true in Hph
    by (symmetry; apply gt_d_true; lra).
  replace (lt_d (IZR c * 0.001) (15 + T)) with false in Hph, Hc
    by (symmetry; apply lt_d_false; lra).
  rewrite andb_false_r in Hph, Hc. cbn in Hph, Hc.
  conclude Hph.
Qed.

End StarterSteps.

(** ** The EXECUTE cycle of the starter variant *)

Section StarterCycle.

Variable T : double.
Hypothesis T_long_enough : T > 0.001.

Local Abbreviation E_JOINT := (EXECUTE_MODE, Starter.JOINT_CONTROLLER).
Local Abbreviation E_POSORI := (EXECUTE_MODE, Starter.POSORI_CONTROLLER).
Local Abbreviation E_SHOT := (EXECUTE_MODE, Starter.JOINT_CONTROLLER_SHOT).

Ltac unfold_loop H := unfold Starter_some_loop in H; injection H as H; exact H.

Lemma Starter_at_phase m st c s :
  Starter_at T m st c s -> Starter.phase s = (m, st).
Proof. intros (_ & Hm & Hst & _). unfold Starter.phase. rewrite Hm, Hst. reflexivity. Qed.

Lemma Starter_approach_stage (pre : list Starter.TickInput)
      (i1 : Starter.TickInput) (s : Starter.World) (c : Z) :
  Starter_at T EXECUTE_MODE Starter.JOINT_CONTROLLER c s ->
  Forall (fun inp => Starter.reached_joint_goal inp = false) pre ->
  Starter.reached_joint_goal i1 = true ->
  exists s',
    Starter.loop (pre ++ [i1]) s = s' /\
    Starter_at T EXECUTE_MODE Starter.POSORI_CONTROLLER 1 s' /\
    forall rest,
      map Starter.phase (Starter.trace ((pre ++ [i1]) ++ rest) s) =
      repeat E_JOINT (S (List.length pre)) ++
      map Starter.phase (Starter.trace rest s').
Proof.
  intros Hat Hpre Hi1.
  destruct (stage _ _ _ Starter_some_step Starter_some_loop Starter.trace Starter.phase
                  (fun _ => eq_refl) (fun _ _ _ => eq_refl) (fun _ _ _ => eq_refl) E_JOINT (pre ++ [i1])
                  (fun k s =>
                     ((k <= List.length pre)%nat /\
                      exists c, Starter_at T EXECUTE_MODE Starter.JOINT_CONTROLLER c s) \/
                     (k = S (List.length pre) /\
                      Starter_at T EXECUTE_MODE Starter.POSORI_CONTROLLER 1 s))
                  (fun k inp =>
                     ((k < List.length pre)%nat /\
                      Starter.reached_joint_goal inp = false) \/
                     (k = List.length pre /\
                      Starter.reached_joint_goal inp = true)))
    with (s := s) as (s' & Hloop & Hs' & Htr).
  - intros k inp s0 Hk [[Hle [c0 Hat0]] | [Heq _]] HG;
      [| rewrite length_app in Hk; simpl in Hk; lia].
    split; [apply (Starter_at_phase _ _ _ _ Hat0)|].
    eexists. split; [reflexivity|].
    destruct HG as [[Hlt Hg] | [Heq Hg]].
    + left. split; [lia|]. eexists.
      apply (Starter_approach_stay T inp s0 c0 Hat0 Hg).
    + right. split; [lia|].
      apply (Starter_approach_exit T inp s0 c0 Hat0 Hg).
  - intros k inp Hnth.
    apply nth_error_app_last in Hnth.
    destruct Hnth as [[Hlt Hn] | [Heq ->]].
    + left. split; [exact Hlt|].
      apply (Forall_nth_error _ _ _ _ Hpre Hn).
    + right. split; assumption.
  - left. split; [lia | exists c; exact Hat].
  - rewrite length_app in Hs', Htr. simpl in Hs', Htr.
    replace (List.length pre + 1)%nat with (S (List.length pre)) in Hs', Htr by lia.
    destruct Hs' as [[Hle _] | [_ Hat']]; [lia|].
    exists s'. split; [unfold_loop Hloop | split; [exact Hat' | exact Htr]].
Qed.

(** TRACK: 15001 iterations; the counter restarts as SHOT begins. *)
Lemma Starter_track_stage (track : list Starter.TickInput) (s : Starter.World) :
  Starter_at T EXECUTE_MODE Starter.POSORI_CONTROLLER 1 s ->
  List.length track = Z.to_nat 15001 ->
  exists s',
    Starter.loop track s = s' /\
    Starter_at T EXECUTE_MODE Starter.JOINT_CONTROLLER_SHOT 1 s' /\
    forall rest,
      map Starter.phase (Starter.trace (track ++ rest) s) =
      repeat E_POSORI (Z.to_nat 15001) ++
      map Starter.phase (Starter.trace rest s').
Proof.
  intros Hat Hlen.
  destruct (stage _ _ _ Starter_some_step Starter_some_loop Starter.trace Starter.phase
                  (fun _ => eq_refl) (fun _ _ _ => eq_refl) (fun _ _ _ => eq_refl) E_POSORI track
                  (fun k s =>
                     ((k < Z.to_nat 15001)%nat /\
                      Starter_at T EXECUTE_MODE Starter.POSORI_CONTROLLER
                                 (1 + Z.of_nat k) s) \/
                     (k = Z.to_nat 15001 /\
                      Starter_at T EXECUTE_MODE Starter.JOINT_CONTROLLER_SHOT 1 s))
                  (fun _ _ => True))
    with (s := s) as (s' & Hloop & Hs' & Htr).
  - intros k inp s0 Hk [[Hlt Hat0] | [Heq _]] _; [| lia].
    split; [apply (Starter_at_phase _ _ _ _ Hat0)|].
    eexists. split; [reflexivity|].
    destruct (Nat.eq_dec k (Z.to_nat 15000)) as [Hk0 | Hk0].
    + replace (1 + Z.of_nat k)%Z with 15001%Z in Hat0 by lia.
      right. split; [lia|].
      apply (Starter_track_exit T inp s0 Hat0 T_long_enough).
    + left. split; [lia|].
      replace (1 + Z.of_nat (S k))%Z with (1 + Z.of_nat k + 1)%Z by lia.
      apply (Starter_track_stay T inp s0 _ Hat0). lia.
  - intros; exact I.
  - left. split; [lia | exact Hat].
  - rewrite Hlen in Hs', Htr.
    destruct Hs' as [[Hlt _] | [_ Hat']]; [lia|].
    exists s'. split; [unfold_loop Hloop | split; [exact Hat' | exact Htr]].
Qed.

(** SHOT: [n] iterations, [n] being the first tick count whose time is
    past [t_3 + T]. *)
Lemma Starter_shot_stage (n : nat) (shot : list Starter.TickInput)
      (s : Starter.World) :
  Starter_at T EXECUTE_MODE Starter.JOINT_CONTROLLER_SHOT 1 s ->
  IZR (Z.of_nat n - 1) * dt <= 15 + T ->
  15 + T < IZR (Z.of_nat n) * dt ->
  (Z.of_nat n + 1 < ULLONG_MODULUS)%Z ->
  List.length shot = n ->
  exists s',
    Starter.loop shot s = s' /\
    Starter_at T EXECUTE_MODE Starter.POSORI_CONTROLLER (Z.of_nat n + 1) s' /\
    forall rest,
      map Starter.phase (Starter.trace (shot ++ rest) s) =
      repeat E_SHOT n ++ map Starter.phase (Starter.trace rest s').
Proof.
  intros Hat Hlo Hhi Hwrap Hlen.
  destruct (stage _ _ _ Starter_some_step Starter_some_loop Starter.trace Starter.phase
                  (fun _ => eq_refl) (fun _ _ _ => eq_refl) (fun _ _ _ => eq_refl) E_SHOT shot
                  (fun k s =>
                     ((k < n)%nat /\
                      Starter_at T EXECUTE_MODE Starter.JOINT_CONTROLLER_SHOT
                                 (1 + Z.of_nat k) s) \/
                     (k = n /\
                      Starter_at T EXECUTE_MODE Starter.POSORI_CONTROLLER
                                 (Z.of_nat n + 1) s))
                  (fun _ _ => True))
    with (s := s) as (s' & Hloop & Hs' & Htr).
  - intros k inp s0 Hk [[Hlt Hat0] | [Heq _]] _; [| lia].
    split; [apply (Starter_at_phase _ _ _ _ Hat0)|].
    eexists. split; [reflexivity|].
    destruct (Nat.eq_dec (S k) n) as [Hk0 | Hk0].
    + right. split; [lia|].
      replace (Z.of_nat n + 1)%Z with (1 + Z.of_nat k + 1)%Z by lia.
      apply (Starter_shot_exit T inp s0 _ Hat0); [lia | lia |].
      replace (1 + Z.of_nat k)%Z with (Z.of_nat n) by lia. lra.
    + left. split; [lia|].
      replace (1 + Z.of_nat (S k))%Z with (1 + Z.of_nat k + 1)%Z by lia.
      apply (Starter_shot_stay T inp s0 _ Hat0); [lia | lia |].
      pose proof (IZR_le (1 + Z.of_nat k) (Z.of_nat n - 1) ltac:(lia)) as Hle.
      unfold dt in *. lra.
  - intros; exact I.
  - left. split; [|exact Hat].
    destruct n; [|lia]. simpl in Hhi. unfold dt in Hhi. lra.
  - rewrite Hlen in Hs', Htr.
    destruct Hs' as [[Hlt _] | [_ Hat']]; [lia|].
    exists s'. split; [unfold_loop Hloop | split; [exact Hat' | exact Htr]].
Qed.

(** RETURN, entered with the counter at [c0]: on [ret] the robot is not
    settled, or the time is not past [t_4]; on [i4] both hold. *)
Lemma Starter_return_stage (c0 : Z) (ret : list Starter.TickInput)
      (i4 : Starter.TickInput) (s : Starter.World) :
  Starter_at T EXECUTE_MODE Starter.POSORI_CONTROLLER c0 s ->
  (0 <= c0)%Z ->
  IZR c0 * dt > 15 + T ->
  (forall k inp,
      nth_error ret k = Some inp ->
      Starter_settled_at_home inp && gt_d (IZR (c0 + Z.of_nat k) * dt) 20 = false) ->
  Starter_settled_at_home i4 = true ->
  IZR (c0 + Z.of_nat (List.length ret)) * dt > 20 ->
  (c0 + Z.of_nat (List.length ret) < ULLONG_MODULUS)%Z ->
  exists s',
    Starter.loop (ret ++ [i4]) s = s' /\
    Starter.phase s' = (WAIT_MODE, Starter.JOINT_CONTROLLER) /\
    forall rest,
      map Starter.phase (Starter.trace ((ret ++ [i4]) ++ rest) s) =
      repeat E_POSORI (S (List.length ret)) ++
      map Starter.phase (Starter.trace rest s').
Proof.
  intros Hat Hc0 Ht0 Hret Hi4 Ht4 Hwrap.
  destruct (stage _ _ _ Starter_some_step Starter_some_loop Starter.trace Starter.phase
                  (fun _ => eq_refl) (fun _ _ _ => eq_refl) (fun _ _ _ => eq_refl) E_POSORI (ret ++ [i4])
                  (fun k s =>
                     ((k <= List.length ret)%nat /\
                      Starter_at T EXECUTE_MODE Starter.POSORI_CONTROLLER
                                 (c0 + Z.of_nat k) s) \/
                     (k = S (List.length ret) /\
                      exists c, Starter_at T WAIT_MODE Starter.JOINT_CONTROLLER c s))
                  (fun k inp =>
                     ((k < List.length ret)%nat /\
                      Starter_settled_at_home inp &&
                      gt_d (IZR (c0 + Z.of_nat k) * dt) 20 = false) \/
                     (k = List.length ret /\
                      Starter_settled_at_home inp = true)))
    with (s := s) as (s' & Hloop & Hs' & Htr).
  - intros k inp s0 Hk [[Hle Hat0] | [Heq _]] HG;
      [| rewrite length_app in Hk; simpl in Hk; lia].
    split; [apply (Starter_at_phase _ _ _ _ Hat0)|].
    eexists. split; [reflexivity|].
    assert (Htk : IZR (c0 + Z.of_nat k) * dt > 15 + T).
    { pose proof (IZR_le c0 (c0 + Z.of_nat k) ltac:(lia)) as Hle'.
      unfold dt in *. lra. }
    destruct HG as [[Hlt Hg] | [Heq Hg]].
    + left. split; [lia|].
      replace (c0 + Z.of_nat (S k))%Z with (c0 + Z.of_nat k + 1)%Z by lia.
      apply (Starter_return_stay T inp s0 _ Hat0); [lia | lia | exact Htk | exact Hg].
    + right. split; [lia|]. eexists.
      apply (Starter_return_exit T inp s0 _ Hat0); [exact Htk | exact Hg |].
      subst k. exact Ht4.
  - intros k inp Hnth.
    apply nth_error_app_last in Hnth.
    destruct Hnth as [[Hlt Hn] | [Heq ->]].
    + left. split; [exact Hlt | apply Hret; exact Hn].
    + right. split; assumption.
  - left. split; [lia|]. replace (c0 + Z.of_nat 0)%Z with c0 by lia. exact Hat.
  - rewrite length_app in Hs', Htr. simpl in Hs', Htr.
    replace (List.length ret + 1)%nat with (S (List.length ret)) in Hs', Htr by lia.
    destruct Hs' as [[Hle _] | [_ [c Hat']]]; [lia|].
    exists s'. split; [unfold_loop Hloop|].
    split; [apply (Starter_at_phase _ _ _ _ Hat') | exact Htr].
Qed.

(** The whole cycle. *)
Lemma Starter_execute_cycle (s : Starter.World) (n : nat)
      (pre : list Starter.TickInput) (i1 : Starter.TickInput)
      (mid ret : list Starter.TickInput) (i4 : Starter.TickInput) :
  Starter_calibrated T s ->
  Starter.phase s = (EXECUTE_MODE, Starter.JOINT_CONTROLLER) ->
  Forall (fun inp => Starter.reached_joint_goal inp = false) pre ->
  Starter.reached_joint_goal i1 = true ->
  IZR (Z.of_nat n - 1) * dt <= 15 + T ->
  15 + T < IZR (Z.of_nat n) * dt ->
  List.length mid = (Z.to_nat 15001 + n)%nat ->
  (forall k inp,
      nth_error ret k = Some inp ->
      Starter_settled_at_home inp &&
      gt_d (IZR (Z.of_nat n + 1 + Z.of_nat k) * dt) 20 = false) ->
  Starter_settled_at_home i4 = true ->
  IZR (Z.of_nat n + 1 + Z.of_nat (List.length ret)) * dt > 20 ->
  (Z.of_nat n + 1 + Z.of_nat (List.length ret) < ULLONG_MODULUS)%Z ->
  map Starter.phase (Starter.trace (pre ++ [i1] ++ mid ++ ret ++ [i4]) s) =
  repeat (EXECUTE_MODE, Starter.JOINT_CONTROLLER) (S (List.length pre)) ++
  repeat (EXECUTE_MODE, Starter.POSORI_CONTROLLER) (Z.to_nat 15001) ++
  repeat (EXECUTE_MODE, Starter.JOINT_CONTROLLER_SHOT) n ++
  repeat (EXECUTE_MODE, Starter.POSORI_CONTROLLER) (S (List.length ret)) ++
  [(WAIT_MODE, Starter.JOINT_CONTROLLER)].
Proof.
  intros Hcal Hph Hpre Hi1 Hlo Hhi Hmid Hret Hi4 Ht4 Hwrap.
  unfold Starter.phase in Hph. injection Hph as Hm Hst.
  assert (Hat : Starter_at T EXECUTE_MODE Starter.JOINT_CONTROLLER
                           (Starter.controller_counter (Starter.globals s)) s)
    by (unfold Starter_at; auto).
  destruct (Starter_approach_stage pre i1 s _ Hat Hpre Hi1) as (s1 & Hl1 & Hat1 & Htr1).
  destruct (Starter_track_stage (firstn (Z.to_nat 15001) mid) s1 Hat1)
    as (s2 & Hl2 & Hat2 & Htr2); [rewrite length_firstn; lia|].
  destruct (Starter_shot_stage n (skipn (Z.to_nat 15001) mid) s2 Hat2 Hlo Hhi)
    as (s3 & Hl3 & Hat3 & Htr3); [lia | rewrite length_skipn; lia|].
  destruct (Starter_return_stage (Z.of_nat n + 1) ret i4 s3 Hat3) as (s4 & Hl4 & Hph4 & Htr4).
  - lia.
  - pose proof (IZR_le (Z.of_nat n) (Z.of_nat n + 1) ltac:(lia)) as Hle.
    unfold dt in *. lra.
  - exact Hret.
  - exact Hi4.
  - exact Ht4.
  - exact Hwrap.
  - replace (pre ++ [i1] ++ mid ++ ret ++ [i4])
      with ((pre ++ [i1]) ++
            firstn (Z.to_nat 15001) mid ++
            skipn (Z.to_nat 15001) mid ++ (ret ++ [i4]) ++ []).
    + rewrite Htr1, Htr2, Htr3, Htr4. simpl. rewrite Hph4. reflexivity.
    + rewrite app_nil_r, <- !app_assoc.
      rewrite (app_assoc (firstn _ mid)), firstn_skipn. reflexivity.
Qed.

End StarterCycle.

(** ** The phases of an EXECUTE cycle *)

Lemma squaredNorm_vminus_self (v : VectorXd) : squaredNorm (vminus v v) = 0.
Proof.
  induction v as [|x v IH]; [reflexivity|].
  unfold squaredNorm in *. simpl. rewrite IH. ring.
Qed.

Lemma norm_vminus_self (v : VectorXd) : norm (vminus v v) = 0.
Proof. unfold norm. rewrite squaredNorm_vminus_self. apply sqrt_0. Qed.

Lemma error_norm_at_rest (p : Vector3d) :
  error_norm (toVectorXd p) (toVectorXd p) (toVectorXd zero3) (toVectorXd zero3)
             (toVectorXd zero3) (toVectorXd zero3) = 0.
Proof.
  unfold error_norm. rewrite norm_vminus_self.
  change (toVectorXd zero3) with [0; 0; 0]. rewrite norm_Zero3. ring.
Qed.

Lemma Interface_quiet_reached_joint_goal :
  Interface.reached_joint_goal Interface_quiet = true.
Proof.
  unfold Interface.reached_joint_goal, Interface_quiet. cbn [Interface.in_q].
  rewrite norm_vminus_self. apply lt_d_true. lra.
Qed.

Lemma Interface_quiet_settled_at_home :
  Interface_settled_at_home Interface_quiet = true.
Proof.
  unfold Interface_settled_at_home, Interface.robotReachedGoal, Interface_quiet.
  cbn [Interface.in_x Interface.in_xdot Interface.in_xddot Interface.in_omega
       Interface.in_alpha].
  rewrite error_norm_at_rest.
  replace (lt_d 0 Interface.epsilon) with true; [reflexivity|].
  symmetry. apply lt_d_true. unfold Interface.epsilon. lra.
Qed.

Lemma Interface_cycle_start_calibrated : Interface_calibrated Interface_cycle_start.
Proof. unfold Interface_calibrated; cbn; repeat split; reflexivity. Qed.

Lemma Starter_quiet_reached_joint_goal :
  Starter.reached_joint_goal Starter_quiet = true.
Proof.
  unfold Starter.reached_joint_goal, Starter_quiet. cbn [Starter.in_q].
  rewrite norm_vminus_self. apply lt_d_true. lra.
Qed.

Lemma Starter_quiet_settled_at_home :
  Starter_settled_at_home Starter_quiet = true.
Proof.
  unfold Starter_settled_at_home, Starter.robotReachedGoal, Starter_quiet.
  cbn [Starter.in_x Starter.in_xdot Starter.in_xddot Starter.in_omega
       Starter.in_alpha].
  rewrite error_norm_at_rest.
  replace (lt_d 0 Starter.epsilon) with true; [reflexivity|].
  symmetry. apply lt_d_true. unfold Starter.epsilon. lra.
Qed.

Lemma Starter_cycle_start_calibrated : Starter_calibrated 5 Starter_cycle_start.
Proof.
  unfold Starter_calibrated; cbn; repeat split; try reflexivity.
  unfold Starter.flick_time. cbv zeta.
  replace (0 * M_PI / 180.0 + 180.0 - 0 * M_PI / 180.0) with 180 by lra.
  rewrite Rabs_pos_eq by lra. unfold Starter.ee_length. field. split; lra.
Qed.

(** ** Every cycle of a run starts in APPROACH *)

Lemma incr_ull_range (c : Z) : (0 <= incr_ull c < ULLONG_MODULUS)%Z.
Proof. unfold incr_ull. apply Z.mod_pos_bound. unfold ULLONG_MODULUS. lia. Qed.

Lemma incr_ull_cases (c : Z) :
  (0 <= c < ULLONG_MODULUS)%Z ->
  incr_ull c = (c + 1)%Z \/ incr_ull c = 0%Z.
Proof.
  intros Hc.
  destruct (Z.eq_dec (c + 1) ULLONG_MODULUS) as [He | Hne].
  - right. unfold incr_ull. rewrite He. apply Z.mod_same. unfold ULLONG_MODULUS. lia.
  - left. apply incr_ull_small; lia.
Qed.

(** An iteration in WAIT writes neither the boundaries, nor the shot
    duration, nor the phase variable, nor the counter. *)
Lemma Interface_step_wait_control (stod : string -> option double)
      (inp : Interface.TickInput) (s s' : Interface.World) :
  Interface.mode (Interface.globals s) = WAIT_MODE ->
  Interface.step stod inp s = Some s' ->
  Interface_same_window s s' /\
  Interface.total_time (Interface.locals s') = Interface.total_time (Interface.locals s) /\
  Interface.state (Interface.globals s') = Interface.state (Interface.globals s) /\
  Interface.controller_counter (Interface.globals s') =
  Interface.controller_counter (Interface.globals s).
Proof.
  intros Hwait.
  unfold Interface.step, Interface.wait_mode. cbn. rewrite Hwait. cbn.
  unfold Interface_same_window.
  destruct (String.eqb _ _).
  - destruct (stod _); [|discriminate].
    destruct (stod _); [|discriminate].
    destruct (stod _); [|discriminate].
    cbn. intros H. injection H as <-.
    destruct (le_d _ _ && ge_d _ _); cbn; repeat split; reflexivity.
  - intros H. injection H as <-. cbn. repeat split; reflexivity.
Qed.

Lemma Interface_step_invariant (stod : string -> option double)
      (inp : Interface.TickInput) (s s' : Interface.World) :
  Interface_run_invariant s ->
  Interface.step stod inp s = Some s' ->
  Interface_run_invariant s'.
Proof.
  intros (Hcal & Hc & Hst) Hstep.
  destruct (Interface.mode (Interface.globals s)) eqn:Hmode.
  - (* WAIT *)
    destruct (Interface_step_wait_control stod inp s s' Hmode Hstep)
      as (Hwin & HT & Hst' & Hcnt).
    pose proof (Interface_calibrated_preserved s s' Hcal Hwin HT) as Hcal'.
    unfold Interface_run_invariant. rewrite Hst', Hcnt.
    split; [exact Hcal'|]. split; [exact Hc|].
    destruct (Interface.state (Interface.globals s)).
    + exact I.
    + destruct Hst as [Hd _]. discriminate Hd.
    + destruct Hst as [Hd _]. discriminate Hd.
    + destruct Hst.
  - (* EXECUTE *)
    destruct (Interface_step_execute_control stod inp s Hmode)
      as (s1 & Hs1 & Hwin & HT & Hph & Hcnt).
    rewrite Hstep in Hs1. injection Hs1 as <-.
    pose proof (Interface_calibrated_preserved s s' Hcal Hwin HT) as Hcal'.
    cbv zeta in Hph, Hcnt.
    rewrite (Interface_final_goal_calibrated inp _ s Hcal) in Hph.
    destruct Hcal as (_ & _ & _ & H3 & H4 & HT0).
    rewrite H3, H4, HT0 in Hph. unfold Interface.seconds, dt in Hph.
    set (c := Interface.controller_counter (Interface.globals s)) in *.
    unfold Interface_run_invariant. split; [exact Hcal'|].
    unfold Interface.phase in Hph.
    destruct (Interface.state (Interface.globals s)) eqn:Hstate.
    + (* JOINT_CONTROLLER *)
      injection Hph as Hm' Hst'. rewrite Hst', Hcnt, Hm'.
      split; [apply incr_ull_range|].
      destruct (Interface.reached_joint_goal inp); [|exact I].
      split; [reflexivity|]. left.
      rewrite incr_ull_small by (unfold ULLONG_MODULUS; lia). lia.
    + (* POSORI_CONTROLLER *)
      destruct Hst as [_ Hrange].
      rewrite Hcnt. split; [apply incr_ull_range|].
      destruct (gt_d (IZR c * 0.001) 12 && lt_d (IZR c * 0.001) (12 + 1.3)) eqn:Hshoot.
      * apply andb_true_iff in Hshoot. destruct Hshoot as [Hs1 Hs2]. cmp_prop.
        assert (Hc12 : (12000 < c)%Z).
        { apply lt_IZR. lra. }
        assert (Hc13 : (c < 13300)%Z).
        { apply lt_IZR. lra. }
        assert (Hceq : c = 12001%Z) by lia.
        injection Hph as Hm' Hst'. rewrite Hst'.
        assert (Hf : gt_d (IZR c * 0.001) 13 = false).
        { apply gt_d_false. rewrite Hceq. lra. }
        rewrite Hf, andb_false_r in Hm'.
        split; [exact Hm'|].
        rewrite incr_ull_small by (unfold ULLONG_MODULUS; lia). lia.
      * destruct (Interface_settled_at_home inp && gt_d (IZR c * 0.001) 13) eqn:Hfinal;
          injection Hph as Hm' Hst'; rewrite Hst'; [exact I|].
        split; [exact Hm'|].
        destruct (incr_ull_cases c Hc) as [-> | ->]; [|left; lia].
        destruct Hrange as [Hlow | Hhigh]; [|right; lia].
        left.
        destruct (Z.eq_dec c 12001) as [Heq | Hne]; [|lia].
        exfalso. rewrite Heq in Hshoot.
        apply andb_false_iff in Hshoot. destruct Hshoot; cmp_prop; lra.
    + (* JOINT_CONTROLLER_SHOT *)
      destruct Hst as [_ Hrange].
      rewrite Hcnt. split; [apply incr_ull_range|].
      rewrite incr_ull_small by (unfold ULLONG_MODULUS; lia).
      injection Hph as Hm' Hst'. rewrite Hst'.
      destruct (gt_d (IZR c * 0.001) (13 + 1.3)) eqn:Hdone; cmp_prop.
      * split; [exact Hm'|]. right.
        assert (14300 < c)%Z by (apply lt_IZR; lra). lia.
      * split; [exact Hm'|].
        assert (c <= 14300)%Z by (apply le_IZR; lra). lia.
    + destruct Hst.
Qed.

Lemma Interface_init_invariant (u : Interface.Indeterminate) (store : Interface.Redis) :
  Interface_run_invariant (Interface.init u store).
Proof.
  unfold Interface_run_invariant, Interface_calibrated. cbn.
  repeat split; try reflexivity; unfold ULLONG_MODULUS; lia.
Qed.

Lemma Interface_loop_invariant (stod : string -> option double)
      (inputs : list Interface.TickInput) :
  forall s s',
    Interface_run_invariant s ->
    Interface.loop stod inputs s = Some s' ->
    Interface_run_invariant s'.
Proof.
  induction inputs as [|inp rest IH]; intros s s' Hinv Hloop.
  - injection Hloop as <-. exact Hinv.
  - cbn [Interface.loop] in Hloop.
    destruct (Interface.step stod inp s) as [s1|] eqn:Hstep; [|discriminate].
    apply (IH s1 s'); [|exact Hloop].
    exact (Interface_step_invariant stod inp s s1 Hinv Hstep).
Qed.

(** Whatever the run did before, an iteration that takes the mode from WAIT
    to EXECUTE leaves the loop at the start of a cycle. *)
Lemma Interface_cycle_starts_in_approach (stod : string -> option double)
      (u : Interface.Indeterminate) (store : Interface.Redis)
      (inputs : list Interface.TickInput) (inp : Interface.TickInput)
      (s s' : Interface.World) :
  Interface.loop stod inputs (Interface.init u store) = Some s ->
  Interface.mode (Interface.globals s) = WAIT_MODE ->
  Interface.step stod inp s = Some s' ->
  Interface.mode (Interface.globals s') = EXECUTE_MODE ->
  Interface_calibrated s' /\
  Interface.phase s' = (EXECUTE_MODE, Interface.JOINT_CONTROLLER).
Proof.
  intros Hloop Hwait Hstep Hexec.
  pose proof (Interface_loop_invariant stod inputs _ _
                (Interface_init_invariant u store) Hloop) as Hinv.
  pose proof (Interface_step_invariant stod inp s s' Hinv Hstep) as (Hcal' & _).
  split; [exact Hcal'|].
  destruct (Interface_step_wait_control stod inp s s' Hwait Hstep)
    as (_ & _ & Hst' & _).
  unfold Interface.phase. rewrite Hexec, Hst'.
  destruct Hinv as (_ & _ & Hst). rewrite Hwait in Hst.
  destruct (Interface.state (Interface.globals s)).
  - reflexivity.
  - destruct Hst as [Hd _]. discriminate Hd.
  - destruct Hst as [Hd _]. discriminate Hd.
  - destruct Hst.
Qed.

Lemma Starter_step_wait_control (inp : Starter.TickInput) (s : Starter.World) :
  Starter.mode (Starter.globals s) = WAIT_MODE ->
  Starter_same_window s (Starter.step inp s) /\
  Starter.total_time (Starter.locals (Starter.step inp s)) =
  Starter.total_time (Starter.locals s) /\
  Starter.state (Starter.globals (Starter.step inp s)) =
  Starter.state (Starter.globals s) /\
  Starter.controller_counter (Starter.globals (Starter.step inp s)) =
  Starter.controller_counter (Starter.globals s).
Proof.
  intros Hwait.
  unfold Starter.step, Starter.wait_mode. cbn. rewrite Hwait. cbn.
  unfold Starter_same_window.
  destruct (String.eqb _ _); cbn; repeat split; reflexivity.
Qed.

Lemma Starter_step_invariant (T : double) (inp : Starter.TickInput)
      (s : Starter.World) :
  Starter_run_invariant T s ->
  Starter_run_invariant T (Starter.step inp s).
Proof.
  intros (Hcal & Hc & Hst).
  destruct (Starter.mode (Starter.globals s)) eqn:Hmode.
  - (* WAIT *)
    destruct (Starter_step_wait_control inp s Hmode) as (Hwin & HT & Hst' & Hcnt).
    pose proof (Starter_calibrated_preserved T s _ Hcal Hwin HT) as Hcal'.
    unfold Starter_run_invariant. rewrite Hst', Hcnt.
    split; [exact Hcal'|]. split; [exact Hc|].
    destruct (Starter.state (Starter.globals s)).
    + exact I.
    + destruct Hst as [Hd _]. discriminate Hd.
    + discriminate Hst.
  - (* EXECUTE *)
    destruct (Starter_step_execute_control inp s Hmode) as (Hwin & HT & Hph & Hcnt).
    pose proof (Starter_calibrated_preserved T s _ Hcal Hwin HT) as Hcal'.
    cbv zeta in Hph, Hcnt.
    rewrite (Starter_final_goal_calibrated T inp _ s Hcal) in Hph.
    destruct Hcal as (_ & _ & _ & H3 & H4 & HT0).
    rewrite H3, HT0 in Hph, Hcnt. unfold Starter.seconds in Hph, Hcnt.
    set (c := Starter.controller_counter (Starter.globals s)) in *.
    unfold Starter_run_invariant. split; [exact Hcal'|].
    unfold Starter.phase in Hph.
    destruct (Starter.state (Starter.globals s)) eqn:Hstate.
    + (* JOINT_CONTROLLER *)
      injection Hph as Hm' Hst'. rewrite Hst', Hcnt, Hm'.
      split; [apply incr_ull_range|].
      destruct (Starter.reached_joint_goal inp); [|exact I].
      split; [reflexivity|]. left.
      rewrite incr_ull_small by (unfold ULLONG_MODULUS; lia). lia.
    + (* POSORI_CONTROLLER *)
      destruct Hst as [_ Hrange].
      rewrite Hcnt. split; [apply incr_ull_range|].
      destruct (gt_d (IZR c * dt) 15 && lt_d (IZR c * dt) (15 + T)) eqn:Hshoot.
      * injection Hph as Hm' Hst'. rewrite Hst'.
        apply andb_true_iff in Hshoot. destruct Hshoot as [Hs1 Hs2]. cmp_prop.
        destruct Hrange as [Hlow | Hhigh]; [|lra].
        assert (Hf : gt_d (IZR c * dt) 20 = false).
        { apply gt_d_false. apply IZR_le in Hlow. unfold dt. lra. }
        rewrite Hf, andb_false_r in Hm'. exact Hm'.
      * destruct (Starter_settled_at_home inp && gt_d (IZR c * dt) 20) eqn:Hfinal;
          injection Hph as Hm' Hst'; rewrite Hst'; [exact I|].
        split; [exact Hm'|].
        destruct (incr_ull_cases c Hc) as [-> | ->]; [|left; lia].
        rewrite plus_IZR.
        destruct Hrange as [Hlow | Hhigh]; [|right; unfold dt in *; lra].
        destruct (Z.eq_dec c 15001) as [Heq | Hne]; [|left; lia].
        right.
        apply andb_false_iff in Hshoot.
        destruct Hshoot as [Hs | Hs]; cmp_prop; rewrite Heq in Hs;
          unfold dt in *; rewrite Heq; lra.
    + (* JOINT_CONTROLLER_SHOT *)
      rewrite Hcnt. split; [apply incr_ull_range|].
      injection Hph as Hm' Hst'. rewrite Hst'.
      destruct (gt_d (IZR c * dt) (15 + T)) eqn:Hdone; cmp_prop; [|exact Hm'].
      split; [exact Hm'|].
      destruct (incr_ull_cases c Hc) as [-> | ->]; [|left; lia].
      right. rewrite plus_IZR. unfold dt in *. lra.
Qed.

Lemma Starter_init_invariant (u : Starter.Setup) (store : Starter.Redis) :
  Starter_run_invariant (Starter_shot_duration u) (Starter.init u store).
Proof.
  unfold Starter_run_invariant, Starter_calibrated, Starter_shot_duration. cbn.
  repeat split; try reflexivity; unfold ULLONG_MODULUS; lia.
Qed.

Lemma Starter_loop_invariant (T : double) (inputs : list Starter.TickInput) :
  forall s,
    Starter_run_invariant T s ->
    Starter_run_invariant T (Starter.loop inputs s).
Proof.
  induction inputs as [|inp rest IH]; intros s Hinv.
  - exact Hinv.
  - cbn [Starter.loop]. apply IH. apply Starter_step_invariant. exact Hinv.
Qed.

Lemma Starter_cycle_starts_in_approach (u : Starter.Setup) (store : Starter.Redis)
      (inputs : list Starter.TickInput) (inp : Starter.TickInput) :
  let s := Starter.loop inputs (Starter.init u store) in
  Starter.mode (Starter.globals s) = WAIT_MODE ->
  Starter.mode (Starter.globals (Starter.step inp s)) = EXECUTE_MODE ->
  Starter_calibrated (Starter_shot_duration u) (Starter.step inp s) /\
  Starter.phase (Starter.step inp s) = (EXECUTE_MODE, Starter.JOINT_CONTROLLER).
Proof.
  intros s Hwait Hexec.
  pose proof (Starter_loop_invariant _ inputs _ (Starter_init_invariant u store))
    as Hinv.
  fold s in Hinv.
  pose proof (Starter_step_invariant _ inp s Hinv) as (Hcal' & _).
  split; [exact Hcal'|].
  destruct (Starter_step_wait_control inp s Hwait) as (_ & _ & Hst' & _).
  unfold Starter.phase. rewrite Hexec, Hst'.
  destruct Hinv as (_ & _ & Hst). rewrite Hwait in Hst.
  destruct (Starter.state (Starter.globals s)).
  - reflexivity.
  - destruct Hst as [Hd _]. discriminate Hd.
  - discriminate Hst.
Qed.

(** C1.  An EXECUTE cycle starts in mode EXECUTE with the phase variable at
    JOINT_CONTROLLER (APPROACH).  Let the joint goal be missed on the
    iterations [pre] and met on [i1], let the robot be unsettled on the
    iterations [ret] of the return and settled (with the time past [t_4]) on
    [i4], and let the tick counter not wrap meanwhile (the clock is
    monotone); the iterations [mid] between are those the two timed phases
    last.  Then the worlds at the top of the iterations are in
    JOINT_CONTROLLER (APPROACH), then POSORI_CONTROLLER (TRACK), then
    JOINT_CONTROLLER_SHOT (SHOT), then POSORI_CONTROLLER again (RETURN), each
    in one unbroken stretch and all in mode EXECUTE, and the world after [i4]
    is in mode WAIT with the phase variable back at JOINT_CONTROLLER.  The
    first part is the interface variant, the second the starter variant,
    whose shot lasts the [T] seconds computed at start-up, [n] iterations.
    The last two parts say that every cycle of a run starts so: whatever
    the iterations before did, the iteration that takes the mode from WAIT
    to EXECUTE leaves the boundaries and the shot duration at their start-up
    values and the phase variable at JOINT_CONTROLLER. *)
Theorem execute_cycle_visits_phases_in_order :
  (forall (stod : string -> option double) (s : Interface.World)
          (pre : list Interface.TickInput) (i1 : Interface.TickInput)
          (mid ret : list Interface.TickInput) (i4 : Interface.TickInput),
      Interface_calibrated s ->
      Interface.phase s = (EXECUTE_MODE, Interface.JOINT_CONTROLLER) ->
      Forall (fun inp => Interface.reached_joint_goal inp = false) pre ->
      Interface.reached_joint_goal i1 = true ->
      List.length mid = Z.to_nat 14301 ->
      Forall (fun inp => Interface_settled_at_home inp = false) ret ->
      Interface_settled_at_home i4 = true ->
      (14302 + Z.of_nat (List.length ret) < ULLONG_MODULUS)%Z ->
      map Interface.phase
          (Interface.trace stod (pre ++ [i1] ++ mid ++ ret ++ [i4]) s) =
      repeat (EXECUTE_MODE, Interface.JOINT_CONTROLLER) (S (List.length pre)) ++
      repeat (EXECUTE_MODE, Interface.POSORI_CONTROLLER) (Z.to_nat 12001) ++
      repeat (EXECUTE_MODE, Interface.JOINT_CONTROLLER_SHOT) (Z.to_nat 2300) ++
      repeat (EXECUTE_MODE, Interface.POSORI_CONTROLLER) (S (List.length ret)) ++
      [(WAIT_MODE, Interface.JOINT_CONTROLLER)]) /\
  (forall (T : double) (s : Starter.World) (n : nat)
          (pre : list Starter.TickInput) (i1 : Starter.TickInput)
          (mid ret : list Starter.TickInput) (i4 : Starter.TickInput),
      T > 0.001 ->
      Starter_calibrated T s ->
      Starter.phase s = (EXECUTE_MODE, Starter.JOINT_CONTROLLER) ->
      Forall (fun inp => Starter.reached_joint_goal inp = false) pre ->
      Starter.reached_joint_goal i1 = true ->
      IZR (Z.of_nat n - 1) * dt <= 15 + T ->
      15 + T < IZR (Z.of_nat n) * dt ->
      List.length mid = (Z.to_nat 15001 + n)%nat ->
      (forall k inp,
          nth_error ret k = Some inp ->
          Starter_settled_at_home inp &&
          gt_d (IZR (Z.of_nat n + 1 + Z.of_nat k) * dt) 20 = false) ->
      Starter_settled_at_home i4 = true ->
      IZR (Z.of_nat n + 1 + Z.of_nat (List.length ret)) * dt > 20 ->
      (Z.of_nat n + 1 + Z.of_nat (List.length ret) < ULLONG_MODULUS)%Z ->
      map Starter.phase (Starter.trace (pre ++ [i1] ++ mid ++ ret ++ [i4]) s) =
      repeat (EXECUTE_MODE, Starter.JOINT_CONTROLLER) (S (List.length pre)) ++
      repeat (EXECUTE_MODE, Starter.POSORI_CONTROLLER) (Z.to_nat 15001) ++
      repeat (EXECUTE_MODE, Starter.JOINT_CONTROLLER_SHOT) n ++
      repeat (EXECUTE_MODE, Starter.POSORI_CONTROLLER) (S (List.length ret)) ++
      [(WAIT_MODE, Starter.JOINT_CONTROLLER)]) /\
  (forall (stod : string -> option double) (u : Interface.Indeterminate)
          (store : Interface.Redis) (inputs : list Interface.TickInput)
          (inp : Interface.TickInput) (s s' : Interface.World),
      Interface.loop stod inputs (Interface.init u store) = Some s ->
      Interface.mode (Interface.globals s) = WAIT_MODE ->
      Interface.step stod inp s = Some s' ->
      Interface.mode (Interface.globals s') = EXECUTE_MODE ->
      Interface_calibrated s' /\
      Interface.phase s' = (EXECUTE_MODE, Interface.JOINT_CONTROLLER)) /\
  (forall (u : Starter.Setup) (store : Starter.Redis)
          (inputs : list Starter.TickInput) (inp : Starter.TickInput),
      let s := Starter.loop inputs (Starter.init u store) in
      Starter.mode (Starter.globals s) = WAIT_MODE ->
      Starter.mode (Starter.globals (Starter.step inp s)) = EXECUTE_MODE ->
      Starter_calibrated (Starter_shot_duration u) (Starter.step inp s) /\
      Starter.phase (Starter.step inp s) = (EXECUTE_MODE, Starter.JOINT_CONTROLLER)).
Proof.
  split; [|split; [|split]].
  - intros stod s pre i1 mid ret i4. apply Interface_execute_cycle.
  - intros T s n pre i1 mid ret i4 HT. apply Starter_execute_cycle. exact HT.
  - exact Interface_cycle_starts_in_approach.
  - exact Starter_cycle_starts_in_approach.
Qed.

(** The cycle of the sample run: the joint goal is met at once, and the
    robot is settled as soon as the shot is over.  The first iteration of a
    run that finds the token "execute" in the store starts such a cycle. *)
Lemma execute_cycle_sample_run :
  map Interface.phase
      (Interface.trace stod_throws
                       ([] ++ [Interface_quiet] ++
                        repeat Interface_quiet (Z.to_nat 14301) ++
                        [] ++ [Interface_quiet])
                       Interface_cycle_start) =
  repeat (EXECUTE_MODE, Interface.JOINT_CONTROLLER) 1 ++
  repeat (EXECUTE_MODE, Interface.POSORI_CONTROLLER) (Z.to_nat 12001) ++
  repeat (EXECUTE_MODE, Interface.JOINT_CONTROLLER_SHOT) (Z.to_nat 2300) ++
  repeat (EXECUTE_MODE, Interface.POSORI_CONTROLLER) 1 ++
  [(WAIT_MODE, Interface.JOINT_CONTROLLER)] /\
  map Starter.phase
      (Starter.trace ([] ++ [Starter_quiet] ++
                      repeat Starter_quiet (Z.to_nat 15001 + Z.to_nat 20001) ++
                      [] ++ [Starter_quiet])
                     Starter_cycle_start) =
  repeat (EXECUTE_MODE, Starter.JOINT_CONTROLLER) 1 ++
  repeat (EXECUTE_MODE, Starter.POSORI_CONTROLLER) (Z.to_nat 15001) ++
  repeat (EXECUTE_MODE, Starter.JOINT_CONTROLLER_SHOT) (Z.to_nat 20001) ++
  repeat (EXECUTE_MODE, Starter.POSORI_CONTROLLER) 1 ++
  [(WAIT_MODE, Starter.JOINT_CONTROLLER)] /\
  (exists s',
      Interface.step stod_sample Interface_quiet
                     (Interface.init Interface_u0 Interface_store0) = Some s' /\
      Interface_calibrated s' /\
      Interface.phase s' = (EXECUTE_MODE, Interface.JOINT_CONTROLLER)) /\
  Starter_calibrated
    (Starter_shot_duration Starter_u0)
    (Starter.step Starter_quiet
                  (Starter.init Starter_u0 (Starter.mkRedis "execute" []))) /\
  Starter.phase
    (Starter.step Starter_quiet
                  (Starter.init Starter_u0 (Starter.mkRedis "execute" []))) =
  (EXECUTE_MODE, Starter.JOINT_CONTROLLER).
Proof.
  split; [|split; [|split]].
  - apply (proj1 execute_cycle_visits_phases_in_order).
    + exact Interface_cycle_start_calibrated.
    + reflexivity.
    + constructor.
    + exact Interface_quiet_reached_joint_goal.
    + apply repeat_length.
    + constructor.
    + exact Interface_quiet_settled_at_home.
    + unfold ULLONG_MODULUS. simpl. lia.
  - apply (proj1 (proj2 execute_cycle_visits_phases_in_order) 5).
    + lra.
    + exact Starter_cycle_start_calibrated.
    + reflexivity.
    + constructor.
    + exact Starter_quiet_reached_joint_goal.
    + rewrite Z2Nat.id by lia. unfold dt.
      replace (20001 - 1)%Z with 20000%Z by lia. lra.
    + rewrite Z2Nat.id by lia. unfold dt. lra.
    + apply repeat_length.
    + intros k inp H. destruct k; discriminate H.
    + exact Starter_quiet_settled_at_home.
    + rewrite Z2Nat.id by lia. simpl. unfold dt. lra.
    + rewrite Z2Nat.id by lia. unfold ULLONG_MODULUS. simpl. lia.
  - destruct (Interface_wait_activate_total
                stod_sample Interface_quiet
                (Interface.init Interface_u0 Interface_store0) eq_refl eq_refl
                (Interface_sample_shot_well_formed Interface_u0)) as [s' Hs'].
    exists s'. split; [exact Hs'|].
    apply (proj1 (proj2 (proj2 execute_cycle_visits_phases_in_order))
                 stod_sample Interface_u0 Interface_store0 [] Interface_quiet
                 _ s' eq_refl eq_refl Hs').
    destruct (Interface_wait_activate
                stod_sample Interface_quiet
                (Interface.init Interface_u0 Interface_store0) eq_refl s' eq_refl Hs')
      as [Hph _].
    unfold Interface.phase in Hph. injection Hph as Hm _. exact Hm.
  - apply (proj2 (proj2 (proj2 execute_cycle_visits_phases_in_order))
                 Starter_u0 (Starter.mkRedis "execute" []) [] Starter_quiet);
      reflexivity.
Defined.

(** ** The activation token during EXECUTE *)

Lemma Interface_execute_ignores_token (stod : string -> option double)
      (v : option string) (inp : Interface.TickInput) (s : Interface.World) :
  Interface.mode (Interface.globals s) = EXECUTE_MODE ->
  option_map Interface_but_token (Interface.step stod (Interface_with_token v inp) s) =
  option_map Interface_but_token (Interface.step stod inp s).
Proof.
  intros Hmode.
  unfold Interface.step. cbn. rewrite Hmode. cbn.
  unfold Interface_but_token, Interface.execute_mode. cbn.
  destruct (Interface.state (Interface.globals s)).
  - unfold Interface.joint_controller. cbn.
    destruct (Interface.reached_joint_goal _); cbn.
    all: unfold Interface.external_writes; cbn;
      destruct (Interface.ext_shotpos inp), (Interface.ext_shotangle inp),
        (Interface.ext_modechange inp), v; reflexivity.
  - unfold Interface.posori_controller, Interface.reached_final_goal. cbn.
    destruct (Interface.robotReachedGoal _ _ _ _ _ _ && gt_d _ _); cbn;
      destruct (gt_d _ _ && lt_d _ _); cbn.
    all: unfold Interface.external_writes; cbn;
      destruct (Interface.ext_shotpos inp), (Interface.ext_shotangle inp),
        (Interface.ext_modechange inp), v; reflexivity.
  - unfold Interface.joint_controller_shot. cbn.
    destruct (gt_d _ _ && lt_d _ _); cbn;
      [| destruct (le_d _ _); cbn; [destruct (Interface.centershot _); cbn|]];
      destruct (gt_d _ _); cbn.
    all: unfold Interface.external_writes; cbn;
      destruct (Interface.ext_shotpos inp), (Interface.ext_shotangle inp),
        (Interface.ext_modechange inp), v; reflexivity.
  - unfold Interface.external_writes; cbn.
    destruct (Interface.ext_shotpos inp), (Interface.ext_shotangle inp),
      (Interface.ext_modechange inp), v; reflexivity.
Qed.

Lemma Interface_leaves_execute_only_on_final_goal (stod : string -> option double)
      (inp : Interface.TickInput) (s s' : Interface.World) :
  Interface.mode (Interface.globals s) = EXECUTE_MODE ->
  Interface.step stod inp s = Some s' ->
  Interface.mode (Interface.globals s') = WAIT_MODE ->
  Interface.state (Interface.globals s) = Interface.POSORI_CONTROLLER /\
  Interface.reached_final_goal inp (Interface.seconds (Interface.globals s)) s = true.
Proof.
  intros Hmode Hstep Hwait.
  destruct (Interface_step_execute_control stod inp s Hmode)
    as (s1 & Hstep1 & _ & _ & Hph & _).
  rewrite Hstep in Hstep1. injection Hstep1 as <-.
  cbv zeta in Hph. unfold Interface.phase in Hph. rewrite Hwait in Hph.
  destruct (Interface.state (Interface.globals s)); try discriminate.
  destruct (Interface.reached_final_goal _ _ _); [split; reflexivity | discriminate].
Qed.

(** ** A phase whose goal is never reached *)

Lemma squaredNorm_nonneg (v : VectorXd) : 0 <= squaredNorm v.
Proof.
  induction v as [|x v IH]; unfold squaredNorm in *; simpl; [lra|].
  pose proof (Rle_0_sqr x) as Hx. unfold Rsqr in Hx. lra.
Qed.

Lemma squaredNorm_ge_coefficient (v : VectorXd) (i : nat) :
  at_ v i * at_ v i <= squaredNorm v.
Proof.
  revert i. induction v as [|x v IH]; intros i.
  - unfold at_. destruct i; simpl; unfold squaredNorm; simpl; lra.
  - destruct i as [|i].
    + pose proof (squaredNorm_nonneg v) as Hv.
      unfold at_, squaredNorm in *. simpl. lra.
    + specialize (IH i). pose proof (Rle_0_sqr x) as Hx. unfold Rsqr in Hx.
      unfold at_, squaredNorm in *. simpl. lra.
Qed.

Lemma norm_ge_coefficient (v : VectorXd) (i : nat) : Rabs (at_ v i) <= norm v.
Proof.
  unfold norm. rewrite <- sqrt_Rsqr_abs.
  apply sqrt_le_1_alt. apply squaredNorm_ge_coefficient.
Qed.

Lemma Interface_busy_misses_joint_goal :
  Interface.reached_joint_goal Interface_busy = false.
Proof.
  unfold Interface.reached_joint_goal. apply lt_d_false.
  pose proof (norm_ge_coefficient
                (vminus (Interface.in_q Interface_busy) Interface.q_init_desired) 1)
    as H.
  unfold at_ in H. simpl in H |- *.
  rewrite Rabs_pos_eq in H by lra. lra.
Qed.

Lemma Interface_busy_not_settled : Interface_settled_at_home Interface_busy = false.
Proof.
  unfold Interface_settled_at_home, Interface.robotReachedGoal.
  replace (lt_d _ Interface.epsilon) with false; [reflexivity|].
  symmetry. apply lt_d_false. unfold error_norm, Interface.epsilon.
  pose proof (norm_ge_coefficient
                (vminus (toVectorXd (Interface.in_x Interface_busy))
                        (toVectorXd Interface.xh)) 2) as H.
  unfold at_ in H. simpl in H |- *.
  rewrite Rabs_left in H by lra.
  change (toVectorXd zero3) with [0; 0; 0].
  rewrite norm_Zero3. lra.
Qed.

Lemma repeat_snoc {A : Type} (x : A) (n : nat) : repeat x n ++ [x] = repeat x (S n).
Proof. induction n as [|n IH]; simpl; [reflexivity | rewrite IH; reflexivity]. Qed.

Section InterfaceStall.

Variable stod : string -> option double.

(** APPROACH stalls for ever. *)
Lemma Interface_approach_stalls (inputs : list Interface.TickInput)
      (s : Interface.World) :
  Interface_calibrated s ->
  Interface.phase s = (EXECUTE_MODE, Interface.JOINT_CONTROLLER) ->
  Forall (fun inp => Interface.reached_joint_goal inp = false) inputs ->
  map Interface.phase (Interface.trace stod inputs s) =
  repeat (EXECUTE_MODE, Interface.JOINT_CONTROLLER) (S (List.length inputs)).
Proof.
  intros Hcal Hph Hall.
  unfold Interface.phase in Hph. injection Hph as Hm Hst.
  destruct (stage _ _ _ (Interface.step stod) (Interface.loop stod)
                  (Interface.trace stod) Interface.phase
                  (fun _ => eq_refl) (fun _ _ _ => eq_refl) (fun _ _ _ => eq_refl)
                  (EXECUTE_MODE, Interface.JOINT_CONTROLLER) inputs
                  (fun _ s =>
                     exists c, Interface_at EXECUTE_MODE Interface.JOINT_CONTROLLER c s)
                  (fun _ inp => Interface.reached_joint_goal inp = false))
    with (s := s) as (s' & _ & [c Hat'] & Htr).
  - intros k inp s0 _ [c0 Hat0] Hg.
    split; [apply (Interface_at_phase _ _ _ _ Hat0)|].
    destruct (Interface_approach_stay stod inp s0 c0 Hat0 Hg) as (s1 & Hs1 & Hat1).
    exists s1. split; [exact Hs1 | eexists; exact Hat1].
  - intros k inp Hn. apply (Forall_nth_error _ _ _ _ Hall Hn).
  - exists (Interface.controller_counter (Interface.globals s)).
    unfold Interface_at. auto.
  - specialize (Htr []). rewrite app_nil_r in Htr. rewrite Htr. simpl.
    rewrite (Interface_at_phase _ _ _ _ Hat'). apply repeat_snoc.
Qed.

(** RETURN stalls as long as the tick counter does not wrap. *)
Lemma Interface_return_stalls (inputs : list Interface.TickInput)
      (s : Interface.World) (c : Z) :
  Interface_at EXECUTE_MODE Interface.POSORI_CONTROLLER c s ->
  (14302 <= c)%Z ->
  (c + Z.of_nat (List.length inputs) < ULLONG_MODULUS)%Z ->
  Forall (fun inp => Interface_settled_at_home inp = false) inputs ->
  map Interface.phase (Interface.trace stod inputs s) =
  repeat (EXECUTE_MODE, Interface.POSORI_CONTROLLER) (S (List.length inputs)).
Proof.
  intros Hat Hc Hwrap Hall.
  destruct (stage _ _ _ (Interface.step stod) (Interface.loop stod)
                  (Interface.trace stod) Interface.phase
                  (fun _ => eq_refl) (fun _ _ _ => eq_refl) (fun _ _ _ => eq_refl)
                  (EXECUTE_MODE, Interface.POSORI_CONTROLLER) inputs
                  (fun k s =>
                     Interface_at EXECUTE_MODE Interface.POSORI_CONTROLLER
                                  (c + Z.of_nat k) s)
                  (fun _ inp => Interface_settled_at_home inp = false))
    with (s := s) as (s' & _ & Hat' & Htr).
  - intros k inp s0 Hk Hat0 Hg.
    split; [apply (Interface_at_phase _ _ _ _ Hat0)|].
    destruct (Interface_return_stay stod inp s0 _ Hat0) as (s1 & Hs1 & Hat1);
      [lia | lia | exact Hg |].
    exists s1. split; [exact Hs1|].
    replace (c + Z.of_nat (S k))%Z with (c + Z.of_nat k + 1)%Z by lia. exact Hat1.
  - intros k inp Hn. apply (Forall_nth_error _ _ _ _ Hall Hn).
  - replace (c + Z.of_nat 0)%Z with c by lia. exact Hat.
  - specialize (Htr []). rewrite app_nil_r in Htr. rewrite Htr. simpl.
    rewrite (Interface_at_phase _ _ _ _ Hat'). apply repeat_snoc.
Qed.

End InterfaceStall.

(** C6, as amended.  In EXECUTE the loop has no recovery of its own: while
    the joint goal is missed APPROACH goes on, and while the robot is not
    settled RETURN goes on (as long as the tick counter does not wrap).  The
    activation token is not read in EXECUTE: whatever is written to it, the
    iteration ends in the same world but for the token; and the mode goes
    back to WAIT only in an iteration in POSORI_CONTROLLER in which the
    goal-reached predicate holds with the time past [t_4]. *)
Theorem execute_stalls_and_ignores_token :
  forall stod : string -> option double,
    (forall (s : Interface.World) (inputs : list Interface.TickInput),
        Interface_calibrated s ->
        Interface.phase s = (EXECUTE_MODE, Interface.JOINT_CONTROLLER) ->
        Forall (fun inp => Interface.reached_joint_goal inp = false) inputs ->
        map Interface.phase (Interface.trace stod inputs s) =
        repeat (EXECUTE_MODE, Interface.JOINT_CONTROLLER) (S (List.length inputs))) /\
    (forall (s : Interface.World) (c : Z) (inputs : list Interface.TickInput),
        Interface_at EXECUTE_MODE Interface.POSORI_CONTROLLER c s ->
        (14302 <= c)%Z ->
        (c + Z.of_nat (List.length inputs) < ULLONG_MODULUS)%Z ->
        Forall (fun inp => Interface_settled_at_home inp = false) inputs ->
        map Interface.phase (Interface.trace stod inputs s) =
        repeat (EXECUTE_MODE, Interface.POSORI_CONTROLLER) (S (List.length inputs))) /\
    (forall (v : option string) (inp : Interface.TickInput) (s : Interface.World),
        Interface.mode (Interface.globals s) = EXECUTE_MODE ->
        option_map Interface_but_token
                   (Interface.step stod (Interface_with_token v inp) s) =
        option_map Interface_but_token (Interface.step stod inp s)) /\
    (forall (inp : Interface.TickInput) (s s' : Interface.World),
        Interface.mode (Interface.globals s) = EXECUTE_MODE ->
        Interface.step stod inp s = Some s' ->
        Interface.mode (Interface.globals s') = WAIT_MODE ->
        Interface.state (Interface.globals s) = Interface.POSORI_CONTROLLER /\
        Interface.reached_final_goal inp (Interface.seconds (Interface.globals s)) s = true).
Proof.
  intros stod. split; [|split; [|split]].
  - intros s inputs. apply Interface_approach_stalls.
  - intros s c inputs. apply Interface_return_stalls.
  - intros v inp s. apply Interface_execute_ignores_token.
  - intros inp s s'. apply Interface_leaves_execute_only_on_final_goal.
Qed.

(** A stalled APPROACH of the sample cycle: three iterations off the joint
    goal, the operator writing "wait" to the token in the second one. *)
Lemma stalled_approach_sample :
  map Interface.phase
      (Interface.trace stod_throws
                       [Interface_busy;
                        Interface_with_token (Some "wait"%string) Interface_busy;
                        Interface_busy]
                       Interface_cycle_start) =
  repeat (EXECUTE_MODE, Interface.JOINT_CONTROLLER) 4 /\
  option_map Interface_but_token
             (Interface.step stod_throws
                             (Interface_with_token (Some "wait"%string) Interface_busy)
                             Interface_cycle_start) =
  option_map Interface_but_token
             (Interface.step stod_throws Interface_busy Interface_cycle_start).
Proof.
  split.
  - apply (proj1 (execute_stalls_and_ignores_token stod_throws)).
    + exact Interface_cycle_start_calibrated.
    + reflexivity.
    + repeat constructor; exact Interface_busy_misses_joint_goal.
  - apply (proj1 (proj2 (proj2 (execute_stalls_and_ignores_token stod_throws)))).
    reflexivity.
Defined.

(** C6, as stated, fails: no value written to the activation token during
    EXECUTE brings the mode back to WAIT in an iteration in which the
    convergence test of RETURN does not hold. *)
Lemma no_token_forces_wait :
  ~ exists (stod : string -> option double) (v : string)
           (inp : Interface.TickInput) (s s' : Interface.World),
      Interface.mode (Interface.globals s) = EXECUTE_MODE /\
      Interface.ext_modechange inp = Some v /\
      Interface.step stod inp s = Some s' /\
      Interface.mode (Interface.globals s') = WAIT_MODE /\
      Interface.reached_final_goal inp (Interface.seconds (Interface.globals s)) s = false.
Proof.
  intros (stod & v & inp & s & s' & Hmode & _ & Hstep & Hwait & Hnot).
  destruct (Interface_leaves_execute_only_on_final_goal stod inp s s' Hmode Hstep Hwait)
    as [_ Hgoal].
  rewrite Hgoal in Hnot. discriminate.
Qed.

(** ** The phase-window boundaries *)

Lemma Interface_same_window_refl (s : Interface.World) : Interface_same_window s s.
Proof. unfold Interface_same_window. repeat split; reflexivity. Qed.

Lemma Interface_same_window_trans (s1 s2 s3 : Interface.World) :
  Interface_same_window s1 s2 -> Interface_same_window s2 s3 ->
  Interface_same_window s1 s3.
Proof.
  unfold Interface_same_window.
  intros (A0 & A1 & A2 & A3 & A4) (B0 & B1 & B2 & B3 & B4).
  rewrite B0, B1, B2, B3, B4. repeat split; assumption.
Qed.

Lemma Interface_step_same_window (stod : string -> option double)
      (inp : Interface.TickInput) (s s' : Interface.World) :
  Interface.step stod inp s = Some s' -> Interface_same_window s s'.
Proof.
  intros Hstep.
  destruct (Interface.mode (Interface.globals s)) eqn:Hmode.
  - destruct (String.eqb (Interface_token inp s) "execute") eqn:Htok.
    + apply (Interface_wait_activate stod inp s Hmode s' Htok Hstep).
    + destruct (Interface_wait_idle stod inp s Hmode Htok) as (s1 & Hs1 & Hg & _).
      rewrite Hstep in Hs1. injection Hs1 as <-.
      unfold Interface_same_window. rewrite Hg. repeat split; reflexivity.
  - destruct (Interface_step_execute_control stod inp s Hmode)
      as (s1 & Hs1 & Hwin & _).
    rewrite Hstep in Hs1. injection Hs1 as <-. exact Hwin.
Qed.

Lemma Interface_loop_same_window (stod : string -> option double)
      (inputs : list Interface.TickInput) :
  forall s s' : Interface.World,
    Interface.loop stod inputs s = Some s' -> Interface_same_window s s'.
Proof.
  induction inputs as [|inp inputs IH]; intros s s' Hloop.
  - injection Hloop as <-. apply Interface_same_window_refl.
  - simpl in Hloop.
    destruct (Interface.step stod inp s) as [s1|] eqn:Hstep; [|discriminate].
    apply Interface_same_window_trans with (s2 := s1).
    + apply (Interface_step_same_window stod inp s s1 Hstep).
    + apply IH. exact Hloop.
Qed.

(** C4, as amended.  No iteration of the loop writes a boundary: after one
    iteration, after any number of them, and through the shutdown, [t_0],
    [t_1], [t_2], [t_3] and [t_4] are what they were, so that a run of
    [main] keeps them at 0, 4, 8, 12 and 13; [t_4] is not re-anchored at
    the SHOT to RETURN transition. *)
Theorem boundaries_never_written :
  forall (stod : string -> option double) (inputs : list Interface.TickInput)
         (s s' : Interface.World),
    Interface.loop stod inputs s = Some s' ->
    Interface_same_window s s' /\
    Interface_same_window s (Interface.shutdown s') /\
    (forall inp s'',
        Interface.step stod inp s' = Some s'' ->
        Interface.t_4 (Interface.globals s'') = Interface.t_4 (Interface.globals s)) /\
    (forall u store,
        s = Interface.init u store ->
        Interface.t_0 (Interface.globals s') = 0 /\
        Interface.t_1 (Interface.globals s') = 4 /\
        Interface.t_2 (Interface.globals s') = 8 /\
        Interface.t_3 (Interface.globals s') = 12 /\
        Interface.t_4 (Interface.globals s') = 13).
Proof.
  intros stod inputs s s' Hloop.
  pose proof (Interface_loop_same_window stod inputs s s' Hloop) as Hwin.
  split; [exact Hwin|]. split; [exact Hwin|]. split.
  - intros inp s'' Hstep.
    pose proof (Interface_step_same_window stod inp s' s'' Hstep) as Hwin'.
    destruct (Interface_same_window_trans _ _ _ Hwin Hwin') as (_ & _ & _ & _ & H4).
    exact H4.
  - intros u store ->.
    destruct Hwin as (H0 & H1 & H2 & H3 & H4).
    rewrite H0, H1, H2, H3, H4. cbn. repeat split; reflexivity.
Qed.

Section InterfaceShotEnd.

Variable stod : string -> option double.

(** SHOT holds while the counter is at most 14300. *)
Lemma Interface_shot_hold (l : list Interface.TickInput) (s : Interface.World) :
  Interface_at EXECUTE_MODE Interface.JOINT_CONTROLLER_SHOT 12002 s ->
  (Z.of_nat (List.length l) <= 2299)%Z ->
  exists s',
    Interface.loop stod l s = Some s' /\
    Interface_at EXECUTE_MODE Interface.JOINT_CONTROLLER_SHOT
                 (12002 + Z.of_nat (List.length l)) s'.
Proof.
  intros Hat Hlen.
  destruct (stage _ _ _ (Interface.step stod) (Interface.loop stod)
                  (Interface.trace stod) Interface.phase
                  (fun _ => eq_refl) (fun _ _ _ => eq_refl) (fun _ _ _ => eq_refl)
                  (EXECUTE_MODE, Interface.JOINT_CONTROLLER_SHOT) l
                  (fun k s =>
                     Interface_at EXECUTE_MODE Interface.JOINT_CONTROLLER_SHOT
                                  (12002 + Z.of_nat k) s)
                  (fun _ _ => True))
    with (s := s) as (s' & Hloop & Hat' & _).
  - intros k inp s0 Hk Hat0 _.
    split; [apply (Interface_at_phase _ _ _ _ Hat0)|].
    destruct (Interface_shot_stay stod inp s0 _ Hat0 ltac:(lia)) as (s1 & Hs1 & Hat1).
    exists s1. split; [exact Hs1|].
    replace (12002 + Z.of_nat (S k))%Z with (12002 + Z.of_nat k + 1)%Z by lia.
    exact Hat1.
  - intros; exact I.
  - replace (12002 + Z.of_nat 0)%Z with 12002%Z by lia. exact Hat.
  - exists s'. split; assumption.
Qed.

(** The last iteration of SHOT in a cycle that starts in [s]. *)
Lemma Interface_reaches_shot_end (s : Interface.World) (i1 : Interface.TickInput)
      (l : list Interface.TickInput) :
  Interface_calibrated s ->
  Interface.phase s = (EXECUTE_MODE, Interface.JOINT_CONTROLLER) ->
  Interface.reached_joint_goal i1 = true ->
  List.length l = Z.to_nat 14300 ->
  exists s',
    Interface.loop stod (i1 :: l) s = Some s' /\
    Interface_at EXECUTE_MODE Interface.JOINT_CONTROLLER_SHOT 14301 s'.
Proof.
  intros Hcal Hph Hi1 Hlen.
  unfold Interface.phase in Hph. injection Hph as Hm Hst.
  assert (Hat : Interface_at EXECUTE_MODE Interface.JOINT_CONTROLLER
                             (Interface.controller_counter (Interface.globals s)) s)
    by (unfold Interface_at; auto).
  destruct (Interface_approach_stage stod [] i1 s _ Hat (Forall_nil _) Hi1)
    as (s1 & Hl1 & Hat1 & _).
  destruct (Interface_track_stage stod (firstn (Z.to_nat 12001) l) s1 Hat1)
    as (s2 & Hl2 & Hat2 & _); [rewrite length_firstn; lia|].
  destruct (Interface_shot_hold (skipn (Z.to_nat 12001) l) s2 Hat2)
    as (s3 & Hl3 & Hat3); [rewrite length_skipn; lia|].
  exists s3. split.
  - change (i1 :: l) with (([] ++ [i1]) ++ l).
    rewrite (loop_app _ _ (Interface.step stod) (Interface.loop stod)
                      (fun _ => eq_refl) (fun _ _ _ => eq_refl) _ l s s1 Hl1).
    rewrite <- (firstn_skipn (Z.to_nat 12001) l) at 1.
    rewrite (loop_app _ _ (Interface.step stod) (Interface.loop stod)
                      (fun _ => eq_refl) (fun _ _ _ => eq_refl) _ _ s1 s2 Hl2).
    exact Hl3.
  - replace 14301%Z with (12002 + Z.of_nat (List.length (skipn (Z.to_nat 12001) l)))%Z
      by (rewrite length_skipn; lia).
    exact Hat3.
Qed.

End InterfaceShotEnd.

(** C4, as stated, fails.  In the sample cycle the iteration that takes SHOT
    to RETURN leaves [t_4] at 13, while SHOT began after [t_3 = 12] and
    lasts 1.3 s: whenever it began, the re-anchored value would be above
    13.3. *)
Lemma t_4_not_re_anchored :
  exists s s' : Interface.World,
    Interface.loop stod_throws
                   (Interface_quiet :: repeat Interface_quiet (Z.to_nat 14300))
                   Interface_cycle_start = Some s /\
    Interface.step stod_throws Interface_quiet s = Some s' /\
    Interface.phase s = (EXECUTE_MODE, Interface.JOINT_CONTROLLER_SHOT) /\
    Interface.phase s' = (EXECUTE_MODE, Interface.POSORI_CONTROLLER) /\
    Interface.t_4 (Interface.globals s') = Interface.t_4 (Interface.globals s) /\
    Interface.t_4 (Interface.globals s') = 13 /\
    forall shot_began : double,
      shot_began > Interface.t_3 (Interface.globals s) ->
      Interface.t_4 (Interface.globals s') <>
      shot_began + Interface.total_time (Interface.locals s).
Proof.
  destruct (Interface_reaches_shot_end
              stod_throws Interface_cycle_start Interface_quiet
              (repeat Interface_quiet (Z.to_nat 14300))
              Interface_cycle_start_calibrated eq_refl
              Interface_quiet_reached_joint_goal (repeat_length _ _))
    as (s & Hloop & Hat).
  destruct (Interface_shot_exit stod_throws Interface_quiet s 14301 Hat)
    as (s' & Hstep & Hat'); [lia | unfold ULLONG_MODULUS; lia |].
  exists s, s'.
  split; [exact Hloop|]. split; [exact Hstep|].
  split; [apply (Interface_at_phase _ _ _ _ Hat)|].
  split; [apply (Interface_at_phase _ _ _ _ Hat')|].
  destruct Hat as ((_ & _ & _ & H3 & H4 & HT) & _).
  destruct Hat' as ((_ & _ & _ & _ & H4' & _) & _).
  rewrite H4, H4', H3, HT.
  split; [reflexivity|]. split; [reflexivity|].
  intros shot_began Hb. lra.
Qed.

(** The boundaries after the first iteration of the sample cycle. *)
Lemma boundaries_after_one_iteration :
  exists s' : Interface.World,
    Interface.loop stod_throws [Interface_quiet] Interface_cycle_start = Some s' /\
    Interface_same_window Interface_cycle_start s' /\
    Interface_same_window Interface_cycle_start (Interface.shutdown s').
Proof.
  destruct (Interface_step_execute_control stod_throws Interface_quiet
                                           Interface_cycle_start eq_refl)
    as (s' & Hstep & _).
  exists s'.
  assert (Hloop : Interface.loop stod_throws [Interface_quiet] Interface_cycle_start
                  = Some s') by (cbn [Interface.loop]; rewrite Hstep; reflexivity).
  split; [exact Hloop|].
  destruct (boundaries_never_written stod_throws [Interface_quiet]
                                     Interface_cycle_start s' Hloop)
    as (H1 & H2 & _).
  split; assumption.
Defined.

(** ** What the activation derives *)

(** C7, at the failing input.  With the sample shot in the store, the
    activation sets [swing_angle] to 120 degrees, [a] to half of it, and
    [shot_angular_velocity] and [w] from [hit_velocity]; no statement assigns
    [hit_velocity], so whatever value [hv] the local happens to hold comes
    out in [w]: the same shot gives [w = 0] for [hv = 0] and another [w] for
    [hv = 1]. *)
Theorem angular_rate_follows_unassigned_hit_velocity :
  (forall hv : double,
      exists s',
        Interface.step stod_sample Interface_quiet
                       (Interface.init (Interface_u_hit hv) Interface_store0) = Some s' /\
        Interface.mode (Interface.globals s') = EXECUTE_MODE /\
        Interface.swing_angle (Interface.locals s') = 120 * M_PI / 180.0 /\
        Interface.a (Interface.locals s') = Interface.swing_angle (Interface.locals s') / 2.0 /\
        Interface.hit_velocity (Interface.locals s') = hv /\
        Interface.shot_angular_velocity (Interface.locals s') = hv / Interface.ee_length /\
        Interface.w (Interface.locals s') =
        Interface.shot_angular_velocity (Interface.locals s') / Interface.a (Interface.locals s') /\
        Interface.w (Interface.locals s') = hv / Interface.ee_length / (PI / 3)) /\
  0 / Interface.ee_length / (PI / 3) <> 1 / Interface.ee_length / (PI / 3).
Proof.
  split.
  - intros hv.
    destruct (Interface_wait_activate_total
                stod_sample Interface_quiet
                (Interface.init (Interface_u_hit hv) Interface_store0)
                eq_refl eq_refl (Interface_sample_shot_well_formed _)) as (s' & Hstep).
    destruct (Interface_wait_activate
                stod_sample Interface_quiet
                (Interface.init (Interface_u_hit hv) Interface_store0)
                eq_refl s' eq_refl Hstep)
      as (Hph & _ & _ & Hhv & Hsw & Hsav & Ha & Hw).
    exists s'. split; [exact Hstep|].
    unfold Interface.phase in Hph. injection Hph as Hm _.
    cbn in Hhv, Hsav.
    repeat split; try assumption.
    rewrite Hw, Ha, Hsw, Hsav. unfold M_PI.
    replace (120 * PI / 180.0 / 2.0) with (PI / 3) by lra. reflexivity.
  - pose proof PI_RGT_0 as Hpi.
    assert (He : Interface.ee_length > 0) by (unfold Interface.ee_length; lra).
    intros H.
    assert (H1 : 0 < 1 / Interface.ee_length / (PI / 3)).
    { apply Rdiv_lt_0_compat; [apply Rdiv_lt_0_compat|]; lra. }
    replace (0 / Interface.ee_length / (PI / 3)) with 0 in H by (field; lra).
    lra.
Qed.

(** ** The end of the loop *)

Lemma setZero_all_zero (v : VectorXd) : Forall (fun c => c = 0) (setZero v).
Proof. unfold setZero. induction v; simpl; constructor; auto. Qed.

Lemma Interface_shutdown_publishes_zero (s : Interface.World) :
  Interface.fgc (Interface.redis (Interface.shutdown s)) =
  setZero (Interface.command_torques (Interface.locals s)) ::
  Interface.fgc (Interface.redis s).
Proof. reflexivity. Qed.

Lemma Starter_shutdown_publishes_nothing (s : Starter.World) :
  Starter.redis (Starter.shutdown s) = Starter.redis s.
Proof. reflexivity. Qed.

Lemma Starter_push_misses_joint_goal :
  Starter.reached_joint_goal Starter_push = false.
Proof.
  unfold Starter.reached_joint_goal. apply lt_d_false.
  pose proof (norm_ge_coefficient
                (vminus (Starter.in_q Starter_push) Starter.q_init_desired) 5)
    as H.
  unfold at_ in H. simpl in H |- *.
  pose proof PI_RGT_0 as Hpi. pose proof PI_4 as Hpi4.
  assert (Hpi2 : 2 < PI).
  { pose proof (PI_ineq 1) as [Hlo _]. unfold sum_f_R0, tg_alt, PI_tg in Hlo.
    simpl in Hlo. lra. }
  unfold M_PI in *.
  rewrite Rabs_left in H by lra. lra.
Qed.

(** C10, at the failing input.  The interface variant ends with one more
    write of the torques, all zero.  The shutdown of the starter variant
    writes nothing: in a run of two iterations, the activation and one
    iteration of APPROACH with a torque of 1 N m on every joint, the last
    value in the store after the loop has ended is that torque. *)
Theorem starter_shutdown_publishes_no_zero_torque :
  (forall s : Interface.World,
      Interface.fgc (Interface.redis (Interface.shutdown s)) =
      setZero (Interface.command_torques (Interface.locals s)) ::
      Interface.fgc (Interface.redis s) /\
      Forall (fun c => c = 0) (setZero (Interface.command_torques (Interface.locals s)))) /\
  (forall s : Starter.World, Starter.redis (Starter.shutdown s) = Starter.redis s) /\
  Starter.fgc (Starter.redis
                 (Starter.main Starter_u0 (Starter.mkRedis "execute" [])
                               [Starter_quiet; Starter_push])) =
  [[1; 1; 1; 1; 1; 1; 1]].
Proof.
  split; [|split].
  - intros s. split; [reflexivity | apply setZero_all_zero].
  - intros s. reflexivity.
  - unfold Starter.main. rewrite Starter_shutdown_publishes_nothing.
    cbn [Starter.loop].
    unfold Starter.step at 2. cbn. unfold Starter.wait_mode. cbn.
    unfold Starter.step. cbn. unfold Starter.execute_mode. cbn.
    unfold Starter.joint_controller. rewrite Starter_push_misses_joint_goal.
    cbn. reflexivity.
Qed.

(** ** Continuity of the trajectory at the boundaries *)

Lemma sin_continuous_at (x0 eps : R) :
  eps > 0 ->
  exists d, d > 0 /\ forall x, Rabs (x - x0) < d -> Rabs (sin x - sin x0) < eps.
Proof.
  intros Heps.
  destruct (continuity_sin x0 eps Heps) as (d & Hd & Hx).
  exists d. split; [exact Hd|].
  intros x Hxa.
  destruct (Req_dec x0 x) as [<- | Hne].
  - replace (sin x0 - sin x0) with 0 by ring. rewrite Rabs_R0. exact Heps.
  - apply Hx. split; [split; [exact I | exact Hne] | exact Hxa].
Qed.

Lemma cos_continuous_at (x0 eps : R) :
  eps > 0 ->
  exists d, d > 0 /\ forall x, Rabs (x - x0) < d -> Rabs (cos x - cos x0) < eps.
Proof.
  intros Heps.
  destruct (continuity_cos x0 eps Heps) as (d & Hd & Hx).
  exists d. split; [exact Hd|].
  intros x Hxa.
  destruct (Req_dec x0 x) as [<- | Hne].
  - replace (cos x0 - cos x0) with 0 by ring. rewrite Rabs_R0. exact Heps.
  - apply Hx. split; [split; [exact I | exact Hne] | exact Hxa].
Qed.

(** Sine and cosine of an angle that is affine in the time. *)
Lemma trig_left_limit (K c b eps : R) :
  eps > 0 ->
  exists delta,
    delta > 0 /\
    forall t, b - delta < t < b ->
              Rabs (sin (K * t + c) - sin (K * b + c)) < eps /\
              Rabs (cos (K * t + c) - cos (K * b + c)) < eps.
Proof.
  intros Heps.
  destruct (sin_continuous_at (K * b + c) eps Heps) as (ds & Hds & Hsin).
  destruct (cos_continuous_at (K * b + c) eps Heps) as (dc & Hdc & Hcos).
  pose proof (Rabs_pos K) as HK.
  assert (Hm : Rmin ds dc > 0) by (apply Rmin_glb_lt; assumption).
  exists (Rmin ds dc / (Rabs K + 1)).
  split; [apply Rdiv_lt_0_compat; lra|].
  intros t [Hlo Hhi].
  assert (Hclose : Rabs (K * t + c - (K * b + c)) < Rmin ds dc).
  { replace (K * t + c - (K * b + c)) with (K * (t - b)) by ring.
    rewrite Rabs_mult. rewrite (Rabs_left (t - b)) by lra.
    assert (Hd : b - t < Rmin ds dc / (Rabs K + 1)) by lra.
    assert (Hl : (b - t) * (Rabs K + 1) < Rmin ds dc).
    { apply (Rmult_lt_compat_r (Rabs K + 1)) in Hd; [|lra].
      unfold Rdiv in Hd. rewrite Rmult_assoc, Rinv_l, Rmult_1_r in Hd by lra.
      exact Hd. }
    nra. }
  split.
  - apply Hsin. apply Rlt_le_trans with (1 := Hclose). apply Rmin_l.
  - apply Hcos. apply Rlt_le_trans with (1 := Hclose). apply Rmin_r.
Qed.

(** Evaluates the window tests of the goal at a time whose place among the
    boundaries [lra] can tell. *)
Ltac range_eval :=
  repeat match goal with
         | |- context [inRange ?t ?lo ?hi] =>
           first [ rewrite (proj2 (inRange_true t lo hi)) by lra
                 | rewrite (proj2 (inRange_false t lo hi)) by lra ]
         end.

Section InterfacePieces.

Variable g : Interface.Globals.
Hypothesis Hwin : Interface_window_initial g.

Lemma Interface_point_piece1 (t : double) :
  0 <= t < 4 ->
  Interface.calculatePointInTrajectory g t =
  v3_plus Interface.xh
          (v3_div (v3_scale (v3_minus Interface.xc Interface.xh) (t - 0)) (4 - 0)).
Proof.
  intros Ht. destruct Hwin as (H0 & H1 & H2 & H3 & H4).
  unfold Interface.calculatePointInTrajectory.
  rewrite H0, H1, H2, H3, H4. range_eval. reflexivity.
Qed.

Lemma Interface_point_piece2 (t : double) :
  4 <= t < 8 -> Interface.calculatePointInTrajectory g t = Interface.arc g t.
Proof.
  intros Ht. destruct Hwin as (H0 & H1 & H2 & H3 & H4).
  unfold Interface.calculatePointInTrajectory.
  rewrite H0, H1, H2, H3, H4. range_eval. reflexivity.
Qed.

Lemma Interface_point_piece34 (t : double) :
  8 <= t < 13 ->
  Interface.calculatePointInTrajectory g t = Interface.xcd (Interface.cue_start_pos g).
Proof.
  intros Ht. destruct Hwin as (H0 & H1 & H2 & H3 & H4).
  unfold Interface.calculatePointInTrajectory.
  rewrite H0, H1, H2, H3, H4.
  destruct (Rlt_le_dec t 12); range_eval; reflexivity.
Qed.

Lemma Interface_rotation_piece1 (t psi : double) :
  0 <= t < 4 ->
  Interface.calculateRotationInTrajectory g t psi =
  m3_mul (rotZ (- M_PI / 4 * (t - 0) / (4 - 0))) Interface.home_orientation.
Proof.
  intros Ht. destruct Hwin as (H0 & H1 & H2 & H3 & H4).
  unfold Interface.calculateRotationInTrajectory.
  rewrite H0, H1, H2, H3, H4. range_eval. reflexivity.
Qed.

Lemma Interface_rotation_piece2 (t psi : double) :
  4 <= t < 8 ->
  Interface.calculateRotationInTrajectory g t psi =
  m3_mul (rotZ (- M_PI / 4)) Interface.home_orientation.
Proof.
  intros Ht. destruct Hwin as (H0 & H1 & H2 & H3 & H4).
  unfold Interface.calculateRotationInTrajectory.
  rewrite H0, H1, H2, H3, H4. range_eval. reflexivity.
Qed.

Lemma Interface_rotation_piece34 (t psi : double) :
  8 <= t < 13 ->
  Interface.calculateRotationInTrajectory g t psi =
  m3_mul (rotZ (- M_PI / 2 + psi)) Interface.home_orientation.
Proof.
  intros Ht. destruct Hwin as (H0 & H1 & H2 & H3 & H4).
  unfold Interface.calculateRotationInTrajectory.
  rewrite H0, H1, H2, H3, H4.
  destruct (Rlt_le_dec t 12); range_eval; reflexivity.
Qed.

End InterfacePieces.

(** The arc starts at the bearing of the cue coin. *)
Lemma Interface_arc_start_angle :
  atan2 (v_x Interface.xc - Interface.x_offset)
        (v_y Interface.xc - Interface.y_offset) = - (PI / 4).
Proof.
  unfold Interface.xc, M_PI. cbn [v_x v_y].
  replace (- PI / 4) with (- (PI / 4)) by lra.
  rewrite sin_neg, cos_neg, sin_PI4, cos_PI4.
  pose proof Rlt_sqrt2_0 as Hs.
  assert (Hr : Interface.r > 0) by (unfold Interface.r; lra).
  assert (Hc : 0 < 1 / sqrt 2) by (apply Rdiv_lt_0_compat; lra).
  replace (Interface.r * - (1 / sqrt 2) + Interface.x_offset - Interface.x_offset)
    with (- (Interface.r * (1 / sqrt 2))) by ring.
  replace (Interface.r * (1 / sqrt 2) + Interface.y_offset - Interface.y_offset)
    with (Interface.r * (1 / sqrt 2)) by ring.
  assert (Hpos : 0 < Interface.r * (1 / sqrt 2)) by (apply Rmult_lt_0_compat; lra).
  unfold atan2. rewrite (proj2 (lt_d_true _ _) Hpos).
  replace (- (Interface.r * (1 / sqrt 2)) / (Interface.r * (1 / sqrt 2)))
    with (Ropp 1) by (field; split; lra).
  rewrite atan_opp, atan_1. reflexivity.
Qed.

Lemma v3_dist_lt (p q : Vector3d) (eps : double) :
  Rabs (v_x p - v_x q) < eps ->
  Rabs (v_y p - v_y q) < eps ->
  Rabs (v_z p - v_z q) < eps ->
  v3_dist p q < eps.
Proof.
  intros Hx Hy Hz. unfold v3_dist. repeat apply Rmax_lub_lt; assumption.
Qed.

Lemma v3_dist_refl (p : Vector3d) : v3_dist p p = 0.
Proof.
  unfold v3_dist.
  replace (v_x p - v_x p) with 0 by ring.
  replace (v_y p - v_y p) with 0 by ring.
  replace (v_z p - v_z p) with 0 by ring.
  rewrite Rabs_R0. unfold Rmax. repeat destruct (Rle_dec _ _); reflexivity.
Qed.

Lemma m3_dist_refl (p : Matrix3d) : m3_dist p p = 0.
Proof.
  unfold m3_dist.
  repeat match goal with
         | |- context [?x - ?x] => replace (x - x) with 0 by ring
         end.
  rewrite Rabs_R0. unfold Rmax. repeat destruct (Rle_dec _ _); reflexivity.
Qed.

(** A function that is constant just below [b] has that constant as its
    limit from below. *)
Lemma left_limit_constant {A : Type} (dist : A -> A -> double) (f : double -> A)
      (b d0 : double) (L : A) :
  dist L L = 0 ->
  d0 > 0 ->
  (forall t, b - d0 < t < b -> f t = L) ->
  left_limit dist f b L.
Proof.
  intros Hrefl Hd0 Hconst eps Heps.
  exists d0. split; [exact Hd0|].
  intros t Ht. rewrite (Hconst t Ht), Hrefl. exact Heps.
Qed.

Lemma linear_blend_close (p q t eps : double) :
  Rabs (q - p) <= 1 ->
  eps > 0 ->
  4 - eps < t < 4 ->
  Rabs (p + (q - p) * (t - 0) / (4 - 0) - q) < eps.
Proof.
  intros Hpq Heps Ht.
  replace (p + (q - p) * (t - 0) / (4 - 0) - q) with ((q - p) * ((t - 4) / 4)) by field.
  rewrite Rabs_mult. rewrite (Rabs_left ((t - 4) / 4)) by lra.
  pose proof (Rabs_pos (q - p)) as H0.
  nra.
Qed.

Section InterfaceLimits.

Variable g : Interface.Globals.
Hypothesis Hwin : Interface_window_initial g.

Lemma Interface_arc_at_t_1 : Interface.arc g 4 = Interface.xc.
Proof.
  destruct Hwin as (H0 & H1 & H2 & H3 & H4).
  unfold Interface.arc. cbv zeta. rewrite H1, H2, Interface_arc_start_angle.
  set (tf := atan2 _ _).
  replace ((4 - 4) * (tf - - (PI / 4)) / (8 - 4) + - (PI / 4)) with (- M_PI / 4)
    by (unfold M_PI; lra).
  reflexivity.
Qed.

Lemma Interface_point_at_t_1 :
  Interface.calculatePointInTrajectory g 4 = Interface.xc.
Proof.
  rewrite (Interface_point_piece2 g Hwin) by lra. apply Interface_arc_at_t_1.
Qed.

Lemma Interface_point_left_limit_t_1 :
  left_limit v3_dist (Interface.calculatePointInTrajectory g) 4 Interface.xc.
Proof.
  intros eps Heps.
  exists (Rmin eps 1). split; [apply Rmin_glb_lt; lra|].
  intros t [Hlo Hhi].
  pose proof (Rmin_l eps 1) as Hl. pose proof (Rmin_r eps 1) as Hr.
  rewrite (Interface_point_piece1 g Hwin) by lra.
  pose proof (SIN_bound (- M_PI / 4)) as Hs.
  pose proof (COS_bound (- M_PI / 4)) as Hc.
  apply v3_dist_lt; unfold v3_plus, v3_div, v3_scale, v3_minus; cbn [v_x v_y v_z];
    apply linear_blend_close; try lra;
      unfold Interface.xc, Interface.xh, Interface.r, Interface.x_offset,
      Interface.y_offset, Interface.z_offset; cbn [v_x v_y v_z];
        apply Rabs_le; lra.
Qed.

(** Just below [t_2] the position is on the arc, and tends to the point of
    the circle at the bearing of the drop-off position. *)
Lemma Interface_point_left_limit_t_2 :
  left_limit v3_dist (Interface.calculatePointInTrajectory g) 8 (Interface.arc g 8).
Proof.
  destruct Hwin as (H0 & H1 & H2 & H3 & H4).
  intros eps Heps.
  set (t0 := atan2 (v_x Interface.xc - Interface.x_offset)
                   (v_y Interface.xc - Interface.y_offset)).
  set (tf := atan2 (v_x (Interface.xcd (Interface.cue_start_pos g)) - Interface.x_offset)
                   (v_y (Interface.xcd (Interface.cue_start_pos g)) - Interface.y_offset)).
  destruct (trig_left_limit ((tf - t0) / 4) (t0 - (tf - t0)) 8 eps Heps)
    as (d & Hd & Htrig).
  exists (Rmin d 1). split; [apply Rmin_glb_lt; lra|].
  intros t [Hlo Hhi].
  pose proof (Rmin_l d 1) as Hl. pose proof (Rmin_r d 1) as Hr.
  rewrite (Interface_point_piece2 g Hwin) by lra.
  destruct (Htrig t ltac:(lra)) as [Hsin Hcos].
  unfold Interface.arc. cbv zeta. rewrite H1, H2. fold t0 tf.
  replace ((t - 4) * (tf - t0) / (8 - 4) + t0)
    with ((tf - t0) / 4 * t + (t0 - (tf - t0))) by field.
  replace ((8 - 4) * (tf - t0) / (8 - 4) + t0)
    with ((tf - t0) / 4 * 8 + (t0 - (tf - t0))) by field.
  set (a := (tf - t0) / 4 * t + (t0 - (tf - t0))) in *.
  set (a8 := (tf - t0) / 4 * 8 + (t0 - (tf - t0))) in *.
  apply Rabs_def2 in Hsin. apply Rabs_def2 in Hcos.
  apply v3_dist_lt; cbn [v_x v_y v_z]; apply Rabs_def1;
    unfold Interface.r; lra.
Qed.

Lemma Interface_point_at_t_2 :
  Interface.calculatePointInTrajectory g 8 =
  Interface.xcd (Interface.cue_start_pos g).
Proof. apply (Interface_point_piece34 g Hwin). lra. Qed.

Lemma Interface_point_left_limit_t_3 :
  left_limit v3_dist (Interface.calculatePointInTrajectory g) 12
             (Interface.calculatePointInTrajectory g 12).
Proof.
  apply left_limit_constant with (d0 := 1); [apply v3_dist_refl | lra |].
  intros t Ht. rewrite !(Interface_point_piece34 g Hwin) by lra. reflexivity.
Qed.

Lemma Interface_rotation_left_limit_t_1 (psi : double) :
  left_limit m3_dist (fun t => Interface.calculateRotationInTrajectory g t psi) 4
             (Interface.calculateRotationInTrajectory g 4 psi).
Proof.
  intros eps Heps.
  destruct (trig_left_limit (- M_PI / 16) 0 4 (eps / 2) ltac:(lra))
    as (d & Hd & Htrig).
  exists (Rmin d 1). split; [apply Rmin_glb_lt; lra|].
  intros t [Hlo Hhi].
  pose proof (Rmin_l d 1) as Hl. pose proof (Rmin_r d 1) as Hr.
  rewrite (Interface_rotation_piece1 g Hwin) by lra.
  rewrite (Interface_rotation_piece2 g Hwin) by lra.
  destruct (Htrig t ltac:(lra)) as [Hsin Hcos].
  replace (- M_PI / 4 * (t - 0) / (4 - 0)) with (- M_PI / 16 * t + 0) by field.
  replace (- M_PI / 4) with (- M_PI / 16 * 4 + 0) by field.
  set (a := - M_PI / 16 * t + 0) in *.
  set (a4 := - M_PI / 16 * 4 + 0) in *.
  apply Rabs_def2 in Hsin. apply Rabs_def2 in Hcos.
  unfold m3_dist, m3_mul, rotZ, Interface.home_orientation.
  cbn [m00 m01 m02 m10 m11 m12 m20 m21 m22].
  repeat apply Rmax_lub_lt; apply Rabs_def1; lra.
Qed.

Lemma Interface_rotation_left_limit_t_2 (psi : double) :
  left_limit m3_dist (fun t => Interface.calculateRotationInTrajectory g t psi) 8
             (m3_mul (rotZ (- M_PI / 4)) Interface.home_orientation).
Proof.
  apply left_limit_constant with (d0 := 1); [apply m3_dist_refl | lra |].
  intros t Ht. rewrite (Interface_rotation_piece2 g Hwin) by lra. reflexivity.
Qed.

Lemma Interface_rotation_at_t_2 (psi : double) :
  Interface.calculateRotationInTrajectory g 8 psi =
  m3_mul (rotZ (- M_PI / 2 + psi)) Interface.home_orientation.
Proof. apply (Interface_rotation_piece34 g Hwin). lra. Qed.

Lemma Interface_rotation_left_limit_t_3 (psi : double) :
  left_limit m3_dist (fun t => Interface.calculateRotationInTrajectory g t psi) 12
             (Interface.calculateRotationInTrajectory g 12 psi).
Proof.
  apply left_limit_constant with (d0 := 1); [apply m3_dist_refl | lra |].
  intros t Ht. rewrite !(Interface_rotation_piece34 g Hwin) by lra. reflexivity.
Qed.

End InterfaceLimits.

(** ** The end of the arc and the drop-off position *)

Lemma sqrt_one_plus_ratio (p q rho : R) :
  q <> 0 -> rho > 0 -> p * p + q * q = rho * rho ->
  sqrt (1 + (p / q)²) = rho / Rabs q.
Proof.
  intros Hq Hrho Hc.
  pose proof (Rabs_pos_lt q Hq) as Haq.
  apply sqrt_lem_1.
  - pose proof (Rle_0_sqr (p / q)). lra.
  - apply Rlt_le. apply Rdiv_lt_0_compat; lra.
  - assert (Hsq : Rabs q * Rabs q = q * q).
    { unfold Rabs. destruct (Rcase_abs q); ring. }
    unfold Rsqr.
    replace (rho / Rabs q * (rho / Rabs q)) with (rho * rho / (Rabs q * Rabs q))
      by (field; lra).
    rewrite Hsq, <- Hc. field. exact Hq.
Qed.

(** The point of the circle of radius [rho] at the bearing [atan2 p q] of a
    point [(p, q)] of that circle is the point itself. *)
Lemma circle_point (p q rho : R) :
  rho > 0 -> p * p + q * q = rho * rho ->
  rho * sin (atan2 p q) = p /\ rho * cos (atan2 p q) = q.
Proof.
  intros Hrho Hc. unfold atan2.
  destruct (lt_d 0 q) eqn:Hq1; cmp_prop.
  - rewrite sin_atan, cos_atan, (sqrt_one_plus_ratio p q rho) by lra.
    rewrite Rabs_pos_eq by lra. split; field; lra.
  - destruct (lt_d q 0) eqn:Hq2; cmp_prop.
    + assert (Hs : sqrt (1 + (p / q)²) = rho / - q).
      { rewrite (sqrt_one_plus_ratio p q rho) by lra.
        rewrite Rabs_left by lra. reflexivity. }
      destruct (le_d 0 p) eqn:Hp; cmp_prop.
      * rewrite neg_sin, neg_cos, sin_atan, cos_atan, Hs. split; field; lra.
      * unfold Rminus. rewrite sin_plus, cos_plus, sin_neg, cos_neg, sin_PI, cos_PI.
        rewrite sin_atan, cos_atan, Hs. split; field; lra.
    + assert (Hq0 : q = 0) by lra. subst q.
      destruct (lt_d 0 p) eqn:Hp1; cmp_prop.
      * rewrite sin_PI2, cos_PI2. split; nra.
      * destruct (lt_d p 0) eqn:Hp2; cmp_prop.
        -- rewrite sin_neg, cos_neg, sin_PI2, cos_PI2. split; nra.
        -- exfalso. nra.
Qed.

Lemma Interface_arc_ends_at_drop_off (g : Interface.Globals) :
  Interface_window_initial g ->
  on_board_circle (Interface.cue_start_pos g) ->
  Interface.arc g 8 = Interface.xcd (Interface.cue_start_pos g).
Proof.
  intros (H0 & H1 & H2 & H3 & H4) (Hc & Hc2 & Hc3).
  assert (Hr : Interface.r > 0) by (unfold Interface.r; lra).
  set (cue := Interface.cue_start_pos g) in *.
  destruct (circle_point (c_1 cue) (- c_0 cue) Interface.r Hr) as [Hsin Hcos];
    [lra|].
  unfold Interface.arc. cbv zeta. rewrite H1, H2. fold cue.
  set (t0 := atan2 (v_x Interface.xc - Interface.x_offset) _).
  assert (Hxf : v_x (Interface.xcd cue) - Interface.x_offset = c_1 cue).
  { unfold Interface.xcd, dot4. cbn [v_x c_0 c_1 c_2 c_3]. rewrite Hc2, Hc3. ring. }
  assert (Hyf : v_y (Interface.xcd cue) - Interface.y_offset = - c_0 cue).
  { unfold Interface.xcd, dot4. cbn [v_y c_0 c_1 c_2 c_3]. rewrite Hc2, Hc3. ring. }
  rewrite Hxf, Hyf.
  set (tf := atan2 (c_1 cue) (- c_0 cue)) in *.
  replace ((8 - 4) * (tf - t0) / (8 - 4) + t0) with tf by field.
  rewrite Hsin, Hcos.
  unfold Interface.xcd, dot4, Interface.xc. cbn [v_x v_y v_z c_0 c_1 c_2 c_3].
  rewrite Hc2, Hc3. f_equal; ring.
Qed.

(** C3, as amended.  With the boundaries of the source, for every drop-off
    position and strike angle the desired position and orientation are
    continuous from the left at [t_1] and at [t_3].  At [t_2] the position
    tends to the point of the board circle at the bearing of the drop-off
    position and then takes the drop-off position itself, so it is
    continuous there when the drop-off position lies on the circle; the
    orientation tends to the yaw of -pi/4 and then takes the yaw of
    -pi/2 + psi, so it is continuous there when psi = pi/4. *)
Theorem trajectory_continuity_at_boundaries :
  forall (g : Interface.Globals) (psi : double),
    Interface_window_initial g ->
    left_limit v3_dist (Interface.calculatePointInTrajectory g) (Interface.t_1 g)
               (Interface.calculatePointInTrajectory g (Interface.t_1 g)) /\
    left_limit m3_dist (fun t => Interface.calculateRotationInTrajectory g t psi)
               (Interface.t_1 g)
               (Interface.calculateRotationInTrajectory g (Interface.t_1 g) psi) /\
    left_limit v3_dist (Interface.calculatePointInTrajectory g) (Interface.t_3 g)
               (Interface.calculatePointInTrajectory g (Interface.t_3 g)) /\
    left_limit m3_dist (fun t => Interface.calculateRotationInTrajectory g t psi)
               (Interface.t_3 g)
               (Interface.calculateRotationInTrajectory g (Interface.t_3 g) psi) /\
    left_limit v3_dist (Interface.calculatePointInTrajectory g) (Interface.t_2 g)
               (Interface.arc g (Interface.t_2 g)) /\
    Interface.calculatePointInTrajectory g (Interface.t_2 g) =
    Interface.xcd (Interface.cue_start_pos g) /\
    (on_board_circle (Interface.cue_start_pos g) ->
     left_limit v3_dist (Interface.calculatePointInTrajectory g) (Interface.t_2 g)
                (Interface.calculatePointInTrajectory g (Interface.t_2 g))) /\
    left_limit m3_dist (fun t => Interface.calculateRotationInTrajectory g t psi)
               (Interface.t_2 g)
               (m3_mul (rotZ (- M_PI / 4)) Interface.home_orientation) /\
    Interface.calculateRotationInTrajectory g (Interface.t_2 g) psi =
    m3_mul (rotZ (- M_PI / 2 + psi)) Interface.home_orientation /\
    (psi = PI / 4 ->
     left_limit m3_dist (fun t => Interface.calculateRotationInTrajectory g t psi)
                (Interface.t_2 g)
                (Interface.calculateRotationInTrajectory g (Interface.t_2 g) psi)).
Proof.
  intros g psi Hwin.
  pose proof Hwin as (H0 & H1 & H2 & H3 & H4).
  rewrite H1, H2, H3.
  split; [rewrite (Interface_point_at_t_1 g Hwin);
          apply (Interface_point_left_limit_t_1 g Hwin)|].
  split; [apply (Interface_rotation_left_limit_t_1 g Hwin)|].
  split; [apply (Interface_point_left_limit_t_3 g Hwin)|].
  split; [apply (Interface_rotation_left_limit_t_3 g Hwin)|].
  split; [apply (Interface_point_left_limit_t_2 g Hwin)|].
  split; [apply (Interface_point_at_t_2 g Hwin)|].
  split.
  - intros Hcircle.
    rewrite (Interface_point_at_t_2 g Hwin),
      <- (Interface_arc_ends_at_drop_off g Hwin Hcircle).
    apply (Interface_point_left_limit_t_2 g Hwin).
  - split; [apply (Interface_rotation_left_limit_t_2 g Hwin)|].
    split; [apply (Interface_rotation_at_t_2 g Hwin)|].
    intros Hpsi.
    rewrite (Interface_rotation_at_t_2 g Hwin), Hpsi.
    replace (- M_PI / 2 + PI / 4) with (- M_PI / 4) by (unfold M_PI; lra).
    apply (Interface_rotation_left_limit_t_2 g Hwin).
Qed.

Lemma Interface_globals_with_cue_window (cue : Vector4d) :
  Interface_window_initial (Interface_globals_with_cue cue).
Proof. unfold Interface_window_initial. cbn. repeat split; reflexivity. Qed.

(** A drop-off position on the circle and the strike angle pi/4: the pose
    is continuous from the left at [t_2] too. *)
Lemma continuity_on_circle_sample :
  left_limit v3_dist (Interface.calculatePointInTrajectory Interface_globals_on_circle)
             (Interface.t_2 Interface_globals_on_circle)
             (Interface.calculatePointInTrajectory
                Interface_globals_on_circle
                (Interface.t_2 Interface_globals_on_circle)) /\
  left_limit m3_dist
             (fun t => Interface.calculateRotationInTrajectory
                         Interface_globals_on_circle t (PI / 4))
             (Interface.t_2 Interface_globals_on_circle)
             (Interface.calculateRotationInTrajectory
                Interface_globals_on_circle
                (Interface.t_2 Interface_globals_on_circle) (PI / 4)).
Proof.
  destruct (trajectory_continuity_at_boundaries
              Interface_globals_on_circle (PI / 4)
              (Interface_globals_with_cue_window _))
    as (_ & _ & _ & _ & _ & _ & Hpos & _ & _ & Hrot).
  split.
  - apply Hpos. unfold on_board_circle.
    cbn [Interface.cue_start_pos Interface_globals_on_circle Interface_globals_with_cue
         Interface.set_cue_start_pos c_0 c_1 c_2 c_3].
    repeat split; try reflexivity. ring.
  - apply Hrot. reflexivity.
Defined.

Lemma v3_dist_ge_y (p q : Vector3d) : Rabs (v_y p - v_y q) <= v3_dist p q.
Proof.
  unfold v3_dist.
  apply Rle_trans with (2 := Rmax_r _ _). apply Rmax_l.
Qed.

Lemma Interface_arc_inside_y :
  v_y (Interface.arc Interface_globals_inside 8) = Interface.r + Interface.y_offset.
Proof.
  unfold Interface.arc. cbv zeta. cbn [v_y].
  set (t0 := atan2 (v_x Interface.xc - Interface.x_offset) _).
  assert (Htf : atan2 (v_x (Interface.xcd (Interface.cue_start_pos Interface_globals_inside))
                       - Interface.x_offset)
                      (v_y (Interface.xcd (Interface.cue_start_pos Interface_globals_inside))
                       - Interface.y_offset) = 0).
  { unfold Interface.xcd, dot4. cbn.
    replace (0 * -0.1 + 1 * 0 + 0 * 0 + Interface.x_offset * 1 - Interface.x_offset)
      with 0 by lra.
    replace (-1 * -0.1 + 0 * 0 + 0 * 0 + Interface.y_offset * 1 - Interface.y_offset)
      with 0.1 by lra.
    unfold atan2. rewrite (proj2 (lt_d_true 0 0.1)) by lra.
    replace (0 / 0.1) with 0 by lra. apply atan_0. }
  rewrite Htf. cbn.
  replace ((8 - 4) * (0 - t0) / (8 - 4) + t0) with 0 by lra.
  rewrite cos_0. ring.
Qed.

(** C3, as stated, fails at [t_2].  For the drop-off position 100 mm from
    the centre the position has no left limit at [t_2] that is within 1e-6
    of the position at [t_2]: it comes in at the radius of the board, 0.2556
    m, and jumps to 0.1 m. *)
Lemma position_jumps_at_t_2 :
  ~ exists L : Vector3d,
      left_limit v3_dist (Interface.calculatePointInTrajectory Interface_globals_inside)
                 (Interface.t_2 Interface_globals_inside) L /\
      v3_dist L (Interface.calculatePointInTrajectory
                   Interface_globals_inside
                   (Interface.t_2 Interface_globals_inside)) <= 0.000001.
Proof.
  intros (L & HL & Hclose).
  pose proof (Interface_globals_with_cue_window (mkVector4d (-0.1) 0 0 1)) as Hwin.
  fold Interface_globals_inside in Hwin.
  change (Interface.t_2 Interface_globals_inside) with 8 in HL, Hclose.
  rewrite (Interface_point_at_t_2 _ Hwin) in Hclose.
  destruct (HL 0.01 ltac:(lra)) as (d1 & Hd1 & H1).
  destruct (Interface_point_left_limit_t_2 _ Hwin 0.01 ltac:(lra)) as (d2 & Hd2 & H2).
  pose proof (Rmin_l d1 d2) as Hl. pose proof (Rmin_r d1 d2) as Hr.
  assert (Hm : Rmin d1 d2 > 0) by (apply Rmin_glb_lt; assumption).
  set (t := 8 - Rmin d1 d2 / 2).
  specialize (H1 t ltac:(unfold t; lra)).
  specialize (H2 t ltac:(unfold t; lra)).
  pose proof (Rle_lt_trans _ _ _ (v3_dist_ge_y _ _) H1) as Z1.
  pose proof (Rle_lt_trans _ _ _ (v3_dist_ge_y _ _) H2) as Z2.
  pose proof (Rle_trans _ _ _ (v3_dist_ge_y _ _) Hclose) as Z3.
  rewrite Interface_arc_inside_y in Z2.
  assert (HY : v_y (Interface.xcd (Interface.cue_start_pos Interface_globals_inside))
               = 0.1 + Interface.y_offset).
  { unfold Interface.xcd, dot4. cbn. lra. }
  rewrite HY in Z3.
  apply Rabs_def2 in Z1. apply Rabs_def2 in Z2.
  assert (Z3' : Rabs (v_y L - (0.1 + Interface.y_offset)) < 0.00001) by lra.
  apply Rabs_def2 in Z3'.
  unfold Interface.r in *. lra.
Qed.

(** * Further properties of the code *)

(** ** The phase windows *)

(** X1.  [inRange] is a half-open interval: the lower limit is inside, the
    upper limit is outside, a window whose limits are equal or inverted is
    empty, and two windows that share a limit tile the interval they span,
    without a gap and without a common point. *)
Theorem inRange_windows_tile :
  (forall t lo mid hi : double,
      lo <= mid -> mid <= hi ->
      inRange t lo hi = inRange t lo mid || inRange t mid hi /\
      inRange t lo mid && inRange t mid hi = false) /\
  (forall lo hi : double,
      lo < hi -> inRange lo lo hi = true /\ inRange hi lo hi = false) /\
  (forall t lo hi : double, hi <= lo -> inRange t lo hi = false).
Proof.
  split; [|split].
  - intros t lo mid hi H1 H2. split.
    + destruct (inRange t lo hi) eqn:E, (inRange t lo mid) eqn:E1,
        (inRange t mid hi) eqn:E2; try reflexivity; exfalso;
        rewrite ?inRange_true, ?inRange_false in *; lra.
    + destruct (inRange t lo mid) eqn:E1, (inRange t mid hi) eqn:E2;
        try reflexivity; exfalso; rewrite ?inRange_true in *; lra.
  - intros lo hi H. split; [apply inRange_true | apply inRange_false]; lra.
  - intros t lo hi H. apply inRange_false. lra.
Qed.

(** The windows of the interface variant: 2 s < 4 s < 8 s. *)
Lemma inRange_windows_tile_sample :
  (inRange 2 0 8 = inRange 2 0 4 || inRange 2 4 8 /\
   inRange 2 0 4 && inRange 2 4 8 = false) /\
  (inRange 4 4 8 = true /\ inRange 8 4 8 = false) /\
  inRange 5 8 4 = false.
Proof.
  split; [|split].
  - apply (proj1 inRange_windows_tile); lra.
  - apply (proj1 (proj2 inRange_windows_tile)); lra.
  - apply (proj2 (proj2 inRange_windows_tile)); lra.
Defined.

(** ** What the goal-reached predicate guarantees *)

Lemma norm_nonneg (v : VectorXd) : 0 <= norm v.
Proof. unfold norm. apply sqrt_pos. Qed.

(** X2.  When [robotReachedGoal] answers true, each term of the weighted
    sum is below its share of epsilon: in the interface variant the end
    effector is within 0.3 m of the goal and slower than 0.03 m/s, in the
    starter variant within 0.0001 m and slower than 0.00001 m/s; and
    whatever the starter variant accepts, the interface variant accepts. *)
Theorem robotReachedGoal_bounds_each_term :
  forall x x_desired xdot xddot omega alpha : VectorXd,
    (Interface.robotReachedGoal x x_desired xdot xddot omega alpha = true ->
     norm (vminus x x_desired) < 0.3 /\ norm xdot < 0.03 /\
     norm xddot < 0.003 /\ norm omega < 0.003 /\ norm alpha < 0.003) /\
    (Starter.robotReachedGoal x x_desired xdot xddot omega alpha = true ->
     norm (vminus x x_desired) < 0.0001 /\ norm xdot < 0.00001 /\
     norm xddot < 0.000001 /\ norm omega < 0.000001 /\ norm alpha < 0.000001 /\
     Interface.robotReachedGoal x x_desired xdot xddot omega alpha = true).
Proof.
  intros x xd xdot xddot omega alpha.
  pose proof (norm_nonneg (vminus x xd)) as H1.
  pose proof (norm_nonneg xdot) as H2.
  pose proof (norm_nonneg xddot) as H3.
  pose proof (norm_nonneg omega) as H4.
  pose proof (norm_nonneg alpha) as H5.
  unfold Interface.robotReachedGoal, Starter.robotReachedGoal,
    Interface.epsilon, Starter.epsilon, error_norm.
  split.
  - destruct (lt_d _ 3) eqn:E; [|discriminate]. intros _. cmp_prop.
    repeat split; lra.
  - destruct (lt_d _ 0.001) eqn:E; [|discriminate]. intros _. cmp_prop.
    repeat split; try lra.
    replace (lt_d _ 3) with true; [reflexivity|].
    symmetry. apply lt_d_true. lra.
Qed.

(** At rest on the goal both variants answer true. *)
Lemma robotReachedGoal_bounds_at_rest :
  norm (vminus (toVectorXd Starter.xh) (toVectorXd Starter.xh)) < 0.0001 /\
  norm (toVectorXd zero3) < 0.00001 /\
  norm (toVectorXd zero3) < 0.000001 /\
  norm (toVectorXd zero3) < 0.000001 /\
  norm (toVectorXd zero3) < 0.000001 /\
  Interface.robotReachedGoal (toVectorXd Starter.xh) (toVectorXd Starter.xh)
                             (toVectorXd zero3) (toVectorXd zero3)
                             (toVectorXd zero3) (toVectorXd zero3) = true.
Proof.
  apply (proj2 (robotReachedGoal_bounds_each_term
                  (toVectorXd Starter.xh) (toVectorXd Starter.xh)
                  (toVectorXd zero3) (toVectorXd zero3)
                  (toVectorXd zero3) (toVectorXd zero3))).
  unfold Starter.robotReachedGoal. rewrite error_norm_at_rest.
  replace (lt_d 0 Starter.epsilon) with true; [reflexivity|].
  symmetry. apply lt_d_true. unfold Starter.epsilon. lra.
Defined.

(** ** The geometry of the desired position *)

Lemma Interface_xcd_of_board_point (a b : double) :
  Interface.xcd (mkVector4d a b 0 1) =
  mkVector3d (b + Interface.x_offset) (- a + Interface.y_offset) Interface.z_offset.
Proof. unfold Interface.xcd, dot4. cbn [c_0 c_1 c_2 c_3]. f_equal; ring. Qed.

(** X3.  In the third and fourth windows the desired position is the
    drop-off position of the board frame, ([a], [b]) in metres, carried into
    the robot frame: a quarter turn and the offsets of the board centre, at
    the height of the board.  The map keeps distances, and the centre of the
    board goes to the offsets. *)
Theorem drop_off_is_cue_in_robot_frame :
  (forall (g : Interface.Globals) (t a b : double),
      window_ordered g ->
      Interface.cue_start_pos g = mkVector4d a b 0 1 ->
      Interface.t_2 g <= t < Interface.t_4 g ->
      Interface.calculatePointInTrajectory g t =
      mkVector3d (b + Interface.x_offset) (- a + Interface.y_offset)
                 Interface.z_offset) /\
  (forall a b a' b' : double,
      let p := Interface.xcd (mkVector4d a b 0 1) in
      let p' := Interface.xcd (mkVector4d a' b' 0 1) in
      (v_x p - v_x p') * (v_x p - v_x p') + (v_y p - v_y p') * (v_y p - v_y p') =
      (a - a') * (a - a') + (b - b') * (b - b') /\
      v_z p = v_z p') /\
  Interface.xcd (mkVector4d 0 0 0 1) =
  mkVector3d Interface.x_offset Interface.y_offset Interface.z_offset.
Proof.
  split; [|split].
  - intros g t a b (H01 & H12 & H23 & H34) Hcue [Hlo Hhi].
    unfold Interface.calculatePointInTrajectory.
    rewrite (inRange_above t (Interface.t_0 g)) by lra.
    rewrite (inRange_above t (Interface.t_1 g)) by lra.
    rewrite Hcue, Interface_xcd_of_board_point.
    destruct (inRange t (Interface.t_2 g) (Interface.t_3 g)) eqn:E2; [reflexivity|].
    replace (inRange t (Interface.t_3 g) (Interface.t_4 g)) with true; [reflexivity|].
    symmetry. apply inRange_true. apply inRange_false in E2. lra.
  - intros a b a' b'. cbv zeta. rewrite !Interface_xcd_of_board_point.
    cbn [v_x v_y v_z]. split; [ring | reflexivity].
  - rewrite Interface_xcd_of_board_point. f_equal; ring.
Qed.

(** The drop-off position 100 mm from the centre of the board, at 10 s. *)
Lemma drop_off_of_sample_shot :
  Interface.calculatePointInTrajectory Interface_globals_inside 10 =
  mkVector3d (0 + Interface.x_offset) (- (-0.1) + Interface.y_offset)
             Interface.z_offset.
Proof.
  apply (proj1 drop_off_is_cue_in_robot_frame Interface_globals_inside 10 (-0.1) 0).
  - unfold window_ordered. cbn. lra.
  - reflexivity.
  - cbn. lra.
Defined.

Lemma circle_point_on_circle (cx cy rad z angle : double) :
  on_circle cx cy rad z (mkVector3d (rad * sin angle + cx) (rad * cos angle + cy) z).
Proof.
  unfold on_circle. cbn [v_x v_y v_z]. split; [|reflexivity].
  pose proof (sin2_cos2 angle) as H. unfold Rsqr in H.
  replace ((rad * sin angle + cx - cx) * (rad * sin angle + cx - cx) +
           (rad * cos angle + cy - cy) * (rad * cos angle + cy - cy))
    with (rad * rad * (sin angle * sin angle + cos angle * cos angle)) by ring.
  rewrite H. ring.
Qed.

(** X4.  In the second window the desired position lies on the circle of
    the board (radius 20.125 in / 2 about the board centre) at the height of
    the cue coin, in both variants and for every drop-off position. *)
Theorem arc_stays_on_board_circle :
  (forall (g : Interface.Globals) (t : double),
      window_ordered g ->
      Interface.t_1 g <= t < Interface.t_2 g ->
      on_circle Interface.x_offset Interface.y_offset Interface.r Interface.z_offset
                (Interface.calculatePointInTrajectory g t)) /\
  (forall (g : Starter.Globals) (t : double),
      Starter_window_ordered g ->
      Starter.t_1 g <= t < Starter.t_2 g ->
      on_circle Starter.x_offset Starter.y_offset Starter.r 0.5
                (Starter.calculatePointInTrajectory g t)).
Proof.
  split.
  - intros g t (H01 & H12 & H23 & H34) [Hlo Hhi].
    unfold Interface.calculatePointInTrajectory.
    rewrite (inRange_above t (Interface.t_0 g)) by lra.
    replace (inRange t (Interface.t_1 g) (Interface.t_2 g)) with true
      by (symmetry; apply inRange_true; lra).
    unfold Interface.arc. cbv zeta. apply circle_point_on_circle.
  - intros g t (H01 & H12 & H23 & H34) [Hlo Hhi].
    unfold Starter.calculatePointInTrajectory.
    rewrite (inRange_above t (Starter.t_0 g)) by lra.
    replace (inRange t (Starter.t_1 g) (Starter.t_2 g)) with true
      by (symmetry; apply inRange_true; lra).
    unfold Starter.arc. cbv zeta. apply circle_point_on_circle.
Qed.

(** Half way through the second window of each variant. *)
Lemma arc_on_board_circle_sample :
  on_circle Interface.x_offset Interface.y_offset Interface.r Interface.z_offset
            (Interface.calculatePointInTrajectory Interface_globals_inside 6) /\
  on_circle Starter.x_offset Starter.y_offset Starter.r 0.5
            (Starter.calculatePointInTrajectory
               (Starter.mkGlobals WAIT_MODE Starter.JOINT_CONTROLLER 0 0 5 10 15 20)
               7.5).
Proof.
  split.
  - apply (proj1 arc_stays_on_board_circle).
    + unfold window_ordered. cbn. lra.
    + cbn. lra.
  - apply (proj2 arc_stays_on_board_circle).
    + unfold Starter_window_ordered. cbn. lra.
    + cbn. lra.
Defined.

(** X5.  In the first window the desired position moves on the straight
    segment from the home position towards the cue coin: it starts at home
    and has covered the fraction (t - t_0) / (t_1 - t_0) of the way, which is
    less than one.  The starter variant divides by the literal 5, which is
    its [t_1 - t_0]. *)
Theorem approach_moves_along_segment :
  (forall (g : Interface.Globals) (t : double),
      Interface.t_0 g <= t < Interface.t_1 g ->
      let lambda := (t - Interface.t_0 g) / (Interface.t_1 g - Interface.t_0 g) in
      0 <= lambda < 1 /\
      Interface.calculatePointInTrajectory g t =
      v3_plus Interface.xh
              (v3_scale (v3_minus Interface.xc Interface.xh) lambda) /\
      Interface.calculatePointInTrajectory g (Interface.t_0 g) = Interface.xh) /\
  (forall (g : Starter.Globals) (t : double),
      Starter.t_0 g = 0 -> Starter.t_1 g = 5 ->
      0 <= t < 5 ->
      0 <= t / 5 < 1 /\
      Starter.calculatePointInTrajectory g t =
      v3_plus Starter.xh (v3_scale (v3_minus Starter.xc Starter.xh) (t / 5)) /\
      Starter.calculatePointInTrajectory g 0 = Starter.xh).
Proof.
  split.
  - intros g t [Hlo Hhi]. cbv zeta.
    assert (Hd : 0 < Interface.t_1 g - Interface.t_0 g) by lra.
    split; [|split].
    + split.
      * apply Rmult_le_pos; [lra | left; apply Rinv_0_lt_compat; exact Hd].
      * apply (Rmult_lt_reg_r (Interface.t_1 g - Interface.t_0 g)); [exact Hd|].
        unfold Rdiv. rewrite Rmult_assoc, Rinv_l by lra. lra.
    + unfold Interface.calculatePointInTrajectory.
      replace (inRange t (Interface.t_0 g) (Interface.t_1 g)) with true
        by (symmetry; apply inRange_true; lra).
      unfold v3_plus, v3_div, v3_scale, v3_minus. cbn [v_x v_y v_z].
      f_equal; unfold Rdiv; ring.
    + unfold Interface.calculatePointInTrajectory.
      replace (inRange (Interface.t_0 g) (Interface.t_0 g) (Interface.t_1 g)) with true
        by (symmetry; apply inRange_true; lra).
      unfold v3_plus, v3_div, v3_scale, v3_minus. cbn [v_x v_y v_z].
      destruct Interface.xh as [hx hy hz]. cbn [v_x v_y v_z].
      f_equal; unfold Rdiv; ring.
  - intros g t H0 H1 [Hlo Hhi].
    split; [lra|]. split.
    + unfold Starter.calculatePointInTrajectory. rewrite H0, H1.
      replace (inRange t 0 5) with true by (symmetry; apply inRange_true; lra).
      unfold v3_plus, v3_div, v3_scale, v3_minus. cbn [v_x v_y v_z].
      f_equal; unfold Rdiv; ring.
    + unfold Starter.calculatePointInTrajectory. rewrite H0, H1.
      replace (inRange 0 0 5) with true by (symmetry; apply inRange_true; lra).
      unfold v3_plus, v3_div, v3_scale, v3_minus. cbn [v_x v_y v_z].
      destruct Starter.xh as [hx hy hz]. cbn [v_x v_y v_z].
      f_equal; unfold Rdiv; ring.
Qed.

(** One second into the approach of each variant: a quarter, and a fifth,
    of the way. *)
Lemma approach_after_one_second :
  (0 <= (1 - 0) / (4 - 0) < 1 /\
   Interface.calculatePointInTrajectory Interface_globals0 1 =
   v3_plus Interface.xh
           (v3_scale (v3_minus Interface.xc Interface.xh) ((1 - 0) / (4 - 0))) /\
   Interface.calculatePointInTrajectory Interface_globals0 0 = Interface.xh) /\
  (0 <= 1 / 5 < 1 /\
   Starter.calculatePointInTrajectory
     (Starter.mkGlobals WAIT_MODE Starter.JOINT_CONTROLLER 0 0 5 10 15 20) 1 =
   v3_plus Starter.xh (v3_scale (v3_minus Starter.xc Starter.xh) (1 / 5)) /\
   Starter.calculatePointInTrajectory
     (Starter.mkGlobals WAIT_MODE Starter.JOINT_CONTROLLER 0 0 5 10 15 20) 0 =
   Starter.xh).
Proof.
  split.
  - apply (proj1 approach_moves_along_segment Interface_globals0 1). cbn. lra.
  - apply (proj2 approach_moves_along_segment
                 (Starter.mkGlobals WAIT_MODE Starter.JOINT_CONTROLLER 0 0 5 10 15 20) 1);
      [reflexivity | reflexivity | lra].
Defined.

(** ** The desired orientation *)

Lemma rotZ_0 (h : Matrix3d) : m3_mul (rotZ 0) h = h.
Proof.
  destruct h as [h00 h01 h02 h10 h11 h12 h20 h21 h22].
  unfold m3_mul, rotZ. cbn [m00 m01 m02 m10 m11 m12 m20 m21 m22].
  rewrite sin_0, cos_0. f_equal; ring.
Qed.

Lemma rotZ_keeps_gram (angle : double) (h : Matrix3d) :
  m3_mul (m3_transpose (m3_mul (rotZ angle) h)) (m3_mul (rotZ angle) h) =
  m3_mul (m3_transpose h) h.
Proof.
  pose proof (sin2_cos2 angle) as H. unfold Rsqr in H.
  assert (Hc : cos angle * cos angle = 1 - sin angle * sin angle) by lra.
  destruct h as [h00 h01 h02 h10 h11 h12 h20 h21 h22].
  unfold m3_mul, m3_transpose, rotZ. cbn [m00 m01 m02 m10 m11 m12 m20 m21 m22].
  set (s := sin angle) in *. set (c := cos angle) in *.
  f_equal.
  all: match goal with
       | |- ?l = ?r =>
         let d := constr:(l - r) in
         assert (Hd : d = 0); [|lra]
       end.
  all: ring_simplify; rewrite ?(Rpow_mult_distr); 
       replace (c ^ 2) with (1 - s ^ 2) by (simpl; lra); ring.
Qed.

Lemma rotZ_keeps_det (angle : double) (h : Matrix3d) :
  m3_det (m3_mul (rotZ angle) h) = m3_det h.
Proof.
  pose proof (sin2_cos2 angle) as H. unfold Rsqr in H.
  destruct h as [h00 h01 h02 h10 h11 h12 h20 h21 h22].
  unfold m3_det, m3_mul, rotZ. cbn [m00 m01 m02 m10 m11 m12 m20 m21 m22].
  set (s := sin angle) in *. set (c := cos angle) in *.
  match goal with
  | |- ?l = ?r => assert (Hd : l - r = 0); [|lra]
  end.
  ring_simplify.
  replace (c ^ 2) with (1 - s ^ 2) by (simpl; lra). ring.
Qed.

Lemma rotZ_keeps_third_row (angle : double) (h : Matrix3d) :
  m20 (m3_mul (rotZ angle) h) = m20 h /\
  m21 (m3_mul (rotZ angle) h) = m21 h /\
  m22 (m3_mul (rotZ angle) h) = m22 h.
Proof.
  unfold m3_mul, rotZ. cbn [m00 m01 m02 m10 m11 m12 m20 m21 m22].
  repeat split; ring.
Qed.

Lemma Interface_rotation_is_turn_of_home (g : Interface.Globals) (t psi : double) :
  exists angle,
    Interface.calculateRotationInTrajectory g t psi =
    m3_mul (rotZ angle) Interface.home_orientation.
Proof.
  unfold Interface.calculateRotationInTrajectory.
  repeat match goal with
         | |- context [if ?b then _ else _] => destruct b
         end;
    try (eexists; reflexivity).
  exists 0. symmetry. apply rotZ_0.
Qed.

Lemma Starter_rotation_is_turn_of_home (g : Starter.Globals) (t : double) :
  exists angle,
    Starter.calculateRotationInTrajectory g t =
    m3_mul (rotZ angle) Starter.home_orientation.
Proof.
  unfold Starter.calculateRotationInTrajectory.
  repeat match goal with
         | |- context [if ?b then _ else _] => destruct b
         end;
    try (eexists; reflexivity);
    exists 0; symmetry; apply rotZ_0.
Qed.

(** X6.  Whatever the time and the strike angle, the desired orientation is
    the home orientation turned about the vertical axis of the robot frame:
    its third row is that of the home orientation.  In the starter variant,
    whose home orientation is a rotation matrix, the desired orientation is
    always a rotation matrix: orthogonal, with determinant 1. *)
Theorem desired_orientation_turns_about_vertical :
  (forall (g : Interface.Globals) (t psi : double),
      let R := Interface.calculateRotationInTrajectory g t psi in
      (exists angle, R = m3_mul (rotZ angle) Interface.home_orientation) /\
      m20 R = m20 Interface.home_orientation /\
      m21 R = m21 Interface.home_orientation /\
      m22 R = m22 Interface.home_orientation /\
      m3_mul (m3_transpose R) R =
      m3_mul (m3_transpose Interface.home_orientation) Interface.home_orientation) /\
  (forall (g : Starter.Globals) (t : double),
      let R := Starter.calculateRotationInTrajectory g t in
      m3_mul (m3_transpose R) R = m3_identity /\ m3_det R = 1).
Proof.
  split.
  - intros g t psi R.
    destruct (Interface_rotation_is_turn_of_home g t psi) as [angle Ha].
    fold R in Ha.
    split; [exists angle; exact Ha|].
    rewrite Ha.
    destruct (rotZ_keeps_third_row angle Interface.home_orientation) as (H0 & H1 & H2).
    rewrite H0, H1, H2, rotZ_keeps_gram. repeat split; reflexivity.
  - intros g t R.
    destruct (Starter_rotation_is_turn_of_home g t) as [angle Ha].
    fold R in Ha. rewrite Ha, rotZ_keeps_gram, rotZ_keeps_det.
    unfold m3_mul, m3_transpose, m3_det, m3_identity, Starter.home_orientation.
    cbn [m00 m01 m02 m10 m11 m12 m20 m21 m22].
    split; [f_equal; ring | ring].
Qed.

(** ** The swing of the shot *)

(** X7.  [flick] and [flick_time] of the starter variant, for a swing between
    two different angles at a hit velocity other than zero: the swing starts
    at the start angle, and over the time [flick_time] computes the tip of
    the end effector (at the distance [ee_length] from the joint) moves at
    the hit velocity.  It ends at the end angle when that is the larger
    angle; when the end angle is the smaller one the swing still goes
    upwards, and ends on the other side of the start angle.  [flick_time] of
    the interface variant is the same time for the swing angle it is
    given. *)
Theorem flick_sweeps_at_hit_velocity :
  forall start_angle end_angle hit_velocity ee_length t1 t2 : double,
    start_angle <> end_angle -> hit_velocity <> 0 -> ee_length <> 0 ->
    let T := Starter.flick_time start_angle end_angle hit_velocity ee_length in
    T <> 0 /\
    T = Interface.flick_time (Rabs (end_angle - start_angle)) hit_velocity ee_length /\
    Starter.flick 0 T start_angle end_angle = start_angle /\
    Starter.flick T T start_angle end_angle =
    start_angle + Rabs (end_angle - start_angle) /\
    (start_angle < end_angle ->
     Starter.flick T T start_angle end_angle = end_angle) /\
    (end_angle < start_angle ->
     Starter.flick T T start_angle end_angle = start_angle + (start_angle - end_angle)) /\
    (Starter.flick t2 T start_angle end_angle -
     Starter.flick t1 T start_angle end_angle) * ee_length =
    hit_velocity * (t2 - t1).
Proof.
  intros s e hv L t1 t2 Hse Hhv HL T.
  assert (Hr : Rabs (e - s) <> 0) by (apply Rabs_no_R0; lra).
  assert (HT : T <> 0).
  { unfold T, Starter.flick_time. cbv zeta. unfold Rdiv.
    apply Rmult_integral_contrapositive_currified.
    - apply Rmult_integral_contrapositive_currified; assumption.
    - apply Rinv_neq_0_compat. exact Hhv. }
  assert (Hend : Starter.flick T T s e = s + Rabs (e - s)).
  { unfold Starter.flick. cbv zeta. field. exact HT. }
  split; [exact HT|]. split; [reflexivity|].
  split; [unfold Starter.flick; cbv zeta; field; exact HT|].
  split; [exact Hend|].
  split; [intros Hlt; rewrite Hend, Rabs_pos_eq by lra; ring|].
  split; [intros Hlt; rewrite Hend, Rabs_left by lra; ring|].
  unfold Starter.flick, T, Starter.flick_time. cbv zeta. field.
  repeat split; assumption.
Qed.

(** A swing of 2 rad at 0.5 m/s, the tip 0.25 m from the joint: it lasts
    one second. *)
Lemma flick_of_two_radians :
  let T := Starter.flick_time 1 3 0.5 0.25 in
  T <> 0 /\
  T = Interface.flick_time (Rabs (3 - 1)) 0.5 0.25 /\
  Starter.flick 0 T 1 3 = 1 /\
  Starter.flick T T 1 3 = 1 + Rabs (3 - 1) /\
  (1 < 3 -> Starter.flick T T 1 3 = 3) /\
  (3 < 1 -> Starter.flick T T 1 3 = 1 + (1 - 3)) /\
  (Starter.flick 1 T 1 3 - Starter.flick 0 T 1 3) * 0.25 = 0.5 * (1 - 0).
Proof. apply (flick_sweeps_at_hit_velocity 1 3 0.5 0.25 0 1); lra. Defined.

Lemma derivable_pt_lim_eq (f : R -> R) (x l l' : R) :
  l = l' -> derivable_pt_lim f x l -> derivable_pt_lim f x l'.
Proof. intros <-. exact (fun H => H). Qed.

Lemma sinusoid_derivative (a w c theta t : R) :
  derivable_pt_lim (fun u => - a * sin (w * u - c) + theta) t
                   (- a * w * cos (w * t - c)).
Proof.
  apply (derivable_pt_lim_eq _ t ((- a) * (cos (w * t - c) * (w * 1 - 0)) + 0));
    [ring|].
  change (fun u => - a * sin (w * u - c) + theta)
    with (plus_fct (mult_real_fct (- a)
                      (comp sin (minus_fct (mult_real_fct w id) (fct_cte c))))
                   (fct_cte theta)).
  apply derivable_pt_lim_plus; [|apply derivable_pt_lim_const].
  apply derivable_pt_lim_scal.
  apply (derivable_pt_lim_comp (minus_fct (mult_real_fct w id) (fct_cte c)) sin).
  - apply derivable_pt_lim_minus; [|apply derivable_pt_lim_const].
    apply derivable_pt_lim_scal. apply derivable_pt_lim_id.
  - apply derivable_pt_lim_sin.
Qed.

(** X8.  [sinusoidal_trajectory] and [sinusoidal_velocity] of the interface
    variant, for a swing angle above zero: the angle stays within half the
    swing angle of [theta_mid]; the swing starts at the upper end, at rest;
    [sinusoidal_velocity] is the time derivative of
    [sinusoidal_trajectory]; its size never exceeds the angular velocity
    asked for, which is reached, downwards, a quarter period after the
    start. *)
Theorem sinusoidal_swing_profile :
  forall angular_velocity theta_mid swing_angle : double,
    swing_angle > 0 ->
    (forall t,
        theta_mid - swing_angle / 2 <=
        Interface.sinusoidal_trajectory angular_velocity t theta_mid swing_angle <=
        theta_mid + swing_angle / 2) /\
    Interface.sinusoidal_trajectory angular_velocity 0 theta_mid swing_angle =
    theta_mid + swing_angle / 2 /\
    Interface.sinusoidal_velocity angular_velocity 0 theta_mid swing_angle = 0 /\
    (forall t,
        derivable_pt_lim
          (fun u => Interface.sinusoidal_trajectory angular_velocity u theta_mid
                                                    swing_angle)
          t
          (Interface.sinusoidal_velocity angular_velocity t theta_mid swing_angle)) /\
    (forall t,
        Rabs (Interface.sinusoidal_velocity angular_velocity t theta_mid swing_angle)
        <= Rabs angular_velocity) /\
    (angular_velocity <> 0 ->
     Interface.sinusoidal_velocity
       angular_velocity (PI / 2 / (angular_velocity / (swing_angle / 2)))
       theta_mid swing_angle = - angular_velocity).
Proof.
  intros av theta sw Hsw.
  unfold Interface.sinusoidal_trajectory, Interface.sinusoidal_velocity, M_PI.
  cbv zeta.
  set (a := sw / 2.0). set (w := av / a).
  assert (Ha : a > 0) by (unfold a; lra).
  assert (Haw : a * w = av) by (unfold w; field; lra).
  split; [|split; [|split; [|split; [|split]]]].
  - intros t. pose proof (SIN_bound (w * t - PI / 2.0)) as [Hlo Hhi].
    replace (sw / 2) with a by (unfold a; lra). nra.
  - replace (w * 0 - PI / 2.0) with (- (PI / 2)) by lra.
    rewrite sin_neg, sin_PI2. unfold a. lra.
  - replace (w * 0 - PI / 2.0) with (- (PI / 2)) by lra.
    rewrite cos_neg, cos_PI2. ring.
  - intros t. apply sinusoid_derivative.
  - intros t.
    replace (- a * w * cos (w * t - PI / 2.0))
      with (- av * cos (w * t - PI / 2.0)) by (rewrite <- Haw; ring).
    rewrite Rabs_mult, Rabs_Ropp.
    pose proof (COS_bound (w * t - PI / 2.0)) as [Hlo Hhi].
    assert (Hc : Rabs (cos (w * t - PI / 2.0)) <= 1) by (apply Rabs_le; lra).
    pose proof (Rabs_pos av). nra.
  - intros Hav.
    assert (Hw : w <> 0).
    { unfold w, Rdiv. apply Rmult_integral_contrapositive_currified;
        [exact Hav | apply Rinv_neq_0_compat; lra]. }
    replace (sw / 2) with a by (unfold a; lra). fold w.
    assert (Hq : w * (PI / 2 / w) = PI / 2) by (field; exact Hw).
    replace (w * (PI / 2 / w) - PI / 2.0) with 0 by lra.
    rewrite cos_0, <- Haw. ring.
Qed.

(** The swing of 120 degrees that the activation sets up, at 2 rad/s. *)
Lemma sinusoidal_swing_of_120_degrees :
  Interface.sinusoidal_trajectory 2 0 (-0.83) (2 * PI / 3) = -0.83 + 2 * PI / 3 / 2 /\
  Interface.sinusoidal_velocity 2 0 (-0.83) (2 * PI / 3) = 0.
Proof.
  pose proof PI_RGT_0 as Hpi.
  destruct (sinusoidal_swing_profile 2 (-0.83) (2 * PI / 3)) as (_ & H0 & H1 & _);
    [lra|].
  split; [exact H0 | exact H1].
Defined.

(** ** The strings of the shot *)

Lemma string_length_app (a b : string) :
  String.length (a ++ b) = (String.length a + String.length b)%nat.
Proof. induction a as [|c a IH]; simpl; [reflexivity | rewrite IH; reflexivity]. Qed.

Lemma substring_whole (p : string) : substring 0 (String.length p) p = p.
Proof. induction p as [|c p IH]; simpl; [reflexivity | rewrite IH; reflexivity]. Qed.

Lemma substring_head (a x : string) : substring 0 (String.length a) (a ++ x) = a.
Proof.
  induction a as [|c a IH]; simpl.
  - destruct x; reflexivity.
  - rewrite IH. reflexivity.
Qed.

Lemma substring_after_comma (a b : string) :
  substring (S (String.length a)) (String.length b) (a ++ "," ++ b) = b.
Proof.
  induction a as [|c a IH].
  - change ("" ++ "," ++ b)%string with (String "," b).
    cbn [String.length substring]. apply substring_whole.
  - change (String c a ++ "," ++ b)%string with (String c (a ++ "," ++ b)).
    cbn [String.length]. cbn [substring]. exact IH.
Qed.

Lemma index_comma_cons (c : ascii) (p : string) :
  index 0 "," (String c p) =
  if ascii_dec "," c then Some 0%nat
  else match index 0 "," p with Some n => Some (S n) | None => None end.
Proof.
  cbn [index prefix]. destruct (ascii_dec "," c); [|reflexivity].
  destruct p; reflexivity.
Qed.

Lemma index_comma_after (a b : string) :
  no_comma a -> index 0 "," (a ++ "," ++ b) = Some (String.length a).
Proof.
  unfold no_comma. induction a as [|c a IH]; intros Hno.
  - change ("" ++ "," ++ b)%string with (String "," b).
    rewrite index_comma_cons.
    destruct (ascii_dec "," ","); [reflexivity | congruence].
  - change (String c a ++ "," ++ b)%string with (String c (a ++ "," ++ b)).
    rewrite index_comma_cons in Hno |- *.
    destruct (ascii_dec "," c); [discriminate|].
    destruct (index 0 "," a) eqn:Ea; [discriminate|].
    rewrite (IH eq_refl). reflexivity.
Qed.

Lemma find_comma_after (a b : string) :
  no_comma a -> find (a ++ "," ++ b) "," = Z.of_nat (String.length a).
Proof. intros Hno. unfold find. rewrite (index_comma_after a b Hno). reflexivity. Qed.

Lemma to_int_small (z : Z) : (0 <= z < 2 ^ 31)%Z -> to_int z = z.
Proof. intros H. unfold to_int. rewrite Z.mod_small; lia. Qed.

Lemma to_int_npos : to_int npos = (-1)%Z.
Proof. reflexivity. Qed.

Lemma to_size_t_small (z : Z) : (0 <= z < 2 ^ 64)%Z -> to_size_t z = z.
Proof. intros H. unfold to_size_t. apply Z.mod_small. exact H. Qed.

(** The two pieces [substr] cuts a shot position "[sx],[sy]" into. *)
Lemma shot_position_pieces (sx sy : string) :
  no_comma sx ->
  (Z.of_nat (String.length sx) < 2 ^ 31)%Z ->
  let shot_pos := (sx ++ "," ++ sy)%string in
  let delimiter := to_int (find shot_pos ",") in
  substr shot_pos 0 (to_size_t delimiter) = sx /\
  substr shot_pos (to_size_t (delimiter + 1)) (Z.of_nat (String.length shot_pos)) = sy.
Proof.
  intros Hno Hlen shot_pos delimiter.
  assert (Hd : delimiter = Z.of_nat (String.length sx)).
  { unfold delimiter, shot_pos. rewrite (find_comma_after sx sy Hno).
    apply to_int_small. lia. }
  assert (Htot : String.length shot_pos = (String.length sx + S (String.length sy))%nat).
  { unfold shot_pos. rewrite string_length_app. reflexivity. }
  rewrite Hd. unfold substr.
  rewrite !to_size_t_small by lia. rewrite Htot. split.
  - rewrite Z.min_l by lia. rewrite Nat2Z.id. change (Z.to_nat 0) with 0%nat.
    apply substring_head.
  - rewrite Z.min_r by lia.
    replace (Z.to_nat (Z.of_nat (String.length sx) + 1)) with (S (String.length sx)) by lia.
    replace (Z.to_nat (Z.of_nat (String.length sx + S (String.length sy)) -
                       (Z.of_nat (String.length sx) + 1)))
      with (String.length sy) by lia.
    unfold shot_pos. apply substring_after_comma.
Qed.

(** The two pieces when the shot position has no comma: both are the whole
    string. *)
Lemma shot_position_pieces_no_comma (p : string) :
  no_comma p ->
  (Z.of_nat (String.length p) < 2 ^ 64)%Z ->
  let delimiter := to_int (find p ",") in
  substr p 0 (to_size_t delimiter) = p /\
  substr p (to_size_t (delimiter + 1)) (Z.of_nat (String.length p)) = p.
Proof.
  intros Hno Hlen delimiter.
  assert (Hd : delimiter = (-1)%Z).
  { unfold delimiter, find. unfold no_comma in Hno. rewrite Hno. apply to_int_npos. }
  rewrite Hd. unfold substr.
  change (to_size_t (-1)) with (2 ^ 64 - 1)%Z.
  change (to_size_t (-1 + 1)) with 0%Z.
  rewrite Z.sub_0_r. rewrite Z.min_r by lia. rewrite Z.min_id.
  rewrite Nat2Z.id. change (Z.to_nat 0) with 0%nat.
  split; apply substring_whole.
Qed.

(** What an activation that reads its three numbers leaves behind. *)
Lemma Interface_wait_activate_parsed (stod : string -> option double)
      (inp : Interface.TickInput) (s : Interface.World) (px py angle : double) :
  Interface.mode (Interface.globals s) = WAIT_MODE ->
  Interface_token inp s = "execute"%string ->
  let rd := Interface.external_writes inp (Interface.redis s) in
  let shot_pos := Interface.shotpos rd in
  let delimiter := to_int (find shot_pos ",") in
  stod (substr shot_pos 0 (to_size_t delimiter)) = Some px ->
  stod (substr shot_pos (to_size_t (delimiter + 1))
               (Z.of_nat (String.length shot_pos))) = Some py ->
  stod (Interface.shotangle rd) = Some angle ->
  exists s',
    Interface.step stod inp s = Some s' /\
    Interface.mode (Interface.globals s') = EXECUTE_MODE /\
    Interface.cue_start_pos (Interface.globals s') =
    mkVector4d (0.001 * px) (0.001 * py) 0 1 /\
    Interface.psi (Interface.locals s') = angle /\
    Interface.centershot (Interface.globals s') =
    (if le_d angle 1.571 && ge_d angle 1.569 then true
     else Interface.centershot (Interface.globals s)).
Proof.
  intros Hwait Htok rd shot_pos delimiter H1 H2 H3.
  unfold Interface_token in Htok. apply String.eqb_eq in Htok.
  unfold delimiter, shot_pos, rd in H1, H2, H3.
  unfold Interface.step, Interface.wait_mode. cbn. rewrite Hwait. cbn.
  rewrite Htok. cbn in H1, H2, H3. rewrite H1, H2, H3. cbn.
  eexists. split; [reflexivity|].
  destruct (le_d angle 1.571 && ge_d angle 1.569); cbn; repeat split; reflexivity.
Qed.

(** X9.  The shot position is read back from the string the shot planner
    writes: for a string "[sx],[sy]" whose first part has no comma, the
    activation reads the drop-off position from [sx] and from [sy], as
    millimetres, and the strike angle from the other string.  [sy] is all
    that follows the first comma. *)
Theorem shot_position_parses_back :
  forall (stod : string -> option double) (inp : Interface.TickInput)
         (s : Interface.World) (sx sy : string) (px py angle : double),
    Interface.mode (Interface.globals s) = WAIT_MODE ->
    Interface_token inp s = "execute"%string ->
    Interface.shotpos (Interface.external_writes inp (Interface.redis s)) =
    (sx ++ "," ++ sy)%string ->
    no_comma sx ->
    (Z.of_nat (String.length sx) < 2 ^ 31)%Z ->
    stod sx = Some px ->
    stod sy = Some py ->
    stod (Interface.shotangle (Interface.external_writes inp (Interface.redis s))) =
    Some angle ->
    exists s',
      Interface.step stod inp s = Some s' /\
      Interface.cue_start_pos (Interface.globals s') =
      mkVector4d (0.001 * px) (0.001 * py) 0 1 /\
      Interface.psi (Interface.locals s') = angle.
Proof.
  intros stod inp s sx sy px py angle Hwait Htok Hpos Hno Hlen Hx Hy Ha.
  destruct (shot_position_pieces sx sy Hno Hlen) as [E1 E2].
  cbv zeta in E1, E2.
  destruct (Interface_wait_activate_parsed stod inp s px py angle Hwait Htok)
    as (s' & Hs' & _ & Hcue & Hpsi & _).
  - cbv zeta. rewrite Hpos, E1. exact Hx.
  - cbv zeta. rewrite Hpos, E2. exact Hy.
  - exact Ha.
  - exists s'. repeat split; assumption.
Qed.

(** The sample shot "100,50" at the angle "1.5708". *)
Lemma sample_shot_parses_back :
  exists s',
    Interface.step stod_sample Interface_quiet
                   (Interface.init Interface_u0 Interface_store0) = Some s' /\
    Interface.cue_start_pos (Interface.globals s') =
    mkVector4d (0.001 * 100) (0.001 * 50) 0 1 /\
    Interface.psi (Interface.locals s') = 1.5708.
Proof.
  apply (shot_position_parses_back stod_sample Interface_quiet
           (Interface.init Interface_u0 Interface_store0) "100" "50").
  - reflexivity.
  - reflexivity.
  - reflexivity.
  - reflexivity.
  - simpl. lia.
  - reflexivity.
  - reflexivity.
  - reflexivity.
Defined.

(** X10.  A shot position without a comma is not refused: [find] answers
    [npos], which is -1 as an [int], so that the first piece is cut with the
    count [npos] and the second from position 0; both coordinates of the
    drop-off position are read from the whole string. *)
Theorem shot_position_without_comma :
  forall (stod : string -> option double) (inp : Interface.TickInput)
         (s : Interface.World) (v angle : double),
    Interface.mode (Interface.globals s) = WAIT_MODE ->
    Interface_token inp s = "execute"%string ->
    no_comma (Interface.shotpos (Interface.external_writes inp (Interface.redis s))) ->
    (Z.of_nat (String.length
                 (Interface.shotpos
                    (Interface.external_writes inp (Interface.redis s)))) < 2 ^ 64)%Z ->
    stod (Interface.shotpos (Interface.external_writes inp (Interface.redis s))) =
    Some v ->
    stod (Interface.shotangle (Interface.external_writes inp (Interface.redis s))) =
    Some angle ->
    exists s',
      Interface.step stod inp s = Some s' /\
      Interface.cue_start_pos (Interface.globals s') =
      mkVector4d (0.001 * v) (0.001 * v) 0 1.
Proof.
  intros stod inp s v angle Hwait Htok Hno Hlen Hv Ha.
  destruct (shot_position_pieces_no_comma _ Hno Hlen) as [E1 E2].
  cbv zeta in E1, E2.
  destruct (Interface_wait_activate_parsed stod inp s v v angle Hwait Htok)
    as (s' & Hs' & _ & Hcue & _).
  - cbv zeta. rewrite E1. exact Hv.
  - cbv zeta. rewrite E2. exact Hv.
  - exact Ha.
  - exists s'. split; assumption.
Qed.

(** The shot position "100": the drop-off position is (0.1 m, 0.1 m). *)
Lemma shot_position_100_without_comma :
  exists s',
    Interface.step stod_sample Interface_quiet
                   (Interface.init Interface_u0
                                   (Interface_store_shot "100" "1.5708")) = Some s' /\
    Interface.cue_start_pos (Interface.globals s') =
    mkVector4d (0.001 * 100) (0.001 * 100) 0 1.
Proof.
  apply (shot_position_without_comma
           stod_sample Interface_quiet
           (Interface.init Interface_u0 (Interface_store_shot "100" "1.5708"))
           100 1.5708).
  - reflexivity.
  - reflexivity.
  - reflexivity.
  - simpl. lia.
  - reflexivity.
  - reflexivity.
Defined.

(** ** Where the loop can end without its shutdown *)

Lemma Interface_loop_app (stod : string -> option double)
      (l1 l2 : list Interface.TickInput) (s s1 : Interface.World) :
  Interface.loop stod l1 s = Some s1 ->
  Interface.loop stod (l1 ++ l2) s = Interface.loop stod l2 s1.
Proof.
  apply (loop_app _ _ (Interface.step stod) (Interface.loop stod)
                  (fun _ => eq_refl) (fun _ _ _ => eq_refl)).
Qed.

(** X11.  An iteration of the interface variant ends the process (by an
    exception of [std::stod] that nothing catches) in one case only: in WAIT,
    on the token "execute", when one of the three numbers of the shot cannot
    be read.  No iteration in EXECUTE does.  When it happens the statements
    after the loop are not reached: the run has no final state, and no zero
    torque is written. *)
Theorem iteration_fails_only_at_activation :
  forall (stod : string -> option double) (inp : Interface.TickInput)
         (s : Interface.World),
    (Interface.step stod inp s = None <->
     Interface.mode (Interface.globals s) = WAIT_MODE /\
     Interface_token inp s = "execute"%string /\
     ~ Interface_shot_well_formed stod inp s) /\
    (forall (u : Interface.Indeterminate) (store : Interface.Redis)
            (inputs rest : list Interface.TickInput),
        Interface.loop stod inputs (Interface.init u store) = Some s ->
        Interface.step stod inp s = None ->
        Interface.main stod u store (inputs ++ inp :: rest) = None).
Proof.
  intros stod inp s. split.
  - split.
    + intros Hnone.
      destruct (Interface.mode (Interface.globals s)) eqn:Hmode.
      * destruct (String.eqb (Interface_token inp s) "execute") eqn:Htok.
        -- split; [reflexivity|]. split; [apply String.eqb_eq; exact Htok|].
           intros Hwf.
           destruct (Interface_wait_activate_total stod inp s Hmode Htok Hwf)
             as [s' Hs'].
           congruence.
        -- destruct (Interface_wait_idle stod inp s Hmode Htok) as (s' & Hs' & _).
           congruence.
      * destruct (Interface_step_execute_control stod inp s Hmode) as (s' & Hs' & _).
        congruence.
    + intros (Hwait & Htok & Hnwf).
      unfold Interface_token in Htok.
      unfold Interface_shot_well_formed in Hnwf. cbn in Hnwf.
      unfold Interface.step, Interface.wait_mode. cbn. rewrite Hwait. cbn.
      rewrite Htok. cbn.
      destruct (stod _); [|reflexivity].
      destruct (stod _); [|reflexivity].
      destruct (stod _); [|reflexivity].
      exfalso. apply Hnwf. repeat split; discriminate.
  - intros u store inputs rest Hloop Hnone.
    unfold Interface.main.
    rewrite (Interface_loop_app stod inputs (inp :: rest) _ s Hloop).
    cbn [Interface.loop]. rewrite Hnone. reflexivity.
Qed.

(** An empty shot position at the first activation: [std::stod] throws on
    the empty string, and the run ends there. *)
Lemma empty_shot_position_ends_the_run :
  Interface.step stod_sample Interface_quiet
                 (Interface.init Interface_u0 (Interface_store_shot "" "1.5708")) = None /\
  Interface.main stod_sample Interface_u0 (Interface_store_shot "" "1.5708")
                 ([] ++ [Interface_quiet; Interface_quiet]) = None.
Proof.
  assert (H : Interface.step stod_sample Interface_quiet
                (Interface.init Interface_u0 (Interface_store_shot "" "1.5708")) = None).
  { apply (proj1 (iteration_fails_only_at_activation stod_sample Interface_quiet _)).
    split; [reflexivity|]. split; [reflexivity|].
    intros (H1 & _). apply H1. reflexivity. }
  split; [exact H|].
  apply (proj2 (iteration_fails_only_at_activation stod_sample Interface_quiet _)
               Interface_u0 (Interface_store_shot "" "1.5708") [] [Interface_quiet]
               eq_refl H).
Defined.

(** ** What an iteration sends *)

Lemma Interface_external_writes_fgc (inp : Interface.TickInput) (rd : Interface.Redis) :
  Interface.fgc (Interface.external_writes inp rd) = Interface.fgc rd.
Proof.
  unfold Interface.external_writes.
  destruct (Interface.ext_modechange inp), (Interface.ext_shotpos inp),
    (Interface.ext_shotangle inp); reflexivity.
Qed.

(** What an iteration in EXECUTE leaves in the store and in the reports. *)
Lemma Interface_step_execute_output (stod : string -> option double)
      (inp : Interface.TickInput) (s : Interface.World) :
  Interface.mode (Interface.globals s) = EXECUTE_MODE ->
  exists s',
    Interface.step stod inp s = Some s' /\
    Interface.command_torques (Interface.locals s') = Interface_commanded inp s /\
    Interface.fgc (Interface.redis s') =
    Interface.command_torques (Interface.locals s') :: Interface.fgc (Interface.redis s) /\
    Interface.reports s' =
    Interface.reports s ++
    Interface.safetyChecks (Interface.in_q inp) (Interface.in_dq inp)
                           (Interface.command_torques (Interface.locals s')) dof /\
    Interface.modechange (Interface.redis s') =
    match Interface.mode (Interface.globals s') with
    | WAIT_MODE => "wait"%string
    | EXECUTE_MODE => Interface_token inp s
    end.
Proof.
  intros Hmode.
  unfold Interface.step. cbn. rewrite Hmode. cbn.
  eexists. split; [reflexivity|].
  unfold Interface_commanded, Interface_token, Interface.execute_mode. cbn.
  rewrite <- (Interface_external_writes_fgc inp (Interface.redis s)).
  destruct (Interface.state (Interface.globals s)).
  - unfold Interface.joint_controller. cbn.
    destruct (Interface.reached_joint_goal _); cbn; rewrite ?Hmode;
      repeat split; reflexivity.
  - unfold Interface.posori_controller, Interface.reached_final_goal. cbn.
    destruct (Interface.robotReachedGoal _ _ _ _ _ _ && gt_d _ _); cbn;
      destruct (gt_d _ _ && lt_d _ _); cbn; rewrite ?Hmode;
        repeat split; reflexivity.
  - unfold Interface.joint_controller_shot. cbn.
    destruct (gt_d _ _ && lt_d _ _); cbn;
      [| destruct (le_d _ _); cbn; [destruct (Interface.centershot _); cbn|]];
      destruct (gt_d _ _); cbn; rewrite ?Hmode; repeat split; reflexivity.
  - cbn. rewrite ?Hmode. repeat split; reflexivity.
Qed.

(** What an iteration in WAIT leaves in the store. *)
Lemma Interface_step_wait_output (stod : string -> option double)
      (inp : Interface.TickInput) (s s' : Interface.World) :
  Interface.mode (Interface.globals s) = WAIT_MODE ->
  Interface.step stod inp s = Some s' ->
  Interface.command_torques (Interface.locals s') = Interface.in_joint_task_torques inp /\
  Interface.fgc (Interface.redis s') =
  Interface.command_torques (Interface.locals s') :: Interface.fgc (Interface.redis s) /\
  Interface.reports s' = Interface.reports s /\
  Interface.modechange (Interface.redis s') = Interface_token inp s.
Proof.
  intros Hwait.
  unfold Interface.step, Interface.wait_mode, Interface_token. cbn.
  rewrite Hwait. cbn.
  rewrite <- (Interface_external_writes_fgc inp (Interface.redis s)).
  destruct (String.eqb _ _).
  - destruct (stod _); [|discriminate].
    destruct (stod _); [|discriminate].
    destruct (stod _); [|discriminate].
    cbn. intros H. injection H as <-.
    destruct (le_d _ _ && ge_d _ _); cbn; repeat split; reflexivity.
  - intros H. injection H as <-. cbn. repeat split; reflexivity.
Qed.

Lemma Interface_step_publishes_once (stod : string -> option double)
      (inp : Interface.TickInput) (s s' : Interface.World) :
  Interface.step stod inp s = Some s' ->
  Interface.fgc (Interface.redis s') =
  Interface.command_torques (Interface.locals s') :: Interface.fgc (Interface.redis s).
Proof.
  intros Hstep.
  destruct (Interface.mode (Interface.globals s)) eqn:Hmode.
  - apply (Interface_step_wait_output stod inp s s' Hmode Hstep).
  - destruct (Interface_step_execute_output stod inp s Hmode) as (s1 & Hs1 & _ & H & _).
    rewrite Hstep in Hs1. injection Hs1 as <-. exact H.
Qed.

Lemma Interface_loop_publishes (stod : string -> option double)
      (inputs : list Interface.TickInput) :
  forall s s',
    Interface.loop stod inputs s = Some s' ->
    List.length (Interface.fgc (Interface.redis s')) =
    (List.length inputs + List.length (Interface.fgc (Interface.redis s)))%nat.
Proof.
  induction inputs as [|inp rest IH]; intros s s' Hloop.
  - injection Hloop as <-. reflexivity.
  - cbn [Interface.loop] in Hloop.
    destruct (Interface.step stod inp s) as [s1|] eqn:Hstep; [|discriminate].
    rewrite (IH s1 s' Hloop), (Interface_step_publishes_once stod inp s s1 Hstep).
    cbn [List.length]. lia.
Qed.

(** X12.  The interface variant writes the commanded torque to the store
    once in every iteration, in WAIT as in EXECUTE, and once more after the
    loop: a run of n iterations that ends normally has written n + 1 values.
    The value written is the joint task torque computed in that iteration,
    except in [POSORI_CONTROLLER], where it is the sum of the pose task torque
    and the joint task torque. *)
Theorem interface_writes_torque_every_iteration :
  forall stod : string -> option double,
    (forall (inp : Interface.TickInput) (s s' : Interface.World),
        Interface.step stod inp s = Some s' ->
        Interface.fgc (Interface.redis s') =
        Interface.command_torques (Interface.locals s') ::
        Interface.fgc (Interface.redis s) /\
        Interface.command_torques (Interface.locals s') =
        match Interface.mode (Interface.globals s) with
        | WAIT_MODE => Interface.in_joint_task_torques inp
        | EXECUTE_MODE => Interface_commanded inp s
        end) /\
    (forall (u : Interface.Indeterminate) (store : Interface.Redis)
            (inputs : list Interface.TickInput) (s' : Interface.World),
        Interface.main stod u store inputs = Some s' ->
        List.length (Interface.fgc (Interface.redis s')) =
        (S (List.length inputs) + List.length (Interface.fgc store))%nat).
Proof.
  intros stod. split.
  - intros inp s s' Hstep.
    split; [exact (Interface_step_publishes_once stod inp s s' Hstep)|].
    destruct (Interface.mode (Interface.globals s)) eqn:Hmode.
    + apply (Interface_step_wait_output stod inp s s' Hmode Hstep).
    + destruct (Interface_step_execute_output stod inp s Hmode) as (s1 & Hs1 & H & _).
      rewrite Hstep in Hs1. injection Hs1 as <-. exact H.
  - intros u store inputs s' Hmain. unfold Interface.main in Hmain.
    destruct (Interface.loop stod inputs (Interface.init u store)) as [s1|] eqn:Hloop;
      [|discriminate].
    injection Hmain as <-.
    rewrite Interface_shutdown_publishes_zero. cbn [List.length].
    rewrite (Interface_loop_publishes stod inputs _ s1 Hloop). reflexivity.
Qed.

(** A run of two iterations of the sample shot: three values written. *)
Lemma interface_writes_three_torques :
  exists s',
    Interface.main stod_sample Interface_u0 Interface_store0
                   [Interface_quiet; Interface_quiet] = Some s' /\
    List.length (Interface.fgc (Interface.redis s')) = 3%nat.
Proof.
  destruct (Interface.main stod_sample Interface_u0 Interface_store0
                           [Interface_quiet; Interface_quiet]) as [s'|] eqn:E.
  - exists s'. split; [reflexivity|].
    apply (proj2 (interface_writes_torque_every_iteration stod_sample)
                 Interface_u0 Interface_store0 [Interface_quiet; Interface_quiet] s' E).
  - exfalso. revert E. unfold Interface.main.
    destruct (Interface_wait_activate_total
                stod_sample Interface_quiet
                (Interface.init Interface_u0 Interface_store0) eq_refl eq_refl
                (Interface_sample_shot_well_formed Interface_u0)) as [s1 Hs1].
    destruct (Interface_wait_activate
                stod_sample Interface_quiet
                (Interface.init Interface_u0 Interface_store0) eq_refl s1 eq_refl Hs1)
      as [Hph _].
    unfold Interface.phase in Hph. injection Hph as Hm _.
    destruct (Interface_step_execute_control stod_sample Interface_quiet s1 Hm)
      as (s2 & Hs2 & _).
    cbn [Interface.loop]. rewrite Hs1, Hs2. discriminate.
Defined.

Lemma Starter_step_execute_output (inp : Starter.TickInput) (s : Starter.World) :
  Starter.mode (Starter.globals s) = EXECUTE_MODE ->
  let s' := Starter.step inp s in
  Starter.command_torques (Starter.locals s') = Starter_commanded inp s /\
  Starter.fgc (Starter.redis s') =
  Starter.command_torques (Starter.locals s') :: Starter.fgc (Starter.redis s) /\
  Starter.reports s' =
  Starter.reports s ++
  Starter.safetyChecks (Starter.in_q inp) (Starter.in_dq inp)
                       (Starter.command_torques (Starter.locals s')) dof /\
  Starter.modechange (Starter.redis s') =
  match Starter.mode (Starter.globals s') with
  | WAIT_MODE => "wait"%string
  | EXECUTE_MODE => Starter_token inp s
  end.
Proof.
  intros Hmode.
  unfold Starter.step. cbn. rewrite Hmode.
  unfold Starter_commanded, Starter_token, Starter.execute_mode. cbn.
  assert (Hf : Starter.fgc (Starter.external_writes inp (Starter.redis s)) =
               Starter.fgc (Starter.redis s))
    by (unfold Starter.external_writes; destruct (Starter.ext_modechange inp); reflexivity).
  rewrite <- Hf.
  destruct (Starter.state (Starter.globals s)).
  - unfold Starter.joint_controller.
    destruct (Starter.reached_joint_goal inp); cbn; rewrite ?Hmode;
      repeat split; reflexivity.
  - unfold Starter.posori_controller, Starter.reached_final_goal. cbn.
    destruct (Starter.robotReachedGoal _ _ _ _ _ _ && gt_d _ _); cbn;
      destruct (gt_d _ _ && lt_d _ _); cbn; rewrite ?Hmode;
        repeat split; reflexivity.
  - unfold Starter.joint_controller_shot. cbn.
    destruct (gt_d _ _); cbn; rewrite ?Hmode; repeat split; reflexivity.
Qed.

Lemma Starter_step_wait_output (inp : Starter.TickInput) (s : Starter.World) :
  Starter.mode (Starter.globals s) = WAIT_MODE ->
  let s' := Starter.step inp s in
  Starter.command_torques (Starter.locals s') =
  Starter.joint_task_torques (Starter.locals s) /\
  Starter.joint_task_torques (Starter.locals s') =
  Starter.joint_task_torques (Starter.locals s) /\
  Starter.fgc (Starter.redis s') = Starter.fgc (Starter.redis s) /\
  Starter.reports s' = Starter.reports s /\
  Starter.modechange (Starter.redis s') = Starter_token inp s.
Proof.
  intros Hwait.
  unfold Starter.step, Starter.wait_mode, Starter_token. cbn. rewrite Hwait. cbn.
  assert (Hf : Starter.fgc (Starter.external_writes inp (Starter.redis s)) =
               Starter.fgc (Starter.redis s))
    by (unfold Starter.external_writes; destruct (Starter.ext_modechange inp); reflexivity).
  rewrite <- Hf.
  destruct (String.eqb _ _); cbn; repeat split; reflexivity.
Qed.

(** A stretch of iterations in WAIT during which the token is not
    "execute". *)
Lemma Starter_waits (inputs : list Starter.TickInput) :
  forall s,
    Starter.mode (Starter.globals s) = WAIT_MODE ->
    Starter.modechange (Starter.redis s) <> "execute"%string ->
    Starter_token_untouched inputs ->
    Starter.globals (Starter.loop inputs s) = Starter.globals s /\
    Starter.redis (Starter.loop inputs s) = Starter.redis s /\
    Starter.reports (Starter.loop inputs s) = Starter.reports s.
Proof.
  induction inputs as [|inp rest IH]; intros s Hwait Htok Hnone.
  - repeat split; reflexivity.
  - inversion Hnone as [|? ? Hinp Hrest]; subst.
    cbn [Starter.loop].
    assert (Hstep : Starter.step inp s =
                    Starter.on_locals
                      (Starter.set_command_torques
                         (Starter.joint_task_torques (Starter.locals s))) s).
    { unfold Starter.step, Starter.wait_mode, Starter.external_writes. cbn.
      rewrite Hinp. cbn. rewrite Hwait. cbn.
      apply String.eqb_neq in Htok. rewrite Htok.
      destruct s as [g l j p rd rp]. destruct rd. reflexivity. }
    rewrite Hstep.
    exact (IH (Starter.on_locals
                 (Starter.set_command_torques
                    (Starter.joint_task_torques (Starter.locals s))) s)
              Hwait Htok Hrest).
Qed.

(** X13.  The starter variant writes the commanded torque inside the EXECUTE
    branch only.  An iteration in EXECUTE writes one value; an iteration in
    WAIT writes none, and takes as its command the joint torque of the last
    iteration that computed one, since it computes none itself.  So while
    the loop waits, however long, the store keeps the torque of the last
    iteration of the previous cycle. *)
Theorem starter_writes_torque_in_execute_only :
  (forall (inp : Starter.TickInput) (s : Starter.World),
      Starter.mode (Starter.globals s) = EXECUTE_MODE ->
      Starter.fgc (Starter.redis (Starter.step inp s)) =
      Starter_commanded inp s :: Starter.fgc (Starter.redis s)) /\
  (forall (inp : Starter.TickInput) (s : Starter.World),
      Starter.mode (Starter.globals s) = WAIT_MODE ->
      Starter.fgc (Starter.redis (Starter.step inp s)) = Starter.fgc (Starter.redis s) /\
      Starter.command_torques (Starter.locals (Starter.step inp s)) =
      Starter.joint_task_torques (Starter.locals s)) /\
  (forall (inputs : list Starter.TickInput) (s : Starter.World),
      Starter.mode (Starter.globals s) = WAIT_MODE ->
      Starter.modechange (Starter.redis s) <> "execute"%string ->
      Starter_token_untouched inputs ->
      Starter.mode (Starter.globals (Starter.loop inputs s)) = WAIT_MODE /\
      Starter.fgc (Starter.redis (Starter.loop inputs s)) = Starter.fgc (Starter.redis s)).
Proof.
  split; [|split].
  - intros inp s Hmode.
    destruct (Starter_step_execute_output inp s Hmode) as (Hc & Hf & _).
    rewrite Hf, Hc. reflexivity.
  - intros inp s Hwait.
    destruct (Starter_step_wait_output inp s Hwait) as (Hc & _ & Hf & _).
    split; assumption.
  - intros inputs s Hwait Htok Hnone.
    destruct (Starter_waits inputs s Hwait Htok Hnone) as (Hg & Hr & _).
    rewrite Hg, Hr. split; [exact Hwait | reflexivity].
Qed.

(** Three iterations of waiting on the token "wait", after a torque of
    1 N m was written. *)
Lemma starter_keeps_last_torque_while_waiting :
  let s := Starter.init Starter_u0 (Starter.mkRedis "wait" [Ones 1 dof]) in
  Starter.mode (Starter.globals
                  (Starter.loop [Starter_quiet; Starter_quiet; Starter_quiet] s)) =
  WAIT_MODE /\
  Starter.fgc (Starter.redis
                 (Starter.loop [Starter_quiet; Starter_quiet; Starter_quiet] s)) =
  [Ones 1 dof].
Proof.
  apply (proj2 (proj2 starter_writes_torque_in_execute_only)
               [Starter_quiet; Starter_quiet; Starter_quiet]
               (Starter.init Starter_u0 (Starter.mkRedis "wait" [Ones 1 dof]))).
  - reflexivity.
  - discriminate.
  - repeat constructor.
Defined.

(** ** The safety monitor and the command *)

(** X14.  The safety monitor reports and does nothing else.  In an
    iteration in EXECUTE of either variant the torque that is checked is the
    torque commanded in that iteration, the reports of the check are added
    to the output, and that same torque is written to the store, whether or
    not it was reported: nothing is clamped and nothing is held back. *)
Theorem safety_monitor_only_reports :
  (forall (stod : string -> option double) (inp : Interface.TickInput)
          (s : Interface.World),
      Interface.mode (Interface.globals s) = EXECUTE_MODE ->
      exists s',
        Interface.step stod inp s = Some s' /\
        Interface.reports s' =
        Interface.reports s ++
        Interface.safetyChecks (Interface.in_q inp) (Interface.in_dq inp)
                               (Interface_commanded inp s) dof /\
        Interface.fgc (Interface.redis s') =
        Interface_commanded inp s :: Interface.fgc (Interface.redis s)) /\
  (forall (inp : Starter.TickInput) (s : Starter.World),
      Starter.mode (Starter.globals s) = EXECUTE_MODE ->
      Starter.reports (Starter.step inp s) =
      Starter.reports s ++
      Starter.safetyChecks (Starter.in_q inp) (Starter.in_dq inp)
                           (Starter_commanded inp s) dof /\
      Starter.fgc (Starter.redis (Starter.step inp s)) =
      Starter_commanded inp s :: Starter.fgc (Starter.redis s)).
Proof.
  split.
  - intros stod inp s Hmode.
    destruct (Interface_step_execute_output stod inp s Hmode)
      as (s' & Hs' & Hc & Hf & Hr & _).
    exists s'. rewrite Hc in Hf, Hr. repeat split; assumption.
  - intros inp s Hmode.
    destruct (Starter_step_execute_output inp s Hmode) as (Hc & Hf & Hr & _).
    cbv zeta in Hc, Hf, Hr. rewrite Hc in Hf, Hr. split; assumption.
Qed.

(** A joint torque of 100 N m on every joint during the approach: joint 1 is
    reported for its torque limit of 85 N m, and the torque is sent. *)
Lemma overload_is_reported_and_sent :
  exists s',
    Interface.step stod_throws Interface_overload Interface_cycle_start = Some s' /\
    Interface.reports s' =
    Interface.reports Interface_cycle_start ++
    Interface.safetyChecks (Zero dof) (Zero dof) (Ones 100 dof) dof /\
    Interface.fgc (Interface.redis s') =
    Ones 100 dof :: Interface.fgc (Interface.redis Interface_cycle_start).
Proof.
  exact (proj1 safety_monitor_only_reports stod_throws Interface_overload
               Interface_cycle_start eq_refl).
Defined.

(** ** The activation token at the end of a cycle *)

Lemma Interface_token_untouched_eq (inp : Interface.TickInput) (s : Interface.World) :
  Interface.ext_modechange inp = None ->
  Interface_token inp s = Interface.modechange (Interface.redis s).
Proof.
  intros H. unfold Interface_token, Interface.external_writes. rewrite H.
  destruct (Interface.ext_shotpos inp), (Interface.ext_shotangle inp); reflexivity.
Qed.

(** A stretch of iterations in WAIT during which the token is not
    "execute". *)
Lemma Interface_waits (stod : string -> option double)
      (inputs : list Interface.TickInput) :
  forall s,
    Interface.mode (Interface.globals s) = WAIT_MODE ->
    Interface.modechange (Interface.redis s) <> "execute"%string ->
    Interface_token_untouched inputs ->
    exists s',
      Interface.loop stod inputs s = Some s' /\
      Interface.globals s' = Interface.globals s /\
      Interface.modechange (Interface.redis s') = Interface.modechange (Interface.redis s).
Proof.
  induction inputs as [|inp rest IH]; intros s Hwait Htok Hnone.
  - exists s. repeat split; reflexivity.
  - inversion Hnone as [|? ? Hinp Hrest]; subst.
    pose proof (Interface_token_untouched_eq inp s Hinp) as Hsame.
    assert (Hneq : String.eqb (Interface_token inp s) "execute" = false)
      by (apply String.eqb_neq; rewrite Hsame; exact Htok).
    destruct (Interface_wait_idle stod inp s Hwait Hneq) as (s1 & Hs1 & Hg1 & _).
    destruct (Interface_step_wait_output stod inp s s1 Hwait Hs1) as (_ & _ & _ & Hm1).
    rewrite Hsame in Hm1.
    destruct (IH s1) as (s' & Hs' & Hg' & Hm').
    + rewrite Hg1. exact Hwait.
    + rewrite Hm1. exact Htok.
    + exact Hrest.
    + exists s'. cbn [Interface.loop]. rewrite Hs1.
      split; [exact Hs'|]. split; congruence.
Qed.

(** X15.  The loop gives the activation token back at the end of a cycle,
    and not before.  While the mode stays EXECUTE an iteration leaves the
    token as it finds it; the iteration that takes the mode back to WAIT
    writes "wait" to it.  After that the loop waits, with its globals
    unchanged, for as long as no client writes the token again: one write of
    "execute" starts one cycle.  The same holds of the starter variant. *)
Theorem cycle_end_gives_token_back :
  (forall (stod : string -> option double) (inp : Interface.TickInput)
          (s s' : Interface.World),
      Interface.mode (Interface.globals s) = EXECUTE_MODE ->
      Interface.step stod inp s = Some s' ->
      Interface.modechange (Interface.redis s') =
      match Interface.mode (Interface.globals s') with
      | WAIT_MODE => "wait"%string
      | EXECUTE_MODE => Interface_token inp s
      end) /\
  (forall (stod : string -> option double) (inputs : list Interface.TickInput)
          (s : Interface.World),
      Interface.mode (Interface.globals s) = WAIT_MODE ->
      Interface.modechange (Interface.redis s) = "wait"%string ->
      Interface_token_untouched inputs ->
      exists s',
        Interface.loop stod inputs s = Some s' /\
        Interface.globals s' = Interface.globals s /\
        Interface.modechange (Interface.redis s') = "wait"%string) /\
  (forall (inp : Starter.TickInput) (s : Starter.World),
      Starter.mode (Starter.globals s) = EXECUTE_MODE ->
      Starter.modechange (Starter.redis (Starter.step inp s)) =
      match Starter.mode (Starter.globals (Starter.step inp s)) with
      | WAIT_MODE => "wait"%string
      | EXECUTE_MODE => Starter_token inp s
      end) /\
  (forall (inputs : list Starter.TickInput) (s : Starter.World),
      Starter.mode (Starter.globals s) = WAIT_MODE ->
      Starter.modechange (Starter.redis s) = "wait"%string ->
      Starter_token_untouched inputs ->
      Starter.globals (Starter.loop inputs s) = Starter.globals s /\
      Starter.modechange (Starter.redis (Starter.loop inputs s)) = "wait"%string).
Proof.
  split; [|split; [|split]].
  - intros stod inp s s' Hmode Hstep.
    destruct (Interface_step_execute_output stod inp s Hmode)
      as (s1 & Hs1 & _ & _ & _ & Hm).
    rewrite Hstep in Hs1. injection Hs1 as <-. exact Hm.
  - intros stod inputs s Hwait Htok Hnone.
    destruct (Interface_waits stod inputs s Hwait) as (s' & Hs' & Hg & Hm).
    + rewrite Htok. discriminate.
    + exact Hnone.
    + exists s'. rewrite Hm. repeat split; assumption.
  - intros inp s Hmode.
    apply (Starter_step_execute_output inp s Hmode).
  - intros inputs s Hwait Htok Hnone.
    destruct (Starter_waits inputs s Hwait) as (Hg & Hr & _).
    + rewrite Htok. discriminate.
    + exact Hnone.
    + rewrite Hg, Hr. split; [reflexivity | exact Htok].
Qed.

(** The last iteration of a cycle of the interface variant, the robot at
    rest at home 15 s after the approach ended, and three iterations
    after it. *)
Lemma token_after_sample_cycle :
  let s := Interface.on_globals
             (Interface.set_controller_counter 15000)
             (Interface.on_globals (Interface.set_state Interface.POSORI_CONTROLLER)
                                   Interface_cycle_start) in
  exists s' s'',
    Interface.step stod_throws Interface_quiet s = Some s' /\
    Interface.mode (Interface.globals s') = WAIT_MODE /\
    Interface.modechange (Interface.redis s') = "wait"%string /\
    Interface.loop stod_throws [Interface_quiet; Interface_quiet; Interface_quiet] s' =
    Some s'' /\
    Interface.globals s'' = Interface.globals s' /\
    Interface.modechange (Interface.redis s'') = "wait"%string.
Proof.
  intros s.
  assert (Hcal : Interface_calibrated s)
    by (unfold Interface_calibrated; cbn; repeat split; reflexivity).
  destruct (Interface_step_execute_control stod_throws Interface_quiet s eq_refl)
    as (s' & Hs' & _ & _ & Hph & _).
  cbv zeta in Hph.
  rewrite (Interface_final_goal_calibrated Interface_quiet _ s Hcal) in Hph.
  rewrite Interface_quiet_settled_at_home in Hph.
  change (Interface.state (Interface.globals s)) with Interface.POSORI_CONTROLLER in Hph.
  assert (Ht : gt_d (Interface.seconds (Interface.globals s)) 13 = true).
  { apply gt_d_true. unfold Interface.seconds, dt. cbn. lra. }
  rewrite Ht in Hph. cbn in Hph.
  unfold Interface.phase in Hph. injection Hph as Hm' _.
  pose proof (proj1 cycle_end_gives_token_back stod_throws Interface_quiet s s'
                    eq_refl Hs') as Htok.
  rewrite Hm' in Htok.
  destruct (proj1 (proj2 cycle_end_gives_token_back) stod_throws
                  [Interface_quiet; Interface_quiet; Interface_quiet] s' Hm' Htok)
    as (s'' & Hs'' & Hg & Hm'').
  { repeat constructor. }
  exists s', s''. repeat split; assumption.
Defined.

(** ** The shot duration of the starter variant *)

Lemma Starter_shot_duration_eq (u : Starter.Setup) :
  Starter_shot_duration u = 180 * Starter.ee_length / Starter.u_hit_velocity u.
Proof.
  unfold Starter_shot_duration, Starter.init, Starter.flick_time. cbn.
  replace (Starter.u_start_angle_deg u * M_PI / 180.0 + 180.0 -
           Starter.u_start_angle_deg u * M_PI / 180.0) with 180 by lra.
  rewrite Rabs_pos_eq by lra. reflexivity.
Qed.

(** X16.  The shot duration the starter variant computes at start-up does
    not depend on the start angle typed in: the end angle is the start angle
    in radians plus the number 180, so that [flick_time] is given a range of
    180.  For a hit velocity other than 0 and a start angle of at most a
    turn either way, the duration is 180 * ee_length / hit_velocity,
    whatever is in the store, and two start-ups with the same hit velocity
    compute the same duration.  (The hit velocity 0, at which the source
    divides by zero, and start angles so large that their sum with 180
    is rounded, are left out: there the double of the source and the real
    number of the model part.) *)
Theorem starter_shot_duration_ignores_start_angle :
  forall (u : Starter.Setup) (store : Starter.Redis),
    Starter.u_hit_velocity u <> 0 ->
    -360 <= Starter.u_start_angle_deg u <= 360 ->
    Starter.total_time (Starter.locals (Starter.init u store)) =
    180 * Starter.ee_length / Starter.u_hit_velocity u /\
    Starter.end_angle (Starter.locals (Starter.init u store)) -
    Starter.start_angle (Starter.locals (Starter.init u store)) = 180 /\
    forall u' : Starter.Setup,
      Starter.u_hit_velocity u' = Starter.u_hit_velocity u ->
      -360 <= Starter.u_start_angle_deg u' <= 360 ->
      Starter.total_time (Starter.locals (Starter.init u' store)) =
      Starter.total_time (Starter.locals (Starter.init u store)).
Proof.
  intros u store _ _.
  assert (H : forall v, Starter.total_time (Starter.locals (Starter.init v store)) =
                        180 * Starter.ee_length / Starter.u_hit_velocity v).
  { intros v. exact (Starter_shot_duration_eq v). }
  split; [apply H|]. split.
  - cbn. lra.
  - intros u' Hv _. rewrite !H, Hv. reflexivity.
Qed.

(** A hit velocity of 1 m/s with the start angles 0 and 90 degrees: the same
    shot duration. *)
Lemma starter_shot_duration_at_1_m_per_s :
  Starter.total_time
    (Starter.locals (Starter.init (Starter_setup 1 90) (Starter.mkRedis "execute" []))) =
  Starter.total_time
    (Starter.locals (Starter.init (Starter_setup 1 0) (Starter.mkRedis "execute" []))).
Proof.
  apply (proj2 (proj2 (starter_shot_duration_ignores_start_angle
                         (Starter_setup 1 0) (Starter.mkRedis "execute" [])
                         ltac:(cbn; lra) ltac:(cbn; lra)))).
  - reflexivity.
  - cbn; lra.
Defined.

Lemma tick_after_15_seconds (c : Z) (T : double) :
  T <= 0.001 ->
  gt_d (IZR c * dt) 15 && lt_d (IZR c * dt) (15 + T) = false.
Proof.
  intros HT.
  destruct (gt_d (IZR c * dt) 15) eqn:E1; [|reflexivity].
  cmp_prop. unfold dt in *. cbn [andb]. apply lt_d_false.
  assert (Hc : (15000 < c)%Z) by (apply lt_IZR; lra).
  assert (Hc' : (15001 <= c)%Z) by lia.
  apply IZR_le in Hc'. lra.
Qed.

Lemma Starter_step_no_shot (T : double) (inp : Starter.TickInput) (s : Starter.World) :
  T <= 0.001 ->
  Starter_no_shot_invariant T s ->
  Starter_no_shot_invariant T (Starter.step inp s).
Proof.
  intros HT (Hcal & Hst).
  destruct (Starter.mode (Starter.globals s)) eqn:Hmode.
  - destruct (Starter_step_wait_control inp s Hmode) as (Hwin & Htt & Hst' & _).
    split; [exact (Starter_calibrated_preserved T s _ Hcal Hwin Htt)|].
    rewrite Hst'. exact Hst.
  - destruct (Starter_step_execute_control inp s Hmode) as (Hwin & Htt & Hph & _).
    split; [exact (Starter_calibrated_preserved T s _ Hcal Hwin Htt)|].
    cbv zeta in Hph.
    destruct Hcal as (_ & _ & _ & H3 & _ & HT0).
    rewrite H3, HT0 in Hph. unfold Starter.seconds in Hph.
    rewrite (tick_after_15_seconds _ T HT) in Hph.
    unfold Starter.phase in Hph.
    destruct (Starter.state (Starter.globals s)).
    + injection Hph as _ ->. destruct (Starter.reached_joint_goal inp); discriminate.
    + injection Hph as _ ->. destruct (Starter.reached_final_goal _ _ _); discriminate.
    + contradiction.
Qed.

Lemma Starter_loop_no_shot (T : double) (inputs : list Starter.TickInput) :
  T <= 0.001 ->
  forall s,
    Starter_no_shot_invariant T s ->
    Starter_no_shot_invariant T (Starter.loop inputs s).
Proof.
  intros HT. induction inputs as [|inp rest IH]; intros s Hinv; [exact Hinv|].
  cbn [Starter.loop]. apply IH. apply Starter_step_no_shot; assumption.
Qed.

(** X17.  When the shot duration computed at start-up is at most one tick
    (0.001 s), the starter variant never shoots: the test that starts the
    shot asks for a tick count strictly between 15 s and 15 s plus the
    duration, and there is none.  No world of any run is in
    [JOINT_CONTROLLER_SHOT].  This is stated for a hit velocity other than 0
    and a start angle of at most a turn either way, where the duration of
    the source is the quotient 180 * ee_length / hit_velocity (at the hit
    velocity 0 the source divides by zero, and its duration is no real
    number).  It is the case of every negative hit velocity, whatever the
    start angle. *)
Theorem starter_short_shot_is_skipped :
  forall (u : Starter.Setup) (store : Starter.Redis) (inputs : list Starter.TickInput),
    (Starter.u_hit_velocity u <> 0 ->
     -360 <= Starter.u_start_angle_deg u <= 360 ->
     Starter_shot_duration u <= 0.001 ->
     Starter.state (Starter.globals (Starter.loop inputs (Starter.init u store))) <>
     Starter.JOINT_CONTROLLER_SHOT) /\
    (Starter.u_hit_velocity u < 0 ->
     Starter.state (Starter.globals (Starter.loop inputs (Starter.init u store))) <>
     Starter.JOINT_CONTROLLER_SHOT).
Proof.
  intros u store inputs.
  assert (H : Starter_shot_duration u <= 0.001 ->
              Starter.state (Starter.globals (Starter.loop inputs (Starter.init u store))) <>
              Starter.JOINT_CONTROLLER_SHOT).
  { intros HT.
    apply (Starter_loop_no_shot (Starter_shot_duration u) inputs HT).
    split; [|discriminate].
    unfold Starter_calibrated, Starter_shot_duration. cbn. repeat split; reflexivity. }
  split; [intros _ _; exact H|].
  intros Hv. apply H. rewrite Starter_shot_duration_eq.
  assert (Hq : 180 * Starter.ee_length / Starter.u_hit_velocity u < 0).
  { pose proof (Rinv_lt_0_compat _ Hv) as Hi.
    assert (He : 180 * Starter.ee_length > 0) by (unfold Starter.ee_length; lra).
    unfold Rdiv. nra. }
  lra.
Qed.

(** A hit velocity of 30000 m/s, for which the shot would last less than a
    tick, and a hit velocity of -1 m/s; the iterations of a cycle up to 16 s
    after the approach: the loop is not shooting. *)
Lemma starter_negative_velocity_skips_shot :
  Starter.state
    (Starter.globals
       (Starter.loop (repeat Starter_quiet (Z.to_nat 16002))
                     (Starter.init (Starter_setup 30000 0) (Starter.mkRedis "execute" [])))) <>
  Starter.JOINT_CONTROLLER_SHOT /\
  Starter.state
    (Starter.globals
       (Starter.loop (repeat Starter_quiet (Z.to_nat 16002))
                     (Starter.init (Starter_setup (-1) 0) (Starter.mkRedis "execute" [])))) <>
  Starter.JOINT_CONTROLLER_SHOT.
Proof.
  split.
  - apply (proj1 (starter_short_shot_is_skipped
                    (Starter_setup 30000 0) (Starter.mkRedis "execute" [])
                    (repeat Starter_quiet (Z.to_nat 16002)))).
    + cbn. lra.
    + cbn. lra.
    + rewrite Starter_shot_duration_eq. unfold Starter.ee_length. cbn. lra.
  - apply (proj2 (starter_short_shot_is_skipped
                    (Starter_setup (-1) 0) (Starter.mkRedis "execute" [])
                    (repeat Starter_quiet (Z.to_nat 16002)))).
    cbn. lra.
Defined.

(** ** The centre-shot flag *)

Lemma Interface_step_execute_centershot (stod : string -> option double)
      (inp : Interface.TickInput) (s : Interface.World) :
  Interface.mode (Interface.globals s) = EXECUTE_MODE ->
  exists s',
    Interface.step stod inp s = Some s' /\
    Interface.centershot (Interface.globals s') =
    match Interface.state (Interface.globals s) with
    | Interface.JOINT_CONTROLLER_SHOT =>
      if gt_d (Interface.seconds (Interface.globals s))
              (Interface.t_4 (Interface.globals s) +
               Interface.total_time (Interface.locals s))
      then false else Interface.centershot (Interface.globals s)
    | _ => Interface.centershot (Interface.globals s)
    end.
Proof.
  intros Hmode.
  unfold Interface.step. cbn. rewrite Hmode. cbn.
  eexists. split; [reflexivity|].
  unfold Interface.execute_mode. cbn.
  destruct (Interface.state (Interface.globals s)).
  - unfold Interface.joint_controller. cbn.
    destruct (Interface.reached_joint_goal _); reflexivity.
  - unfold Interface.posori_controller, Interface.reached_final_goal. cbn.
    destruct (Interface.robotReachedGoal _ _ _ _ _ _ && gt_d _ _); cbn;
      destruct (gt_d _ _ && lt_d _ _); reflexivity.
  - unfold Interface.joint_controller_shot. cbn.
    destruct (gt_d _ _ && lt_d _ _); cbn.
    + destruct (gt_d _ _); reflexivity.
    + destruct (le_d _ _); cbn.
      * destruct (Interface.centershot (Interface.globals s)) eqn:Ecs; cbn;
          destruct (gt_d _ _); cbn; rewrite ?Ecs; reflexivity.
      * destruct (gt_d _ _); reflexivity.
  - reflexivity.
Qed.

Lemma Interface_wait_activate_centershot (stod : string -> option double)
      (inp : Interface.TickInput) (s s' : Interface.World) :
  Interface.mode (Interface.globals s) = WAIT_MODE ->
  String.eqb (Interface_token inp s) "execute" = true ->
  Interface.step stod inp s = Some s' ->
  Interface.centershot (Interface.globals s') =
  (if le_d (Interface.psi (Interface.locals s')) 1.571 &&
      ge_d (Interface.psi (Interface.locals s')) 1.569
   then true else Interface.centershot (Interface.globals s)).
Proof.
  intros Hwait Htok. unfold Interface_token in Htok.
  unfold Interface.step, Interface.wait_mode. cbn. rewrite Hwait. cbn.
  rewrite Htok.
  destruct (stod _) as [px|]; [|discriminate].
  destruct (stod _) as [py|]; [|discriminate].
  destruct (stod _) as [angle|]; [|discriminate].
  cbn. intros H. injection H as <-.
  destruct (le_d angle 1.571 && ge_d angle 1.569) eqn:E; cbn; rewrite E; reflexivity.
Qed.

Lemma Interface_step_centershot_invariant (stod : string -> option double)
      (inp : Interface.TickInput) (s s' : Interface.World) :
  Interface_centershot_invariant s ->
  Interface.step stod inp s = Some s' ->
  Interface_centershot_invariant s'.
Proof.
  intros (Hrun & Hw & Hr) Hstep.
  pose proof (Interface_step_invariant stod inp s s' Hrun Hstep) as Hrun'.
  split; [exact Hrun'|].
  destruct Hrun as (Hcal & Hc & Hst).
  destruct (Interface.mode (Interface.globals s)) eqn:Hmode.
  - (* WAIT *)
    destruct (Interface_step_wait_control stod inp s s' Hmode Hstep)
      as (_ & _ & Hst' & _).
    assert (Hj : Interface.state (Interface.globals s) = Interface.JOINT_CONTROLLER).
    { destruct (Interface.state (Interface.globals s)); try reflexivity.
      - destruct Hst as [Hd _]. discriminate Hd.
      - destruct Hst as [Hd _]. discriminate Hd.
      - destruct Hst. }
    rewrite Hst', Hj.
    split; [|discriminate].
    intros Hw'.
    destruct (String.eqb (Interface_token inp s) "execute") eqn:Htok.
    + destruct (Interface_wait_activate stod inp s Hmode s' Htok Hstep) as (Hph & _).
      unfold Interface.phase in Hph. injection Hph as Hm' _. congruence.
    + destruct (Interface_wait_idle stod inp s Hmode Htok) as (s1 & Hs1 & Hg & _).
      rewrite Hstep in Hs1. injection Hs1 as <-. rewrite Hg. apply Hw. reflexivity.
  - (* EXECUTE *)
    destruct (Interface_step_execute_control stod inp s Hmode)
      as (s1 & Hs1 & _ & _ & Hph & Hcnt).
    rewrite Hstep in Hs1. injection Hs1 as <-.
    destruct (Interface_step_execute_centershot stod inp s Hmode) as (s2 & Hs2 & Hcs).
    rewrite Hstep in Hs2. injection Hs2 as <-.
    cbv zeta in Hph, Hcnt.
    rewrite (Interface_final_goal_calibrated inp _ s Hcal) in Hph.
    destruct Hcal as (_ & _ & _ & H3 & H4 & HT0).
    rewrite H3, H4, HT0 in Hph. rewrite H4, HT0 in Hcs.
    unfold Interface.seconds, dt in Hph, Hcs.
    set (c := Interface.controller_counter (Interface.globals s)) in *.
    unfold Interface.phase in Hph.
    destruct (Interface.state (Interface.globals s)) eqn:Hstate.
    + (* JOINT_CONTROLLER *)
      injection Hph as Hm' Hst'. rewrite Hm', Hst', Hcnt.
      split; [discriminate|].
      destruct (Interface.reached_joint_goal inp); [|discriminate].
      intros _ Hge. exfalso.
      rewrite incr_ull_small in Hge by (unfold ULLONG_MODULUS; lia). lia.
    + (* POSORI_CONTROLLER *)
      destruct Hst as [_ Hrange]. rewrite Hcs.
      assert (Hlate : (13000 < c)%Z -> Interface.centershot (Interface.globals s) = false).
      { intros Hc13. apply Hr; [reflexivity|]. fold c. lia. }
      injection Hph as Hm' Hst'. rewrite Hm', Hcnt. split.
      * destruct (Interface_settled_at_home inp && gt_d (IZR c * 0.001) 13) eqn:Hfinal;
          [|discriminate].
        intros _. apply andb_true_iff in Hfinal. destruct Hfinal as [_ Hgt].
        cmp_prop. apply Hlate. apply lt_IZR. lra.
      * intros _ Hge. apply Hlate.
        destruct (incr_ull_cases c Hc) as [E | E]; rewrite E in Hge; lia.
    + (* JOINT_CONTROLLER_SHOT *)
      injection Hph as Hm' Hst'. rewrite Hm', Hst', Hcs.
      split; [discriminate|].
      destruct (gt_d (IZR c * 0.001) (13 + 1.3)); [reflexivity | discriminate].
    + destruct Hst.
Qed.

Lemma Interface_init_centershot_invariant (u : Interface.Indeterminate)
      (store : Interface.Redis) :
  Interface_centershot_invariant (Interface.init u store).
Proof.
  split; [apply Interface_init_invariant|]. split; reflexivity.
Qed.

Lemma Interface_loop_centershot_invariant (stod : string -> option double)
      (inputs : list Interface.TickInput) :
  forall s s',
    Interface_centershot_invariant s ->
    Interface.loop stod inputs s = Some s' ->
    Interface_centershot_invariant s'.
Proof.
  induction inputs as [|inp rest IH]; intros s s' Hinv Hloop.
  - injection Hloop as <-. exact Hinv.
  - cbn [Interface.loop] in Hloop.
    destruct (Interface.step stod inp s) as [s1|] eqn:Hstep; [|discriminate].
    apply (IH s1 s'); [|exact Hloop].
    exact (Interface_step_centershot_invariant stod inp s s1 Hinv Hstep).
Qed.

(** X18.  The centre-shot flag of a cycle is that of its own shot.  The
    activation raises the flag when the strike angle is between 1.569 and
    1.571 and does not lower it otherwise; but the end of the shot lowers it,
    and every return to WAIT comes after the end of a shot.  So in every
    run, the flag is down whenever the loop waits, and after an activation
    it is up exactly when the strike angle just read is a centre shot. *)
Theorem centershot_is_that_of_the_current_shot :
  forall (stod : string -> option double) (u : Interface.Indeterminate)
         (store : Interface.Redis) (inputs : list Interface.TickInput)
         (s : Interface.World),
    Interface.loop stod inputs (Interface.init u store) = Some s ->
    Interface.mode (Interface.globals s) = WAIT_MODE ->
    Interface.centershot (Interface.globals s) = false /\
    forall (inp : Interface.TickInput) (s' : Interface.World),
      Interface.step stod inp s = Some s' ->
      Interface.mode (Interface.globals s') = EXECUTE_MODE ->
      (Interface.centershot (Interface.globals s') = true <->
       is_centershot (Interface.psi (Interface.locals s'))).
Proof.
  intros stod u store inputs s Hloop Hwait.
  destruct (Interface_loop_centershot_invariant
              stod inputs _ s (Interface_init_centershot_invariant u store) Hloop)
    as (_ & Hw & _).
  specialize (Hw Hwait). split; [exact Hw|].
  intros inp s' Hstep Hexec.
  destruct (String.eqb (Interface_token inp s) "execute") eqn:Htok.
  - rewrite (Interface_wait_activate_centershot stod inp s s' Hwait Htok Hstep), Hw.
    unfold is_centershot.
    destruct (le_d _ 1.571) eqn:E1, (ge_d _ 1.569) eqn:E2; cbn [andb]; cmp_prop;
      split; intros H; try discriminate; try reflexivity; lra.
  - destruct (Interface_wait_idle stod inp s Hwait Htok) as (s1 & Hs1 & Hg & _).
    rewrite Hstep in Hs1. injection Hs1 as <-. rewrite Hg in Hexec. congruence.
Qed.

(** The sample shot, whose strike angle 1.5708 is a centre shot, at the
    first activation of a run. *)
Lemma sample_shot_is_centershot :
  Interface.centershot
    (Interface.globals (Interface.init Interface_u0 Interface_store0)) = false /\
  exists s',
    Interface.step stod_sample Interface_quiet
                   (Interface.init Interface_u0 Interface_store0) = Some s' /\
    Interface.centershot (Interface.globals s') = true.
Proof.
  destruct (centershot_is_that_of_the_current_shot
              stod_sample Interface_u0 Interface_store0 []
              (Interface.init Interface_u0 Interface_store0) eq_refl eq_refl)
    as [H0 H1].
  split; [exact H0|].
  destruct (Interface_wait_activate_parsed
              stod_sample Interface_quiet
              (Interface.init Interface_u0 Interface_store0) 100 50 1.5708
              eq_refl eq_refl eq_refl eq_refl eq_refl)
    as (s' & Hs' & Hm & _ & Hpsi & _).
  exists s'. split; [exact Hs'|].
  apply (H1 Interface_quiet s' Hs' Hm).
  rewrite Hpsi. unfold is_centershot. lra.
Defined.

(** ** Continuity of the desired pose of the starter variant *)

Lemma Starter_arc_start_angle :
  atan2 (v_x Starter.xc - Starter.x_offset) (v_y Starter.xc - Starter.y_offset) =
  - (PI / 4).
Proof.
  unfold Starter.xc, M_PI. cbn [v_x v_y].
  replace (- PI / 4) with (- (PI / 4)) by lra.
  rewrite sin_neg, cos_neg, sin_PI4, cos_PI4.
  pose proof Rlt_sqrt2_0 as Hs.
  assert (Hr : Starter.r > 0) by (unfold Starter.r; lra).
  assert (Hc : 0 < 1 / sqrt 2) by (apply Rdiv_lt_0_compat; lra).
  replace (Starter.r * - (1 / sqrt 2) + Starter.x_offset - Starter.x_offset)
    with (- (Starter.r * (1 / sqrt 2))) by ring.
  replace (Starter.r * (1 / sqrt 2) + Starter.y_offset - Starter.y_offset)
    with (Starter.r * (1 / sqrt 2)) by ring.
  assert (Hpos : 0 < Starter.r * (1 / sqrt 2)) by (apply Rmult_lt_0_compat; lra).
  unfold atan2. rewrite (proj2 (lt_d_true _ _) Hpos).
  replace (- (Starter.r * (1 / sqrt 2)) / (Starter.r * (1 / sqrt 2)))
    with (Ropp 1) by (field; split; lra).
  rewrite atan_opp, atan_1. reflexivity.
Qed.

Lemma Starter_arc_end_angle :
  atan2 (v_x Starter.xcd - Starter.x_offset) (v_y Starter.xcd - Starter.y_offset) =
  - (3 * (PI / 4)).
Proof.
  unfold Starter.xcd, M_PI. cbn [v_x v_y].
  replace (-3 * PI / 4) with (- (3 * (PI / 4))) by lra.
  rewrite sin_neg, cos_neg, sin_3PI4, cos_3PI4.
  pose proof Rlt_sqrt2_0 as Hs.
  assert (Hr : Starter.r > 0) by (unfold Starter.r; lra).
  assert (Hc : 0 < 1 / sqrt 2) by (apply Rdiv_lt_0_compat; lra).
  replace (Starter.r * - (1 / sqrt 2) + Starter.x_offset - Starter.x_offset)
    with (- (Starter.r * (1 / sqrt 2))) by ring.
  replace (Starter.r * (-1 / sqrt 2) + Starter.y_offset - Starter.y_offset)
    with (- (Starter.r * (1 / sqrt 2))) by (field; lra).
  assert (Hpos : 0 < Starter.r * (1 / sqrt 2)) by (apply Rmult_lt_0_compat; lra).
  unfold atan2.
  rewrite (proj2 (lt_d_false 0 (- (Starter.r * (1 / sqrt 2))))) by lra.
  rewrite (proj2 (lt_d_true (- (Starter.r * (1 / sqrt 2))) 0)) by lra.
  rewrite (proj2 (le_d_false 0 (- (Starter.r * (1 / sqrt 2))))) by lra.
  replace (- (Starter.r * (1 / sqrt 2)) / - (Starter.r * (1 / sqrt 2)))
    with 1 by (field; split; lra).
  rewrite atan_1. lra.
Qed.

Lemma linear_blend_close_5 (p q t eps : double) :
  Rabs (q - p) <= 1 ->
  eps > 0 ->
  5 - eps < t < 5 ->
  Rabs (p + (q - p) * (t - 0) / 5 - q) < eps.
Proof.
  intros Hpq Heps Ht.
  replace (p + (q - p) * (t - 0) / 5 - q) with ((q - p) * ((t - 5) / 5)) by field.
  rewrite Rabs_mult. rewrite (Rabs_left ((t - 5) / 5)) by lra.
  pose proof (Rabs_pos (q - p)) as H0.
  nra.
Qed.

Section StarterLimits.

Variable g : Starter.Globals.
Hypothesis Hwin : Starter_window_initial g.

Lemma Starter_point_piece1 (t : double) :
  0 <= t < 5 ->
  Starter.calculatePointInTrajectory g t =
  v3_plus Starter.xh (v3_div (v3_scale (v3_minus Starter.xc Starter.xh) (t - 0)) 5).
Proof.
  intros Ht. destruct Hwin as (H0 & H1 & H2 & H3 & H4).
  unfold Starter.calculatePointInTrajectory.
  rewrite H0, H1, H2, H3, H4. range_eval. reflexivity.
Qed.

Lemma Starter_point_piece2 (t : double) :
  5 <= t < 10 -> Starter.calculatePointInTrajectory g t = Starter.arc g t.
Proof.
  intros Ht. destruct Hwin as (H0 & H1 & H2 & H3 & H4).
  unfold Starter.calculatePointInTrajectory.
  rewrite H0, H1, H2, H3, H4. range_eval. reflexivity.
Qed.

Lemma Starter_point_piece34 (t : double) :
  10 <= t < 20 -> Starter.calculatePointInTrajectory g t = Starter.xcd.
Proof.
  intros Ht. destruct Hwin as (H0 & H1 & H2 & H3 & H4).
  unfold Starter.calculatePointInTrajectory.
  rewrite H0, H1, H2, H3, H4.
  destruct (Rlt_le_dec t 15); range_eval; reflexivity.
Qed.

Lemma Starter_point_piece5 (t : double) :
  20 <= t -> Starter.calculatePointInTrajectory g t = Starter.xh.
Proof.
  intros Ht. destruct Hwin as (H0 & H1 & H2 & H3 & H4).
  unfold Starter.calculatePointInTrajectory.
  rewrite H0, H1, H2, H3, H4. range_eval. reflexivity.
Qed.

(** The angle of the arc: from -pi/4 at [t_1] to -3 pi/4 at [t_2]. *)
Lemma Starter_arc_angle (t : double) :
  Starter.arc g t =
  mkVector3d (Starter.r * sin (- (PI / 10) * t + PI / 4) + Starter.x_offset)
             (Starter.r * cos (- (PI / 10) * t + PI / 4) + Starter.y_offset)
             0.5.
Proof.
  destruct Hwin as (H0 & H1 & H2 & H3 & H4).
  unfold Starter.arc. cbv zeta.
  rewrite H1, H2, Starter_arc_start_angle, Starter_arc_end_angle.
  replace ((t - 5) * (- (3 * (PI / 4)) - - (PI / 4)) / (10 - 5) + - (PI / 4))
    with (- (PI / 10) * t + PI / 4) by field.
  reflexivity.
Qed.

Lemma Starter_point_at_t_1 : Starter.calculatePointInTrajectory g 5 = Starter.xc.
Proof.
  rewrite Starter_point_piece2 by lra. rewrite Starter_arc_angle.
  unfold Starter.xc, M_PI.
  replace (- (PI / 10) * 5 + PI / 4) with (- PI / 4) by field.
  reflexivity.
Qed.

Lemma Starter_arc_at_t_2 : Starter.arc g 10 = Starter.xcd.
Proof.
  rewrite Starter_arc_angle. unfold Starter.xcd, M_PI.
  replace (- (PI / 10) * 10 + PI / 4) with (-3 * PI / 4) by field.
  reflexivity.
Qed.

Lemma Starter_point_left_limit_t_1 :
  left_limit v3_dist (Starter.calculatePointInTrajectory g) 5 Starter.xc.
Proof.
  intros eps Heps.
  exists (Rmin eps 1). split; [apply Rmin_glb_lt; lra|].
  intros t [Hlo Hhi].
  pose proof (Rmin_l eps 1) as Hl. pose proof (Rmin_r eps 1) as Hr.
  rewrite Starter_point_piece1 by lra.
  pose proof (SIN_bound (- M_PI / 4)) as Hs.
  pose proof (COS_bound (- M_PI / 4)) as Hc.
  apply v3_dist_lt; unfold v3_plus, v3_div, v3_scale, v3_minus; cbn [v_x v_y v_z];
    apply linear_blend_close_5; try lra;
      unfold Starter.xc, Starter.xh, Starter.r, Starter.x_offset,
      Starter.y_offset; cbn [v_x v_y v_z];
        apply Rabs_le; lra.
Qed.

Lemma Starter_point_left_limit_t_2 :
  left_limit v3_dist (Starter.calculatePointInTrajectory g) 10 Starter.xcd.
Proof.
  intros eps Heps.
  destruct (trig_left_limit (- (PI / 10)) (PI / 4) 10 eps Heps) as (d & Hd & Htrig).
  exists (Rmin d 1). split; [apply Rmin_glb_lt; lra|].
  intros t [Hlo Hhi].
  pose proof (Rmin_l d 1) as Hl. pose proof (Rmin_r d 1) as Hr.
  rewrite Starter_point_piece2 by lra.
  rewrite <- Starter_arc_at_t_2, !Starter_arc_angle.
  destruct (Htrig t ltac:(lra)) as [Hsin Hcos].
  set (a := - (PI / 10) * t + PI / 4) in *.
  set (a10 := - (PI / 10) * 10 + PI / 4) in *.
  apply Rabs_def2 in Hsin. apply Rabs_def2 in Hcos.
  apply v3_dist_lt; cbn [v_x v_y v_z]; apply Rabs_def1;
    unfold Starter.r; lra.
Qed.

Lemma Starter_point_left_limit_t_3 :
  left_limit v3_dist (Starter.calculatePointInTrajectory g) 15 Starter.xcd.
Proof.
  apply left_limit_constant with (d0 := 1); [apply v3_dist_refl | lra |].
  intros t Ht. rewrite Starter_point_piece34 by lra. reflexivity.
Qed.

Lemma Starter_point_left_limit_t_4 :
  left_limit v3_dist (Starter.calculatePointInTrajectory g) 20 Starter.xcd.
Proof.
  apply left_limit_constant with (d0 := 1); [apply v3_dist_refl | lra |].
  intros t Ht. rewrite Starter_point_piece34 by lra. reflexivity.
Qed.

Lemma Starter_rotation_left_limit_t_1 :
  left_limit m3_dist (Starter.calculateRotationInTrajectory g) 5
             Starter.home_orientation.
Proof.
  destruct Hwin as (H0 & H1 & H2 & H3 & H4).
  apply left_limit_constant with (d0 := 1); [apply m3_dist_refl | lra |].
  intros t Ht. unfold Starter.calculateRotationInTrajectory.
  rewrite H0, H1. range_eval. reflexivity.
Qed.

Lemma Starter_rotation_at_t_1 :
  Starter.calculateRotationInTrajectory g 5 =
  m3_mul (rotZ (- M_PI / 2)) Starter.home_orientation.
Proof.
  destruct Hwin as (H0 & H1 & H2 & H3 & H4).
  unfold Starter.calculateRotationInTrajectory.
  rewrite H0, H1, H2. range_eval. reflexivity.
Qed.

End StarterLimits.

(** X19.  With the boundaries of the source (0, 5, 10, 15, 20) the desired
    position of the starter variant is continuous from the left at [t_1], at
    [t_2] and at [t_3]: the approach ends on the cue coin, where the arc
    starts, and the arc ends on the drop-off position, which this variant
    fixes at the bearing -3 pi/4.  The desired orientation is not: it is the
    home orientation up to [t_1] and a quarter turn of it from [t_1] on. *)
Theorem starter_position_is_continuous_up_to_t_3 :
  forall g : Starter.Globals,
    Starter_window_initial g ->
    left_limit v3_dist (Starter.calculatePointInTrajectory g) (Starter.t_1 g)
               (Starter.calculatePointInTrajectory g (Starter.t_1 g)) /\
    left_limit v3_dist (Starter.calculatePointInTrajectory g) (Starter.t_2 g)
               (Starter.calculatePointInTrajectory g (Starter.t_2 g)) /\
    left_limit v3_dist (Starter.calculatePointInTrajectory g) (Starter.t_3 g)
               (Starter.calculatePointInTrajectory g (Starter.t_3 g)) /\
    Starter.calculatePointInTrajectory g (Starter.t_1 g) = Starter.xc /\
    Starter.calculatePointInTrajectory g (Starter.t_2 g) = Starter.xcd /\
    left_limit m3_dist (Starter.calculateRotationInTrajectory g) (Starter.t_1 g)
               Starter.home_orientation /\
    m3_dist Starter.home_orientation
            (Starter.calculateRotationInTrajectory g (Starter.t_1 g)) >= 1.
Proof.
  intros g Hwin. pose proof Hwin as (H0 & H1 & H2 & H3 & H4).
  rewrite H1, H2, H3.
  rewrite (Starter_point_at_t_1 g Hwin).
  rewrite !(Starter_point_piece34 g Hwin) by lra.
  rewrite (Starter_rotation_at_t_1 g Hwin).
  split; [apply (Starter_point_left_limit_t_1 g Hwin)|].
  split; [apply (Starter_point_left_limit_t_2 g Hwin)|].
  split; [apply (Starter_point_left_limit_t_3 g Hwin)|].
  split; [reflexivity|]. split; [reflexivity|].
  split; [apply (Starter_rotation_left_limit_t_1 g Hwin)|].
  unfold m3_dist, m3_mul, rotZ, Starter.home_orientation, M_PI.
  cbn [m00 m01 m02 m10 m11 m12 m20 m21 m22].
  replace (- PI / 2) with (- (PI / 2)) by lra.
  rewrite cos_neg, sin_neg, cos_PI2, sin_PI2.
  apply Rle_ge.
  apply Rle_trans with (2 := Rmax_l _ _).
  match goal with
  | |- 1 <= Rabs ?x => replace x with 1 by ring
  end.
  rewrite Rabs_R1. lra.
Qed.

(** The globals as the source initialises them. *)
Lemma starter_continuity_with_source_boundaries :
  left_limit v3_dist (Starter.calculatePointInTrajectory Starter_globals0) 5
             (Starter.calculatePointInTrajectory Starter_globals0 5) /\
  left_limit v3_dist (Starter.calculatePointInTrajectory Starter_globals0) 10
             (Starter.calculatePointInTrajectory Starter_globals0 10).
Proof.
  destruct (starter_position_is_continuous_up_to_t_3 Starter_globals0)
    as (H1 & H2 & _).
  - unfold Starter_window_initial. cbn. repeat split; reflexivity.
  - split; [exact H1 | exact H2].
Defined.

(** ** The end of the fourth window *)

Lemma v3_dist_ge_z (p q : Vector3d) : Rabs (v_z p - v_z q) <= v3_dist p q.
Proof.
  unfold v3_dist.
  apply Rle_trans with (2 := Rmax_r _ _). apply Rmax_r.
Qed.

(** X20.  At [t_4] the desired position steps from the drop-off position to
    the home position, in both variants: just below [t_4] it is the drop-off
    position, at [t_4] it is home, and the two are apart, by 0.118 m of
    height at least in the interface variant (for every drop-off position
    the activation can write) and by 0.2 m in the starter variant. *)
Theorem desired_position_steps_at_t_4 :
  (forall g : Interface.Globals,
      Interface_window_initial g ->
      c_2 (Interface.cue_start_pos g) = 0 ->
      c_3 (Interface.cue_start_pos g) = 1 ->
      left_limit v3_dist (Interface.calculatePointInTrajectory g) (Interface.t_4 g)
                 (Interface.xcd (Interface.cue_start_pos g)) /\
      Interface.calculatePointInTrajectory g (Interface.t_4 g) = Interface.xh /\
      v3_dist (Interface.xcd (Interface.cue_start_pos g)) Interface.xh >= 0.118) /\
  (forall g : Starter.Globals,
      Starter_window_initial g ->
      left_limit v3_dist (Starter.calculatePointInTrajectory g) (Starter.t_4 g)
                 Starter.xcd /\
      Starter.calculatePointInTrajectory g (Starter.t_4 g) = Starter.xh /\
      v3_dist Starter.xcd Starter.xh >= 0.2).
Proof.
  split.
  - intros g Hwin Hc2 Hc3. pose proof Hwin as (H0 & H1 & H2 & H3 & H4).
    rewrite H4. split; [|split].
    + apply left_limit_constant with (d0 := 1); [apply v3_dist_refl | lra |].
      intros t Ht. apply (Interface_point_piece34 g Hwin). lra.
    + apply Interface_point_outside_windows.
      * unfold window_ordered. rewrite H0, H1, H2, H3, H4. lra.
      * right. rewrite H4. lra.
    + apply Rle_ge.
      apply Rle_trans with (2 := v3_dist_ge_z _ _).
      unfold Interface.xcd, dot4, Interface.xh, Interface.z_offset.
      cbn [v_z c_0 c_1 c_2 c_3]. rewrite Hc2, Hc3.
      match goal with
      | |- _ <= Rabs ?x => replace x with (Ropp 0.118) by lra
      end.
      rewrite Rabs_Ropp, Rabs_pos_eq; lra.
  - intros g Hwin. pose proof Hwin as (H0 & H1 & H2 & H3 & H4).
    rewrite H4. split; [|split].
    + apply (Starter_point_left_limit_t_4 g Hwin).
    + apply (Starter_point_piece5 g Hwin). lra.
    + apply Rle_ge.
      apply Rle_trans with (2 := v3_dist_ge_z _ _).
      unfold Starter.xcd, Starter.xh. cbn [v_z].
      match goal with
      | |- _ <= Rabs ?x => replace x with (Ropp 0.2) by lra
      end.
      rewrite Rabs_Ropp, Rabs_pos_eq; lra.
Qed.

(** The drop-off position 100 mm from the centre of the board, and the
    starter variant as the source initialises it. *)
Lemma desired_position_steps_at_13_and_20_seconds :
  Interface.calculatePointInTrajectory Interface_globals_inside 13 = Interface.xh /\
  v3_dist (Interface.xcd (mkVector4d (-0.1) 0 0 1)) Interface.xh >= 0.118 /\
  Starter.calculatePointInTrajectory Starter_globals0 20 = Starter.xh /\
  v3_dist Starter.xcd Starter.xh >= 0.2.
Proof.
  destruct (proj1 desired_position_steps_at_t_4 Interface_globals_inside)
    as (_ & H1 & H2).
  - unfold Interface_window_initial. cbn. repeat split; reflexivity.
  - reflexivity.
  - reflexivity.
  - destruct (proj2 desired_position_steps_at_t_4 Starter_globals0) as (_ & H3 & H4).
    + unfold Starter_window_initial. cbn. repeat split; reflexivity.
    + repeat split; assumption.
Defined.

(** ** How much the safety monitor can report *)

Lemma violated_at_most_three (q dq tau : VectorXd) (i : nat) :
  (i < 7)%nat ->
  (List.length (violated q dq tau i) <= 3)%nat /\
  ~ (In MAX_JOINT_POSITION (violated q dq tau i) /\
     In MIN_JOINT_POSITION (violated q dq tau i)).
Proof.
  intros Hi. pose proof (position_limits_ordered i Hi) as Hord.
  split.
  - unfold violated. cmp_cases; cbn; try lia. lra.
  - rewrite !in_violated. unfold exceeds. lra.
Qed.

Lemma flat_map_length_le {A : Type} (f : nat -> list A) (k : nat) :
  forall n a,
    (forall i, (a <= i < a + n)%nat -> (List.length (f i) <= k)%nat) ->
    (List.length (flat_map f (seq a n)) <= k * n)%nat.
Proof.
  induction n as [|n IH]; intros a Hf; [simpl; lia|].
  simpl. rewrite length_app.
  pose proof (Hf a ltac:(lia)) as Ha.
  pose proof (IH (S a) (fun i Hi => Hf i ltac:(lia))) as Hrest.
  lia.
Qed.

(** X21.  One call of [safetyChecks] on the seven joints prints at most
    three lines per joint, 21 in all, in either variant: every joint has its
    lower position limit below its upper one, so no joint is reported for
    both.  With [dof] zero it prints nothing. *)
Theorem safetyChecks_reports_at_most_three_per_joint :
  forall (q dq tau : VectorXd) (n : nat),
    (n <= 7)%nat ->
    (List.length (Interface.safetyChecks q dq tau n) <= 3 * n)%nat /\
    (List.length (Starter.safetyChecks q dq tau n) <= 3 * n)%nat /\
    Interface.safetyChecks q dq tau 0 = [] /\
    forall i : nat,
      ~ (In (Interface.mkViolation MAX_JOINT_POSITION (i + 1))
            (Interface.safetyChecks q dq tau n) /\
         In (Interface.mkViolation MIN_JOINT_POSITION (i + 1))
            (Interface.safetyChecks q dq tau n)).
Proof.
  intros q dq tau n Hn.
  assert (HI : (List.length (Interface.safetyChecks q dq tau n) <= 3 * n)%nat).
  { unfold Interface.safetyChecks. apply flat_map_length_le.
    intros i Hi. rewrite length_map.
    apply (violated_at_most_three q dq tau i). lia. }
  split; [exact HI|]. split.
  - rewrite Starter_safetyChecks_limits, length_map. exact HI.
  - split; [reflexivity|].
    intros i [H1 H2].
    apply in_Interface_safetyChecks in H1. apply in_Interface_safetyChecks in H2.
    destruct H1 as [Hi E1]. destruct H2 as [_ E2].
    pose proof (position_limits_ordered i ltac:(lia)) as Hord.
    unfold exceeds in E1, E2. lra.
Qed.

(** Every joint far above its position and velocity limits with a torque
    far above its limit: three lines per joint. *)
Lemma safetyChecks_all_joints_out_of_limits :
  (List.length (Interface.safetyChecks (Ones 10 dof) (Ones 10 dof) (Ones 100 dof) 7)
   <= 3 * 7)%nat /\
  (List.length (Starter.safetyChecks (Ones 10 dof) (Ones 10 dof) (Ones 100 dof) 7)
   <= 3 * 7)%nat.
Proof.
  destruct (safetyChecks_reports_at_most_three_per_joint
              (Ones 10 dof) (Ones 10 dof) (Ones 100 dof) 7) as (H1 & H2 & _).
  - lia.
  - split; [exact H1 | exact H2].
Defined.

(** ** Where the pose task is aimed *)

(** The pose target an iteration in EXECUTE leaves. *)
Lemma Interface_step_execute_pose (stod : string -> option double)
      (inp : Interface.TickInput) (s : Interface.World) :
  Interface.mode (Interface.globals s) = EXECUTE_MODE ->
  exists s',
    Interface.step stod inp s = Some s' /\
    let t := Interface.seconds (Interface.globals s) in
    let g := Interface.globals s in
    let done := gt_d t (Interface.t_4 g + Interface.total_time (Interface.locals s)) in
    Interface.po_desired_position (Interface.posori_task s') =
    match Interface.state g with
    | Interface.JOINT_CONTROLLER =>
      if Interface.reached_joint_goal inp
      then Interface.calculatePointInTrajectory g 0
      else Interface.po_desired_position (Interface.posori_task s)
    | Interface.POSORI_CONTROLLER => Interface.calculatePointInTrajectory g t
    | Interface.JOINT_CONTROLLER_SHOT =>
      if done then Interface.calculatePointInTrajectory g t
      else Interface.po_desired_position (Interface.posori_task s)
    | Interface.END_SHOT => Interface.po_desired_position (Interface.posori_task s)
    end /\
    Interface.po_desired_orientation (Interface.posori_task s') =
    match Interface.state g with
    | Interface.JOINT_CONTROLLER =>
      if Interface.reached_joint_goal inp
      then Interface.calculateRotationInTrajectory g 0 (Interface.psi (Interface.locals s))
      else Interface.po_desired_orientation (Interface.posori_task s)
    | Interface.POSORI_CONTROLLER =>
      Interface.calculateRotationInTrajectory g t (Interface.psi (Interface.locals s))
    | Interface.JOINT_CONTROLLER_SHOT =>
      if done
      then Interface.calculateRotationInTrajectory g t (Interface.psi (Interface.locals s))
      else Interface.po_desired_orientation (Interface.posori_task s)
    | Interface.END_SHOT => Interface.po_desired_orientation (Interface.posori_task s)
    end.
Proof.
  intros Hmode.
  unfold Interface.step. cbn. rewrite Hmode. cbn.
  eexists. split; [reflexivity|].
  unfold Interface.execute_mode. cbn.
  destruct (Interface.state (Interface.globals s)).
  - unfold Interface.joint_controller. cbn.
    destruct (Interface.reached_joint_goal _); cbn; split; reflexivity.
  - unfold Interface.posori_controller, Interface.reached_final_goal. cbn.
    destruct (Interface.robotReachedGoal _ _ _ _ _ _ && gt_d _ _); cbn;
      destruct (gt_d _ _ && lt_d _ _); cbn; split; reflexivity.
  - unfold Interface.joint_controller_shot. cbn.
    destruct (gt_d _ _ && lt_d _ _); cbn.
    + destruct (gt_d _ _); cbn; split; reflexivity.
    + destruct (le_d _ _); cbn.
      * destruct (Interface.centershot (Interface.globals s)) eqn:Ecs; cbn;
          destruct (gt_d _ _); cbn; split; reflexivity.
      * destruct (gt_d _ _); cbn; split; reflexivity.
  - cbn. split; reflexivity.
Qed.

Lemma Starter_step_approach_exit (inp : Starter.TickInput) (s : Starter.World) :
  Starter.mode (Starter.globals s) = EXECUTE_MODE ->
  Starter.state (Starter.globals s) = Starter.JOINT_CONTROLLER ->
  Starter.reached_joint_goal inp = true ->
  Starter.po_desired_position (Starter.posori_task (Starter.step inp s)) =
  Starter.calculatePointInTrajectory (Starter.globals s)
                                     (Starter.seconds (Starter.globals s)) /\
  Starter.controller_counter (Starter.globals (Starter.step inp s)) = incr_ull 0.
Proof.
  intros Hmode Hst Hgoal.
  unfold Starter.step. cbn. rewrite Hmode.
  unfold Starter.execute_mode. cbn. rewrite Hst.
  unfold Starter.joint_controller. rewrite Hgoal. cbn. split; reflexivity.
Qed.

(** X22.  From the end of the shot on, the pose task of the interface
    variant is aimed at home.  With the boundaries and the shot duration of
    the source, the iteration that ends the shot (more than 14.3 s after the
    approach) and every iteration of the return (the state
    [POSORI_CONTROLLER] later than that) set the desired position to the
    home position and the desired orientation to the home orientation,
    whatever the drop-off position and the strike angle. *)
Theorem return_aims_at_home :
  forall (stod : string -> option double) (inp : Interface.TickInput)
         (s s' : Interface.World),
    Interface_calibrated s ->
    Interface.mode (Interface.globals s) = EXECUTE_MODE ->
    Interface.state (Interface.globals s) = Interface.POSORI_CONTROLLER \/
    Interface.state (Interface.globals s) = Interface.JOINT_CONTROLLER_SHOT ->
    (14300 < Interface.controller_counter (Interface.globals s))%Z ->
    Interface.step stod inp s = Some s' ->
    Interface.po_desired_position (Interface.posori_task s') = Interface.xh /\
    Interface.po_desired_orientation (Interface.posori_task s') =
    Interface.home_orientation.
Proof.
  intros stod inp s s' Hcal Hmode Hst Hc Hstep.
  destruct (Interface_step_execute_pose stod inp s Hmode) as (s1 & Hs1 & Hpos & Hori).
  rewrite Hstep in Hs1. injection Hs1 as <-.
  cbv zeta in Hpos, Hori.
  pose proof (Interface_calibrated_window_ordered s Hcal) as Hord.
  destruct Hcal as (H0 & H1 & H2 & H3 & H4 & HT).
  assert (Ht : Interface.seconds (Interface.globals s) > 14.3).
  { unfold Interface.seconds, dt. apply IZR_lt in Hc. lra. }
  assert (Hout : Interface.seconds (Interface.globals s) < Interface.t_0 (Interface.globals s) \/
                 Interface.seconds (Interface.globals s) >= Interface.t_4 (Interface.globals s))
    by (right; rewrite H4; lra).
  rewrite H4, HT in Hpos, Hori.
  assert (Hdone : gt_d (Interface.seconds (Interface.globals s)) (13 + 1.3) = true)
    by (apply gt_d_true; lra).
  rewrite Hdone in Hpos, Hori.
  rewrite (Interface_point_outside_windows _ _ Hord Hout) in Hpos.
  rewrite (Interface_rotation_outside_windows _ _ _ Hord Hout) in Hori.
  destruct Hst as [Hst | Hst]; rewrite Hst in Hpos, Hori; split; assumption.
Qed.

(** The first iteration of the return of the sample cycle, the end effector
    anywhere. *)
Lemma return_of_sample_cycle_aims_at_home :
  let s := Interface.on_globals
             (Interface.set_controller_counter 14302)
             (Interface.on_globals (Interface.set_state Interface.POSORI_CONTROLLER)
                                   Interface_cycle_start) in
  exists s',
    Interface.step stod_throws Interface_busy s = Some s' /\
    Interface.po_desired_position (Interface.posori_task s') = Interface.xh /\
    Interface.po_desired_orientation (Interface.posori_task s') =
    Interface.home_orientation.
Proof.
  intros s.
  destruct (Interface_step_execute_control stod_throws Interface_busy s eq_refl)
    as (s' & Hs' & _).
  exists s'. split; [exact Hs'|].
  apply (return_aims_at_home stod_throws Interface_busy s s').
  - unfold Interface_calibrated. cbn. repeat split; reflexivity.
  - reflexivity.
  - left. reflexivity.
  - cbn. lia.
  - exact Hs'.
Defined.

(** X23.  The first target of the pose task, set by the iteration that ends
    the approach.  The interface variant sets its clock to zero first: the
    target is the home pose, and the tick count after the iteration is 1.
    The starter variant computes the target with the clock as it stands,
    which has counted the approach, and zeroes the tick count afterwards: the
    target is the point of the trajectory for the time the approach took, so
    that after an approach of 5 s to 20 s it is on the board, 0.2 m at least
    below the home position where the trajectory starts on the next tick. *)
Theorem first_pose_target_after_approach :
  (forall (stod : string -> option double) (inp : Interface.TickInput)
          (s s' : Interface.World),
      Interface_calibrated s ->
      Interface.phase s = (EXECUTE_MODE, Interface.JOINT_CONTROLLER) ->
      Interface.reached_joint_goal inp = true ->
      Interface.step stod inp s = Some s' ->
      Interface.po_desired_position (Interface.posori_task s') = Interface.xh /\
      Interface.po_desired_orientation (Interface.posori_task s') =
      Interface.home_orientation /\
      Interface.controller_counter (Interface.globals s') = 1%Z) /\
  (forall (inp : Starter.TickInput) (s : Starter.World),
      Starter_window_initial (Starter.globals s) ->
      Starter.phase s = (EXECUTE_MODE, Starter.JOINT_CONTROLLER) ->
      Starter.reached_joint_goal inp = true ->
      Starter.po_desired_position (Starter.posori_task (Starter.step inp s)) =
      Starter.calculatePointInTrajectory (Starter.globals s)
                                         (Starter.seconds (Starter.globals s)) /\
      Starter.controller_counter (Starter.globals (Starter.step inp s)) = 1%Z /\
      (5 <= Starter.seconds (Starter.globals s) < 20 ->
       v3_dist (Starter.po_desired_position (Starter.posori_task (Starter.step inp s)))
               Starter.xh >= 0.2)).
Proof.
  split.
  - intros stod inp s s' Hcal Hph Hgoal Hstep.
    unfold Interface.phase in Hph. injection Hph as Hmode Hst.
    destruct (Interface_step_execute_pose stod inp s Hmode) as (s1 & Hs1 & Hpos & Hori).
    rewrite Hstep in Hs1. injection Hs1 as <-.
    destruct (Interface_step_execute_control stod inp s Hmode)
      as (s2 & Hs2 & _ & _ & _ & Hcnt).
    rewrite Hstep in Hs2. injection Hs2 as <-.
    cbv zeta in Hpos, Hori, Hcnt. rewrite Hst, Hgoal in Hpos, Hori, Hcnt.
    destruct Hcal as (H0 & H1 & H2 & H3 & H4 & HT).
    split; [|split].
    + rewrite Hpos. unfold Interface.calculatePointInTrajectory. rewrite H0, H1.
      replace (inRange 0 0 4) with true by (symmetry; apply inRange_true; lra).
      unfold v3_plus, v3_div, v3_scale, v3_minus, Interface.xh. cbn [v_x v_y v_z].
      f_equal; lra.
    + rewrite Hori. unfold Interface.calculateRotationInTrajectory. rewrite H0, H1.
      replace (inRange 0 0 4) with true by (symmetry; apply inRange_true; lra).
      replace (- M_PI / 4 * (0 - 0) / (4 - 0)) with 0 by lra.
      apply rotZ_0.
    + rewrite Hcnt. reflexivity.
  - intros inp s Hwin Hph Hgoal.
    unfold Starter.phase in Hph. injection Hph as Hmode Hst.
    destruct (Starter_step_approach_exit inp s Hmode Hst Hgoal) as [Hpos Hcnt].
    split; [exact Hpos|]. split; [rewrite Hcnt; reflexivity|].
    intros Ht. rewrite Hpos.
    apply Rle_ge. apply Rle_trans with (2 := v3_dist_ge_z _ _).
    assert (Hz : v_z (Starter.calculatePointInTrajectory
                        (Starter.globals s) (Starter.seconds (Starter.globals s))) = 0.5).
    { destruct (Rlt_le_dec (Starter.seconds (Starter.globals s)) 10) as [Hlt | Hge].
      - rewrite (Starter_point_piece2 _ Hwin) by lra.
        rewrite (Starter_arc_angle _ Hwin). reflexivity.
      - rewrite (Starter_point_piece34 _ Hwin) by lra. reflexivity. }
    rewrite Hz. unfold Starter.xh. cbn [v_z].
    match goal with
    | |- _ <= Rabs ?x => replace x with (Ropp 0.2) by lra
    end.
    rewrite Rabs_Ropp, Rabs_pos_eq; lra.
Qed.

(** The end of an approach of 7 s in the starter variant, and of an
    approach in the interface variant. *)
Lemma first_pose_target_after_7_seconds :
  let s := Starter.on_globals (Starter.set_controller_counter 7000)
                              Starter_cycle_start in
  (exists s',
      Interface.step stod_throws Interface_quiet Interface_cycle_start = Some s' /\
      Interface.po_desired_position (Interface.posori_task s') = Interface.xh) /\
  v3_dist (Starter.po_desired_position
             (Starter.posori_task (Starter.step Starter_quiet s)))
          Starter.xh >= 0.2.
Proof.
  intros s. split.
  - destruct (Interface_step_execute_control
                stod_throws Interface_quiet Interface_cycle_start eq_refl)
      as (s' & Hs' & _).
    exists s'. split; [exact Hs'|].
    apply (proj1 first_pose_target_after_approach
                 stod_throws Interface_quiet Interface_cycle_start s').
    + exact Interface_cycle_start_calibrated.
    + reflexivity.
    + exact Interface_quiet_reached_joint_goal.
    + exact Hs'.
  - apply (proj2 first_pose_target_after_approach Starter_quiet s).
    + unfold Starter_window_initial. cbn. repeat split; reflexivity.
    + reflexivity.
    + exact Starter_quiet_reached_joint_goal.
    + unfold Starter.seconds, dt. cbn. lra.
Defined.

(** ** The joint goal *)

Lemma at_vminus (a b : VectorXd) :
  forall i : nat,
    (i < List.length a)%nat -> (i < List.length b)%nat ->
    at_ (vminus a b) i = at_ a i - at_ b i.
Proof.
  revert b. induction a as [|x a IH]; intros b i Ha Hb; [simpl in Ha; lia|].
  destruct b as [|y b]; [simpl in Hb; lia|].
  destruct i as [|i]; [reflexivity|].
  unfold at_ in *. simpl. apply IH; simpl in Ha, Hb; lia.
Qed.

(** X24.  What the end of the approach guarantees: when the test on the
    joint angles succeeds (the distance to the ready posture is below 0.15),
    every one of the seven joints is within 0.15 rad of its ready angle, in
    both variants. *)
Theorem joint_goal_bounds_every_joint :
  (forall (inp : Interface.TickInput) (i : nat),
      List.length (Interface.in_q inp) = 7%nat ->
      Interface.reached_joint_goal inp = true ->
      (i < 7)%nat ->
      Rabs (at_ (Interface.in_q inp) i - at_ Interface.q_init_desired i) < 0.15) /\
  (forall (inp : Starter.TickInput) (i : nat),
      List.length (Starter.in_q inp) = 7%nat ->
      Starter.reached_joint_goal inp = true ->
      (i < 7)%nat ->
      Rabs (at_ (Starter.in_q inp) i - at_ Starter.q_init_desired i) < 0.15).
Proof.
  split.
  - intros inp i Hlen Hgoal Hi.
    unfold Interface.reached_joint_goal in Hgoal. apply lt_d_true in Hgoal.
    rewrite <- at_vminus by (rewrite ?Hlen; simpl; lia).
    apply Rle_lt_trans with (2 := Hgoal). apply norm_ge_coefficient.
  - intros inp i Hlen Hgoal Hi.
    unfold Starter.reached_joint_goal in Hgoal. apply lt_d_true in Hgoal.
    rewrite <- at_vminus by (rewrite ?Hlen; simpl; lia).
    apply Rle_lt_trans with (2 := Hgoal). apply norm_ge_coefficient.
Qed.

(** The ready posture itself, joint 4. *)
Lemma joint_goal_at_ready_posture :
  Rabs (at_ (Interface.in_q Interface_quiet) 3%nat - at_ Interface.q_init_desired 3%nat) < 0.15 /\
  Rabs (at_ (Starter.in_q Starter_quiet) 3%nat - at_ Starter.q_init_desired 3%nat) < 0.15.
Proof.
  split.
  - apply (proj1 joint_goal_bounds_every_joint Interface_quiet 3%nat).
    + reflexivity.
    + exact Interface_quiet_reached_joint_goal.
    + lia.
  - apply (proj2 joint_goal_bounds_every_joint Starter_quiet 3%nat).
    + reflexivity.
    + exact Starter_quiet_reached_joint_goal.
    + lia.
Defined.

(** ** The parts of the shot *)

(** What an iteration in [JOINT_CONTROLLER_SHOT] leaves in the joint
    task and in [command_time]. *)
Lemma Interface_step_shot_settings (stod : string -> option double)
      (inp : Interface.TickInput) (s : Interface.World) :
  Interface.mode (Interface.globals s) = EXECUTE_MODE ->
  Interface.state (Interface.globals s) = Interface.JOINT_CONTROLLER_SHOT ->
  exists s',
    Interface.step stod inp s = Some s' /\
    let t := Interface.seconds (Interface.globals s) in
    let g := Interface.globals s in
    let T := Interface.total_time (Interface.locals s) in
    let strike :=
        [M_PI / 3; M_PI / 3; M_PI / 3; M_PI / 3; M_PI / 2; M_PI / 2;
         if Interface.centershot g then 2.33 else 3.0] in
    Interface.command_time (Interface.locals s') =
    (if gt_d t (Interface.t_3 g) && lt_d t (Interface.t_4 g) then 0.0
     else if le_d (t - Interface.t_4 g) T
          then Interface.command_time (Interface.locals s) + 1
          else Interface.command_time (Interface.locals s)) /\
    Interface.jt_saturation_velocity (Interface.joint_task s') =
    (if gt_d t (Interface.t_4 g + T) then Ones (M_PI / 4) dof
     else if gt_d t (Interface.t_3 g) && lt_d t (Interface.t_4 g)
          then Interface.jt_saturation_velocity (Interface.joint_task s)
          else if le_d (t - Interface.t_4 g) T then strike
               else Interface.jt_saturation_velocity (Interface.joint_task s)).
Proof.
  intros Hmode Hst.
  unfold Interface.step. cbn. rewrite Hmode. cbn.
  eexists. split; [reflexivity|].
  unfold Interface.execute_mode. cbn. rewrite Hst.
  unfold Interface.joint_controller_shot. cbn.
  destruct (gt_d _ _ && lt_d _ _); cbn.
  - destruct (gt_d _ _); cbn; split; reflexivity.
  - destruct (le_d _ _); cbn.
    + destruct (Interface.centershot (Interface.globals s)) eqn:Ecs; cbn;
        destruct (gt_d _ _); cbn; split; reflexivity.
    + destruct (gt_d _ _); cbn; split; reflexivity.
Qed.

Lemma Interface_step_track_theta_mid (stod : string -> option double)
      (inp : Interface.TickInput) (s : Interface.World) :
  Interface.mode (Interface.globals s) = EXECUTE_MODE ->
  Interface.state (Interface.globals s) = Interface.POSORI_CONTROLLER ->
  exists s',
    Interface.step stod inp s = Some s' /\
    let t := Interface.seconds (Interface.globals s) in
    Interface.theta_mid (Interface.globals s') =
    if gt_d t (Interface.t_3 (Interface.globals s)) &&
       lt_d t (Interface.t_3 (Interface.globals s) +
               Interface.total_time (Interface.locals s))
    then at_ (Interface.in_q inp) (dof - 1)
    else Interface.theta_mid (Interface.globals s).
Proof.
  intros Hmode Hst.
  unfold Interface.step. cbn. rewrite Hmode. cbn.
  eexists. split; [reflexivity|].
  unfold Interface.execute_mode. cbn. rewrite Hst.
  unfold Interface.posori_controller, Interface.reached_final_goal. cbn.
  destruct (Interface.robotReachedGoal _ _ _ _ _ _ && gt_d _ _); cbn;
    destruct (gt_d _ _ && lt_d _ _); reflexivity.
Qed.

(** X25.  The shot of the interface variant by tick counts, with the
    boundaries and the shot duration of the source.  The iteration that
    leaves the tracking for the shot records the sensed angle of the last
    joint as [theta_mid].  Then, in [JOINT_CONTROLLER_SHOT]: up to tick 12999
    the arm winds up, the speed limits untouched; from tick 13000 to tick
    14299 it strikes, with the speed limit of the last joint at 2.33 rad/s
    for a centre shot and 3 rad/s otherwise; at tick 14300 the state is still
    [JOINT_CONTROLLER_SHOT]; the iteration after that sets every speed limit
    to pi/4 rad/s and leaves the state.  (At tick 14300 the strike test of
    the source compares 14300 * 0.001 - 13 with 1.3, which are equal as real
    numbers and not as doubles: what the strike branch does at that tick is
    not stated.) *)
Theorem shot_is_wind_up_then_strike :
  forall (stod : string -> option double) (inp : Interface.TickInput)
         (s s' : Interface.World),
    Interface_calibrated s ->
    Interface.mode (Interface.globals s) = EXECUTE_MODE ->
    Interface.step stod inp s = Some s' ->
    let c := Interface.controller_counter (Interface.globals s) in
    (Interface.state (Interface.globals s) = Interface.POSORI_CONTROLLER ->
     c = 12001%Z ->
     Interface.state (Interface.globals s') = Interface.JOINT_CONTROLLER_SHOT /\
     Interface.theta_mid (Interface.globals s') = at_ (Interface.in_q inp) (dof - 1)) /\
    (Interface.state (Interface.globals s) = Interface.JOINT_CONTROLLER_SHOT ->
     (12000 < c < 13000)%Z ->
     Interface.state (Interface.globals s') = Interface.JOINT_CONTROLLER_SHOT /\
     Interface.command_time (Interface.locals s') = 0 /\
     Interface.jt_saturation_velocity (Interface.joint_task s') =
     Interface.jt_saturation_velocity (Interface.joint_task s)) /\
    (Interface.state (Interface.globals s) = Interface.JOINT_CONTROLLER_SHOT ->
     (13000 <= c < 14300)%Z ->
     Interface.state (Interface.globals s') = Interface.JOINT_CONTROLLER_SHOT /\
     Interface.command_time (Interface.locals s') =
     Interface.command_time (Interface.locals s) + 1 /\
     Interface.jt_saturation_velocity (Interface.joint_task s') =
     [M_PI / 3; M_PI / 3; M_PI / 3; M_PI / 3; M_PI / 2; M_PI / 2;
      if Interface.centershot (Interface.globals s) then 2.33 else 3.0]) /\
    (Interface.state (Interface.globals s) = Interface.JOINT_CONTROLLER_SHOT ->
     c = 14300%Z ->
     Interface.state (Interface.globals s') = Interface.JOINT_CONTROLLER_SHOT) /\
    (Interface.state (Interface.globals s) = Interface.JOINT_CONTROLLER_SHOT ->
     (14300 < c)%Z ->
     Interface.state (Interface.globals s') = Interface.POSORI_CONTROLLER /\
     Interface.jt_saturation_velocity (Interface.joint_task s') = Ones (M_PI / 4) dof).
Proof.
  intros stod inp s s' Hcal Hmode Hstep c.
  destruct (Interface_step_execute_control stod inp s Hmode)
    as (s1 & Hs1 & _ & _ & Hph & _).
  rewrite Hstep in Hs1. injection Hs1 as <-.
  cbv zeta in Hph.
  rewrite (Interface_final_goal_calibrated inp _ s Hcal) in Hph.
  destruct Hcal as (_ & _ & _ & H3 & H4 & HT).
  rewrite H3, H4, HT in Hph. unfold Interface.seconds, dt in Hph. fold c in Hph.
  unfold Interface.phase in Hph.
  split; [|split; [|split; [|split]]].
  - intros Hst Hc. rewrite Hst in Hph.
    assert (Hshoot : gt_d (IZR c * 0.001) 12 && lt_d (IZR c * 0.001) (12 + 1.3) = true).
    { apply andb_true_iff. rewrite Hc. split; [apply gt_d_true | apply lt_d_true]; lra. }
    rewrite Hshoot in Hph. injection Hph as _ Hst'. split; [exact Hst'|].
    destruct (Interface_step_track_theta_mid stod inp s Hmode Hst) as (s1 & Hs1 & Hth).
    rewrite Hstep in Hs1. injection Hs1 as <-.
    cbv zeta in Hth. rewrite H3, HT in Hth.
    unfold Interface.seconds, dt in Hth. fold c in Hth.
    rewrite Hshoot in Hth. exact Hth.
  - intros Hst [Hlo Hhi]. rewrite Hst in Hph.
    apply IZR_lt in Hlo. apply IZR_lt in Hhi.
    destruct (Interface_step_shot_settings stod inp s Hmode Hst) as (s1 & Hs1 & Hct & Hsat).
    rewrite Hstep in Hs1. injection Hs1 as <-.
    cbv zeta in Hct, Hsat. rewrite H3, H4, HT in Hct, Hsat.
    unfold Interface.seconds, dt in Hct, Hsat. fold c in Hct, Hsat.
    assert (Hw : gt_d (IZR c * 0.001) 12 && lt_d (IZR c * 0.001) 13 = true).
    { apply andb_true_iff. split; [apply gt_d_true | apply lt_d_true]; lra. }
    assert (Hd : gt_d (IZR c * 0.001) (13 + 1.3) = false) by (apply gt_d_false; lra).
    rewrite Hw in Hct. rewrite Hw, Hd in Hsat. rewrite Hd in Hph.
    injection Hph as _ Hst'. split; [exact Hst'|]. split; [rewrite Hct; lra | exact Hsat].
  - intros Hst [Hlo Hhi]. rewrite Hst in Hph.
    apply IZR_le in Hlo. apply IZR_lt in Hhi.
    destruct (Interface_step_shot_settings stod inp s Hmode Hst) as (s1 & Hs1 & Hct & Hsat).
    rewrite Hstep in Hs1. injection Hs1 as <-.
    cbv zeta in Hct, Hsat. rewrite H3, H4, HT in Hct, Hsat.
    unfold Interface.seconds, dt in Hct, Hsat. fold c in Hct, Hsat.
    assert (Hw : gt_d (IZR c * 0.001) 12 && lt_d (IZR c * 0.001) 13 = false).
    { apply andb_false_iff. right. apply lt_d_false. lra. }
    assert (Hk : le_d (IZR c * 0.001 - 13) 1.3 = true) by (apply le_d_true; lra).
    assert (Hd : gt_d (IZR c * 0.001) (13 + 1.3) = false) by (apply gt_d_false; lra).
    rewrite Hw, Hk in Hct. rewrite Hw, Hk, Hd in Hsat. rewrite Hd in Hph.
    injection Hph as _ Hst'. split; [exact Hst'|]. split; assumption.
  - intros Hst Hc. rewrite Hst in Hph.
    assert (Hd : gt_d (IZR c * 0.001) (13 + 1.3) = false)
      by (apply gt_d_false; rewrite Hc; lra).
    rewrite Hd in Hph. injection Hph as _ Hst'. exact Hst'.
  - intros Hst Hlo. rewrite Hst in Hph.
    apply IZR_lt in Hlo.
    destruct (Interface_step_shot_settings stod inp s Hmode Hst) as (s1 & Hs1 & _ & Hsat).
    rewrite Hstep in Hs1. injection Hs1 as <-.
    cbv zeta in Hsat. rewrite H3, H4, HT in Hsat.
    unfold Interface.seconds, dt in Hsat. fold c in Hsat.
    assert (Hd : gt_d (IZR c * 0.001) (13 + 1.3) = true) by (apply gt_d_true; lra).
    rewrite Hd in Hsat. rewrite Hd in Hph.
    injection Hph as _ Hst'. split; assumption.
Qed.

(** The first tick of the strike of the sample cycle, which is no centre
    shot as long as no activation has read a strike angle. *)
Lemma strike_of_sample_cycle :
  let s := Interface.on_globals
             (Interface.set_controller_counter 13000)
             (Interface.on_globals (Interface.set_state Interface.JOINT_CONTROLLER_SHOT)
                                   Interface_cycle_start) in
  exists s',
    Interface.step stod_throws Interface_quiet s = Some s' /\
    Interface.state (Interface.globals s') = Interface.JOINT_CONTROLLER_SHOT /\
    Interface.command_time (Interface.locals s') =
    Interface.command_time (Interface.locals s) + 1 /\
    Interface.jt_saturation_velocity (Interface.joint_task s') =
    [M_PI / 3; M_PI / 3; M_PI / 3; M_PI / 3; M_PI / 2; M_PI / 2; 3.0].
Proof.
  intros s.
  destruct (Interface_step_execute_control stod_throws Interface_quiet s eq_refl)
    as (s' & Hs' & _).
  exists s'. split; [exact Hs'|].
  assert (Hcal : Interface_calibrated s)
    by (unfold Interface_calibrated; cbn; repeat split; reflexivity).
  destruct (shot_is_wind_up_then_strike stod_throws Interface_quiet s s' Hcal eq_refl Hs')
    as (_ & _ & H & _ & _).
  apply H; [reflexivity | cbn; lia].
Defined.

(** ** The locals the loop only writes *)

Lemma Interface_step_forget_swing (stod : string -> option double)
      (inp : Interface.TickInput) (s : Interface.World) :
  option_map Interface_forget_swing (Interface.step stod inp (Interface_forget_swing s)) =
  option_map Interface_forget_swing (Interface.step stod inp s).
Proof.
  unfold Interface.step, Interface_forget_swing. cbn.
  destruct (Interface.mode (Interface.globals s)).
  - unfold Interface.wait_mode. cbn.
    destruct (String.eqb _ _); [|reflexivity].
    destruct (stod _); [|reflexivity].
    destruct (stod _); [|reflexivity].
    destruct (stod _); [|reflexivity].
    cbn. destruct (le_d _ _ && ge_d _ _); reflexivity.
  - cbn. unfold Interface.execute_mode. cbn.
    destruct (Interface.state (Interface.globals s)).
    + unfold Interface.joint_controller. cbn.
      destruct (Interface.reached_joint_goal _); reflexivity.
    + unfold Interface.posori_controller, Interface.reached_final_goal. cbn.
      destruct (Interface.robotReachedGoal _ _ _ _ _ _ && gt_d _ _); cbn;
        destruct (gt_d _ _ && lt_d _ _); reflexivity.
    + unfold Interface.joint_controller_shot. cbn.
      destruct (gt_d _ _ && lt_d _ _); cbn.
      * destruct (gt_d _ _); reflexivity.
      * destruct (le_d _ _); cbn.
        -- destruct (Interface.centershot (Interface.globals s)); cbn;
             destruct (gt_d _ _); reflexivity.
        -- destruct (gt_d _ _); reflexivity.
    + reflexivity.
Qed.

Lemma Interface_step_forget_swing_eq (stod : string -> option double)
      (inp : Interface.TickInput) (s1 s2 : Interface.World) :
  Interface_forget_swing s1 = Interface_forget_swing s2 ->
  option_map Interface_forget_swing (Interface.step stod inp s1) =
  option_map Interface_forget_swing (Interface.step stod inp s2).
Proof.
  intros H.
  rewrite <- (Interface_step_forget_swing stod inp s1).
  rewrite <- (Interface_step_forget_swing stod inp s2).
  rewrite H. reflexivity.
Qed.

Lemma Interface_loop_forget_swing_eq (stod : string -> option double)
      (inputs : list Interface.TickInput) :
  forall s1 s2,
    Interface_forget_swing s1 = Interface_forget_swing s2 ->
    option_map Interface_forget_swing (Interface.loop stod inputs s1) =
    option_map Interface_forget_swing (Interface.loop stod inputs s2).
Proof.
  induction inputs as [|inp rest IH]; intros s1 s2 H.
  - cbn. rewrite H. reflexivity.
  - cbn [Interface.loop].
    pose proof (Interface_step_forget_swing_eq stod inp s1 s2 H) as Hs.
    destruct (Interface.step stod inp s1) as [t1|],
             (Interface.step stod inp s2) as [t2|];
      cbn [option_map] in Hs; try discriminate.
    + apply IH. congruence.
    + reflexivity.
Qed.

Lemma Interface_shutdown_forget_swing (s1 s2 : Interface.World) :
  Interface_forget_swing s1 = Interface_forget_swing s2 ->
  Interface_forget_swing (Interface.shutdown s1) =
  Interface_forget_swing (Interface.shutdown s2).
Proof.
  intros H.
  assert (Hf : forall s, Interface_forget_swing (Interface.shutdown s) =
                         Interface_forget_swing
                           (Interface.shutdown (Interface_forget_swing s)))
    by (intros s; reflexivity).
  rewrite (Hf s1), (Hf s2), H. reflexivity.
Qed.

(** X26.  The locals [hit_velocity], [swing_angle], [shot_angular_velocity],
    [a], [w] and [command_time] of the interface variant are written and
    never read for anything the loop does: two worlds that differ in them
    only go through the same iterations, end the same way, and agree on
    everything else afterwards (mode, state, tick count, the fields of the
    two tasks, the store with every torque written, the safety reports).  In
    particular a run does not depend on the values the locals without
    initialiser hold at the start.  (The model leaves out the lines that
    print them.) *)
Theorem swing_locals_are_never_read :
  forall stod : string -> option double,
    (forall (inp : Interface.TickInput) (s1 s2 : Interface.World),
        Interface_forget_swing s1 = Interface_forget_swing s2 ->
        option_map Interface_forget_swing (Interface.step stod inp s1) =
        option_map Interface_forget_swing (Interface.step stod inp s2)) /\
    (forall (u1 u2 : Interface.Indeterminate) (store : Interface.Redis)
            (inputs : list Interface.TickInput),
        Interface.u_desired_position u1 = Interface.u_desired_position u2 ->
        Interface.u_desired_orientation u1 = Interface.u_desired_orientation u2 ->
        option_map Interface_forget_swing (Interface.main stod u1 store inputs) =
        option_map Interface_forget_swing (Interface.main stod u2 store inputs)).
Proof.
  intros stod. split.
  - intros inp s1 s2 H. exact (Interface_step_forget_swing_eq stod inp s1 s2 H).
  - intros u1 u2 store inputs Hp Ho. unfold Interface.main.
    assert (H0 : Interface_forget_swing (Interface.init u1 store) =
                 Interface_forget_swing (Interface.init u2 store)).
    { unfold Interface_forget_swing, Interface.init. cbn. rewrite Hp, Ho. reflexivity. }
    pose proof (Interface_loop_forget_swing_eq stod inputs _ _ H0) as Hl.
    destruct (Interface.loop stod inputs (Interface.init u1 store)) as [t1|],
             (Interface.loop stod inputs (Interface.init u2 store)) as [t2|];
      cbn [option_map] in Hl; try discriminate; [|reflexivity].
    cbn [option_map]. f_equal.
    apply Interface_shutdown_forget_swing. congruence.
Qed.

(** Two runs of the sample shot, the local [hit_velocity] holding 0 in one
    and 1 in the other. *)
Lemma run_does_not_depend_on_hit_velocity :
  option_map Interface_forget_swing
             (Interface.main stod_sample (Interface_u_hit 0) Interface_store0
                             [Interface_quiet; Interface_quiet]) =
  option_map Interface_forget_swing
             (Interface.main stod_sample (Interface_u_hit 1) Interface_store0
                             [Interface_quiet; Interface_quiet]).
Proof.
  apply (proj2 (swing_locals_are_never_read stod_sample)); reflexivity.
Defined.

